(** * OBSConnector: the connection manager of the OBS overlay

    A model of the class [OBSConnector] of [OBSO.py] (lines 76-162): the
    reconnecting worker loop [run] started by [connect], the one-time
    subscription of [subscribe_events], the fire-and-forget [send] and
    [stop].

    The object is shared between the worker thread and the threads that call
    its methods, so the model is an interleaving one: a [world] holds the
    fields of the object, one program counter per worker thread and per
    method activation, and the log of everything the object did to its
    collaborators (socket, callbacks, [time.sleep], [print]).  One [step]
    executes one statement of one thread; what the environment answers to an
    I/O statement (success, exception, received text, decoded value) comes
    with the step as a [reply]. *)

From stdpp Require Import base list sorting.
From Stdlib Require Import ZArith String Ascii Bool Lia DecimalString.
From Stdlib Require Import Floats.SpecFloat.
Import ListNotations.
Local Open Scope string_scope.
Local Open Scope list_scope.
Set Warnings "-register-all".

(** ** JSON values, as [json.loads] returns them and [json.dumps] takes them *)

Module Json.

(** A Python [dict] is kept as the list of its items in insertion order;
    keys are distinct, and lookup takes the first item with the key. *)
Inductive json : Type :=
| JNull
| JBool (b : bool)
| JInt (z : Z)
| JFloat (f : spec_float)
| JStr (s : string)
| JArr (l : list json)
| JObj (m : list (string * json)).

(** [k in d] and [d.get(k)] on the items of a dict. *)
Fixpoint get (k : string) (m : list (string * json)) : option json :=
  match m with
  | [] => None
  | (k', v) :: rest => if String.eqb k k' then Some v else get k rest
  end.

Definition contains (k : string) (m : list (string * json)) : bool :=
  match get k m with Some _ => true | None => false end.

(** [d.get(k, default)]. *)
Definition get_default (k : string) (default : json)
    (m : list (string * json)) : json :=
  match get k m with Some v => v | None => default end.

(** Python's [x == n] for a float [x] and an integer [n]: exact. *)
Definition float_eq_int (f : spec_float) (n : Z) : bool :=
  match f with
  | S754_zero _ => (n =? 0)%Z
  | S754_infinity _ => false
  | S754_nan => false
  | S754_finite s m e =>
      let v := if s then Z.neg m else Z.pos m in
      if (0 <=? e)%Z then (v * 2 ^ e =? n)%Z
      else (v =? n * 2 ^ (- e))%Z
  end.

(** Python's [v == n] for a JSON value [v] and an integer literal [n]:
    numbers compare by value ([bool] is a subtype of [int]), everything
    else is different from an integer. *)
Definition eq_int (v : json) (n : Z) : bool :=
  match v with
  | JInt z => (z =? n)%Z
  | JBool b => ((if b then 1 else 0) =? n)%Z
  | JFloat f => float_eq_int f n
  | _ => false
  end.

(** Truth value of a Python [str]. *)
Definition truthy (s : string) : bool :=
  match s with EmptyString => false | String _ _ => true end.

End Json.
Import Json.

(** ** Configuration (the global [config], lines 56-70) *)

Record Config : Type := {
  obs_host : string;
  obs_port : Z;
  obs_password : string
}.

(** [DEFAULT_CONFIG], lines 57-63, the connection part. *)
Definition DEFAULT_CONFIG : Config :=
  {| obs_host := "localhost"; obs_port := 4455; obs_password := EmptyString |}.

(** [str(n)] for an integer. *)
Definition str_int (n : Z) : string := NilZero.string_of_int (Z.to_int n).
Definition str_nat (n : nat) : string := NilZero.string_of_uint (Nat.to_uint n).

(** The URL of lines 96-98. *)
Definition url (cfg : Config) : string :=
  ("ws://" ++ obs_host cfg ++ ":" ++ str_int (obs_port cfg))%string.

Arguments url : simpl never.

(** ** Outbound frames: the dictionaries handed to [json.dumps] *)

Module Frames.

(** Line 100. *)
Definition identify : json :=
  JObj [("op", JInt 1); ("d", JObj [("rpcVersion", JInt 1)])].

(** Lines 102-105. *)
Definition authenticate (password : string) : json :=
  JObj [("op", JInt 3);
        ("d", JObj [("rpcVersion", JInt 1);
                    ("authentication", JStr password)])].

(** Lines 135-142, with [request_id] already incremented. *)
Definition subscribe (request_id : nat) (events : list string) : json :=
  JObj [("op", JInt 6);
        ("d", JObj [("requestType", JStr "Subscribe");
                    ("requestId", JStr ("sub_" ++ str_nat request_id)%string);
                    ("eventSubscriptions", JArr (map JStr events))])].

(** Lines 149-151. *)
Definition command (request_type : string) : json :=
  JObj [("op", JInt 6);
        ("d", JObj [("requestType", JStr request_type);
                    ("requestId", JStr "1")])].

(** The list literal of lines 109-113. *)
Definition subscribed_events : list string :=
  ["RecordStateChanged"; "StreamStateChanged"; "ReplayBufferStateChanged"].

End Frames.

Arguments Frames.identify : simpl never.
Arguments Frames.authenticate : simpl never.
Arguments Frames.subscribe : simpl never.
Arguments Frames.command : simpl never.
Arguments Frames.subscribed_events : simpl never.

(** ** The event router (lines 120-123) *)

Inductive routing : Type :=
| RouteEvent (event_type event_data : json)   (* on_event is called *)
| RouteIgnore                                 (* the [if] is false *)
| RouteRaise.                                 (* AttributeError *)

(** [data.get] exists only on a dict, and so does [data["d"].get]: any other
    value raises [AttributeError]. *)
Definition route (data : json) : routing :=
  match data with
  | JObj m =>
      if match get "op" m with Some v => eq_int v 5 | None => false end
         && contains "d" m
      then match get "d" m with
           | Some (JObj d) =>
               RouteEvent (get_default "eventType" (JStr EmptyString) d)
                          (get_default "eventData" (JObj []) d)
           | _ => RouteRaise
           end
      else RouteIgnore
  | _ => RouteRaise
  end.

(** ** Threads, program counters and the log *)

Abbreviation tid := nat (only parsing).   (* a worker thread: its index in [workers] *)
Abbreviation cid := nat (only parsing).   (* a method activation: its index in [callers] *)
Abbreviation sock := nat (only parsing).  (* a socket, numbered by [create_connection] *)

(** Where a worker thread stands in [run] (lines 93-127) and in
    [subscribe_events] (lines 132-144), which it calls at line 109. *)
Inductive wpc : Type :=
| W_unstarted                       (* Thread created, not started *)
| W_top                             (* 94   while self.should_run *)
| W_open                            (* 96   create_connection *)
| W_identify                        (* 100  ws.send(identify) *)
| W_pw                              (* 101  if config["obs_password"] *)
| W_auth                            (* 102  ws.send(authenticate) *)
| W_setconn                         (* 106  self.connected = True *)
| W_status                          (* 107  on_status_update("Connected") *)
| W_sub_incr                        (* 134  self.request_id += 1 *)
| W_sub_send                        (* 135  ws.send(subscribe) *)
| W_sub_print                       (* 144  print(...) *)
| W_inner                           (* 115  while connected and should_run *)
| W_recv                            (* 116  message = ws.recv(); 117-118 *)
| W_loads (message : string)        (* 119  data = json.loads(message) *)
| W_route (data : json)             (* 120-122 *)
| W_callback (event_type event_data : json)   (* 123 on_event(...) *)
| W_exc_flag                        (* 125  self.connected = False *)
| W_exc_status                      (* 126  on_status_update(...) *)
| W_exc_sleep                       (* 127  time.sleep(5) *)
| W_done.                           (* run returned or raised: the thread is dead *)

(** [Thread.is_alive()]: started and not finished. *)
Definition is_alive (p : wpc) : bool :=
  match p with W_unstarted | W_done => false | _ => true end.

(** Where an activation of [connect], [send] or [stop] stands. *)
Inductive cpc : Type :=
| C_check                           (* 88   if thread and thread.is_alive() *)
| C_clear                           (* 89   self.should_run = False *)
| C_join                            (* 90   self.thread.join(): the call *)
| C_joining (t : tid)               (* 90   blocked in join() on thread t *)
| C_set                             (* 91   self.should_run = True *)
| C_create                          (* 129  self.thread = Thread(...) *)
| C_start                           (* 130  self.thread.start() *)
| S_check (request_type : string)   (* 147  if self.connected *)
| S_write (request_type : string)   (* 149  ws.send(command) *)
| S_exc_flag                        (* 153  self.connected = False *)
| S_exc_status                      (* 154  on_status_update(...) *)
| T_clear                           (* 157  self.should_run = False *)
| T_check                           (* 158  if self.ws *)
| T_close                           (* 160  self.ws.close() *)
| Returned                          (* the call returned normally *)
| Raised.                           (* an exception left the call *)

Definition finished (p : cpc) : bool :=
  match p with Returned | Raised => true | _ => false end.

Definition in_connect (p : cpc) : bool :=
  match p with
  | C_check | C_clear | C_join | C_joining _ | C_set | C_create | C_start =>
      true
  | _ => false
  end.

Definition in_send (p : cpc) : bool :=
  match p with
  | S_check _ | S_write _ | S_exc_flag | S_exc_status => true
  | _ => false
  end.

Definition in_stop (p : cpc) : bool :=
  match p with T_clear | T_check | T_close => true | _ => false end.

Inductive actor : Type :=
| Worker (t : tid)
| Caller (c : cid).

(** What the object does to its collaborators.  Both callbacks are the
    caller's ([Overlay.update_status], [Overlay.handle_obs_event]); a call
    is logged when it is made, and the reply of the step says whether it
    returned or raised. *)
Inductive event : Type :=
| EOpen (u : string) (r : option sock)   (* create_connection(u); None: raised *)
| EWrite (s : sock) (frame : json) (ok : bool)   (* s.send(json.dumps(frame)) *)
| ERecv (s : sock) (r : option string)   (* s.recv(); None: raised *)
| EClose (s : sock) (ok : bool)          (* s.close() *)
| EStatus (status : string)              (* on_status_update(status) *)
| EEvent (event_type event_data : json)  (* on_event(event_type, event_data) *)
| ESleep (seconds : nat)                 (* time.sleep(seconds) *)
| EPrint (text : string).                (* print(text, e) *)

(** The fields of an [OBSConnector] (lines 78-84) with the global [config],
    the threads and the log. *)
Record world : Type := World {
  config : Config;
  ws : option sock;
  thread : option tid;
  connected : bool;
  should_run : bool;
  request_id : nat;
  workers : list wpc;
  callers : list cpc;
  next_sock : sock;
  trace : list (actor * event)
}.

(** Field updates. *)
Definition set_ws (v : option sock) (w : world) : world :=
  let 'World cfg s th conn run rid wk cl ns tr := w in
  World cfg v th conn run rid wk cl ns tr.
Definition set_thread (v : option tid) (w : world) : world :=
  let 'World cfg s th conn run rid wk cl ns tr := w in
  World cfg s v conn run rid wk cl ns tr.
Definition set_connected (v : bool) (w : world) : world :=
  let 'World cfg s th conn run rid wk cl ns tr := w in
  World cfg s th v run rid wk cl ns tr.
Definition set_should_run (v : bool) (w : world) : world :=
  let 'World cfg s th conn run rid wk cl ns tr := w in
  World cfg s th conn v rid wk cl ns tr.
Definition set_request_id (v : nat) (w : world) : world :=
  let 'World cfg s th conn run rid wk cl ns tr := w in
  World cfg s th conn run v wk cl ns tr.
Definition set_workers (v : list wpc) (w : world) : world :=
  let 'World cfg s th conn run rid wk cl ns tr := w in
  World cfg s th conn run rid v cl ns tr.
Definition set_callers (v : list cpc) (w : world) : world :=
  let 'World cfg s th conn run rid wk cl ns tr := w in
  World cfg s th conn run rid wk v ns tr.
Definition set_next_sock (v : sock) (w : world) : world :=
  let 'World cfg s th conn run rid wk cl ns tr := w in
  World cfg s th conn run rid wk cl v tr.

(** The thread [a] did [e]. *)
Definition log (a : actor) (e : event) (w : world) : world :=
  let 'World cfg s th conn run rid wk cl ns tr := w in
  World cfg s th conn run rid wk cl ns (tr ++ [(a, e)]).

(** Move worker [t], resp. activation [c], to its next statement. *)
Definition goto_w (t : tid) (p : wpc) (w : world) : world :=
  let 'World cfg s th conn run rid wk cl ns tr := w in
  World cfg s th conn run rid (<[t := p]> wk) cl ns tr.
Definition goto_c (c : cid) (p : cpc) (w : world) : world :=
  let 'World cfg s th conn run rid wk cl ns tr := w in
  World cfg s th conn run rid wk (<[c := p]> cl) ns tr.

(** What the environment answers to the statement being executed. *)
Inductive reply : Type :=
| ROk                     (* the call returned *)
| RRaise                  (* the call raised *)
| RMsg (message : string) (* ws.recv() returned this text *)
| RJson (data : json).    (* json.loads returned this value *)

(** ** One statement of a worker thread *)

(** [self.ws.send(json.dumps(frame))] inside the [try] of [run]: on success
    go to [next], on an exception to the handler at [handler].  With no
    socket, [None.send] raises [AttributeError]. *)
Definition ws_send (a : actor) (frame : json) (r : reply)
    (next handler : world -> world) (w : world) : option world :=
  match ws w with
  | None => Some (handler w)
  | Some s =>
      match r with
      | ROk => Some (next (log a (EWrite s frame true) w))
      | RRaise => Some (handler (log a (EWrite s frame false) w))
      | _ => None
      end
  end.

Definition worker_step (t : tid) (p : wpc) (r : reply) (w : world)
    : option world :=
  let me := Worker t in
  match p with
  | W_unstarted => None
  | W_done => None
  | W_top =>
      Some (goto_w t (if should_run w then W_open else W_done) w)
  | W_open =>
      match r with
      | ROk =>
          let s := next_sock w in
          Some (goto_w t W_identify
                  (log me (EOpen (url (config w)) (Some s))
                     (set_ws (Some s) (set_next_sock (S s) w))))
      | RRaise =>
          Some (goto_w t W_exc_flag (log me (EOpen (url (config w)) None) w))
      | _ => None
      end
  | W_identify =>
      ws_send me Frames.identify r (goto_w t W_pw) (goto_w t W_exc_flag) w
  | W_pw =>
      Some (goto_w t (if truthy (obs_password (config w))
                      then W_auth else W_setconn) w)
  | W_auth =>
      ws_send me (Frames.authenticate (obs_password (config w))) r
              (goto_w t W_setconn) (goto_w t W_exc_flag) w
  | W_setconn => Some (goto_w t W_status (set_connected true w))
  | W_status =>
      (* line 107 is inside the [try]: an exception of the callback goes to
         the handler *)
      Some (goto_w t match r with RRaise => W_exc_flag | _ => W_sub_incr end
              (log me (EStatus "Connected") w))
  | W_sub_incr =>
      Some (goto_w t W_sub_send (set_request_id (S (request_id w)) w))
  | W_sub_send =>
      ws_send me (Frames.subscribe (request_id w) Frames.subscribed_events) r
              (goto_w t W_inner) (goto_w t W_sub_print) w
  | W_sub_print =>
      Some (goto_w t W_inner (log me (EPrint "Failed to subscribe events:") w))
  | W_inner =>
      Some (goto_w t (if connected w && should_run w then W_recv else W_top) w)
  | W_recv =>
      match ws w with
      | None => Some (goto_w t W_exc_flag w)
      | Some s =>
          match r with
          | RMsg m =>
              Some (goto_w t (if truthy m then W_loads m else W_inner)
                      (log me (ERecv s (Some m)) w))
          | RRaise => Some (goto_w t W_exc_flag (log me (ERecv s None) w))
          | _ => None
          end
      end
  | W_loads _ =>
      match r with
      | RJson data => Some (goto_w t (W_route data) w)
      | RRaise => Some (goto_w t W_exc_flag w)
      | _ => None
      end
  | W_route data =>
      Some (goto_w t match route data with
                     | RouteEvent event_type event_data =>
                         W_callback event_type event_data
                     | RouteIgnore => W_inner
                     | RouteRaise => W_exc_flag
                     end w)
  | W_callback event_type event_data =>
      (* line 123 is inside the [try] as well *)
      Some (goto_w t match r with RRaise => W_exc_flag | _ => W_inner end
              (log me (EEvent event_type event_data) w))
  | W_exc_flag => Some (goto_w t W_exc_status (set_connected false w))
  | W_exc_status =>
      (* line 126 is inside the handler: an exception of the callback is
         caught by nothing, it leaves [run] and the thread is dead *)
      Some (goto_w t match r with RRaise => W_done | _ => W_exc_sleep end
              (log me (EStatus "Reconnecting...") w))
  | W_exc_sleep => Some (goto_w t W_top (log me (ESleep 5) w))
  end.

(** ** One statement of [connect], [send] or [stop] *)

Definition caller_step (c : cid) (p : cpc) (r : reply) (w : world)
    : option world :=
  let me := Caller c in
  match p with
  | Returned => None
  | Raised => None
  (* connect *)
  | C_check =>
      Some (goto_c c match thread w with
                     | Some t =>
                         match workers w !! t with
                         | Some q => if is_alive q then C_clear else C_create
                         | None => C_create
                         end
                     | None => C_create
                     end w)
  | C_clear => Some (goto_c c C_join (set_should_run false w))
  | C_join =>
      (* join() is called on the thread the field holds now; it raises
         RuntimeError on a thread that was never started *)
      match thread w with
      | None => Some (goto_c c Raised w)
      | Some t =>
          match workers w !! t with
          | Some W_unstarted => Some (goto_c c Raised w)
          | Some _ => Some (goto_c c (C_joining t) w)
          | None => None
          end
      end
  | C_joining t =>
      (* join() returns once that thread is dead and blocks until then *)
      match workers w !! t with
      | Some W_done => Some (goto_c c C_set w)
      | _ => None
      end
  | C_set => Some (goto_c c C_create (set_should_run true w))
  | C_create =>
      let t := List.length (workers w) in
      Some (goto_c c C_start
              (set_thread (Some t) (set_workers (workers w ++ [W_unstarted]) w)))
  | C_start =>
      (* start() raises RuntimeError on a thread started before *)
      match thread w with
      | None => Some (goto_c c Raised w)
      | Some t =>
          match workers w !! t with
          | Some W_unstarted => Some (goto_c c Returned (goto_w t W_top w))
          | Some _ => Some (goto_c c Raised w)
          | None => None
          end
      end
  (* send *)
  | S_check request_type =>
      Some (goto_c c (if connected w then S_write request_type else Returned) w)
  | S_write request_type =>
      ws_send me (Frames.command request_type) r
              (goto_c c Returned) (goto_c c S_exc_flag) w
  | S_exc_flag => Some (goto_c c S_exc_status (set_connected false w))
  | S_exc_status =>
      (* line 154 is inside the handler of [send]: an exception of the
         callback leaves the call *)
      Some (goto_c c match r with RRaise => Raised | _ => Returned end
              (log me (EStatus "Disconnected") w))
  (* stop *)
  | T_clear => Some (goto_c c T_check (set_should_run false w))
  | T_check =>
      Some (goto_c c match ws w with Some _ => T_close | None => Returned end w)
  | T_close =>
      match ws w with
      | None => Some (goto_c c Returned w)
      | Some s =>
          match r with
          | ROk => Some (goto_c c Returned (log me (EClose s true) w))
          | RRaise => Some (goto_c c Returned (log me (EClose s false) w))
          | _ => None
          end
      end
  end.

(** ** Schedules *)

Inductive method : Type :=
| MConnect
| MSend (request_type : string)
| MStop.

Definition entry (m : method) : cpc :=
  match m with
  | MConnect => C_check
  | MSend request_type => S_check request_type
  | MStop => T_clear
  end.

(** Either a thread executes its next statement, or some thread of the
    application calls a method of the object. *)
Inductive action : Type :=
| Step (a : actor) (r : reply)
| Call (m : method).

Definition step (a : action) (w : world) : option world :=
  match a with
  | Call m => Some (set_callers (callers w ++ [entry m]) w)
  | Step (Worker t) r =>
      match workers w !! t with
      | Some p => worker_step t p r w
      | None => None
      end
  | Step (Caller c) r =>
      match callers w !! c with
      | Some p => caller_step c p r w
      | None => None
      end
  end.

Fixpoint exec (sched : list action) (w : world) : option world :=
  match sched with
  | [] => Some w
  | a :: rest =>
      match step a w with
      | Some w' => exec rest w'
      | None => None
      end
  end.

(** [__init__] (lines 77-85): the fields, and the call of [connect] at line
    85 as activation 0. *)
Definition init (cfg : Config) : world :=
  {| config := cfg; ws := None; thread := None; connected := false;
     should_run := true; request_id := 0; workers := []; callers := [C_check];
     next_sock := 0; trace := [] |}.

Definition reachable (cfg : Config) (w : world) : Prop :=
  exists sched, exec sched (init cfg) = Some w.

(** Thread [a] alone executes one statement per reply. *)
Definition solo (a : actor) (rs : list reply) : list action :=
  map (Step a) rs.

(** The loops that are running. *)
Definition live_loops (w : world) : nat :=
  List.length (List.filter is_alive (workers w)).

(** * Auxiliary definitions for the statements *)

(** An exception is raised by the statement at [p] of the [try] body of
    [run] (lines 96-123) when the environment answers [r]: a failing socket
    call, a decode error, a callback that raises (lines 107 and 123), or an
    [AttributeError] on a value that has no [get], or on [self.ws] being
    [None].  The write of [subscribe_events] is not among them: it has a
    handler of its own (line 143). *)
Definition raises (p : wpc) (r : reply) (w : world) : bool :=
  match p with
  | W_open | W_loads _ | W_status | W_callback _ _ =>
      match r with RRaise => true | _ => false end
  | W_identify | W_auth | W_recv =>
      match ws w with
      | None => true
      | Some _ => match r with RRaise => true | _ => false end
      end
  | W_route data =>
      match route data with RouteRaise => true | _ => false end
  | _ => false
  end.

(** What the raising statement itself has logged before the handler runs:
    the failed socket call or the call of the callback. *)
Definition raised_log (t : tid) (p : wpc) (w : world) : list (actor * event) :=
  match p with
  | W_open => [(Worker t, EOpen (url (config w)) None)]
  | W_identify =>
      match ws w with
      | Some s => [(Worker t, EWrite s Frames.identify false)]
      | None => []
      end
  | W_auth =>
      match ws w with
      | Some s =>
          [(Worker t,
            EWrite s (Frames.authenticate (obs_password (config w))) false)]
      | None => []
      end
  | W_recv =>
      match ws w with
      | Some s => [(Worker t, ERecv s None)]
      | None => []
      end
  | W_status => [(Worker t, EStatus "Connected")]
  | W_callback event_type event_data =>
      [(Worker t, EEvent event_type event_data)]
  | _ => []
  end.




(** The world a schedule leads to; the starting world if some step of it is
    not enabled. *)
Definition after (sched : list action) (w : world) : world :=
  match exec sched w with Some w' => w' | None => w end.

(** ** Schedules used as examples *)

Definition cfg_password : Config :=
  {| obs_host := "localhost"; obs_port := 4455; obs_password := "secret" |}.

(** The call of [connect] made by [__init__]: lines 88, 129 and 130. *)
Definition sched_connect : list action := solo (Caller 0) [ROk; ROk; ROk].

(** Worker 0, without password, every call succeeding: lines 94, 96, 100
    and 101. *)
Definition sched_handshake : list action :=
  solo (Worker 0) [ROk; ROk; ROk; ROk].

(** Lines 106, 107, 134, 135 and 115: the worker then stands at [recv]. *)
Definition sched_subscribe : list action :=
  solo (Worker 0) [ROk; ROk; ROk; ROk; ROk].

(** Worker 0 started, at the top of its loop. *)
Definition w_started (cfg : Config) : world :=
  {| config := cfg; ws := None; thread := Some 0; connected := false;
     should_run := true; request_id := 0; workers := [W_top];
     callers := [Returned]; next_sock := 0; trace := [] |}.

(** Worker 0 is about to open a socket. *)
Definition w_opening (cfg : Config) : world :=
  {| config := cfg; ws := None; thread := Some 0; connected := false;
     should_run := true; request_id := 0; workers := [W_open];
     callers := [Returned]; next_sock := 0; trace := [] |}.

(** Worker 0 has done the handshake and is about to set [connected]. *)
Definition w_handshaken : world :=
  {| config := DEFAULT_CONFIG; ws := Some 0; thread := Some 0;
     connected := false; should_run := true; request_id := 0;
     workers := [W_setconn]; callers := [Returned]; next_sock := 1;
     trace := [(Worker 0, EOpen "ws://localhost:4455" (Some 0));
               (Worker 0, EWrite 0 Frames.identify true)] |}.

(** Worker 0 is connected and blocked in [recv]. *)
Definition w_receiving : world :=
  {| config := DEFAULT_CONFIG; ws := Some 0; thread := Some 0;
     connected := true; should_run := true; request_id := 1;
     workers := [W_recv]; callers := [Returned]; next_sock := 1;
     trace := [(Worker 0, EOpen "ws://localhost:4455" (Some 0));
               (Worker 0, EWrite 0 Frames.identify true);
               (Worker 0, EStatus "Connected");
               (Worker 0, EWrite 0 (Frames.subscribe 1 Frames.subscribed_events)
                                 true)] |}.

(** The same, and a button of the overlay has just been pressed. *)
Definition w_button : world :=
  {| config := DEFAULT_CONFIG; ws := Some 0; thread := Some 0;
     connected := true; should_run := true; request_id := 1;
     workers := [W_recv]; callers := [Returned; S_check "ToggleRecord"];
     next_sock := 1; trace := trace w_receiving |}.



(** [stop()] is called on the connected object and returns; then a button
    is pressed, and the write on the closed socket fails. *)
Definition sched_stop : list action :=
  sched_connect ++ sched_handshake ++ sched_subscribe
  ++ [Call MStop] ++ solo (Caller 1) [ROk; ROk; ROk].

Definition sched_send_after_stop : list action :=
  [Call (MSend "ToggleRecord")] ++ solo (Caller 2) [ROk; RRaise; ROk; ROk].

(** The settings are applied twice ([apply_settings], line 342, starts a
    thread that calls [connect] each time) while worker 0 runs: both calls
    pass line 88, clear the flag and wait in [join]; the worker ends; both
    calls set the flag, create a thread and start it. *)
Definition sched_two_connects : list action :=
  sched_connect
  ++ [Call MConnect; Call MConnect]
  ++ solo (Caller 1) [ROk; ROk; ROk] ++ solo (Caller 2) [ROk; ROk; ROk]
  ++ solo (Worker 0) [ROk]
  ++ solo (Caller 1) [ROk; ROk; ROk; ROk]
  ++ solo (Caller 2) [ROk; ROk; ROk; ROk].

(** A frame whose [d] is not a mapping, as text and decoded. *)
Definition quote : string := String (ascii_of_nat 34) EmptyString.

Definition null_event_text : string :=
  ("{" ++ quote ++ "op" ++ quote ++ ": 5, "
       ++ quote ++ "d" ++ quote ++ ": null}")%string.

Definition null_event : json := JObj [("op", JInt 5); ("d", JNull)].

(** The frame of the round-trip example. *)
Definition record_event : json :=
  JObj [("op", JInt 5);
        ("d", JObj [("eventType", JStr "RecordStateChanged");
                    ("eventData", JObj [("outputActive", JBool true)])])].

(** The activations of [connect] that are in progress. *)
Definition connect_phase (w : world) : list cpc :=
  List.filter in_connect (callers w).

(** No activation of [connect] is in progress. *)
Definition connect_idle (w : world) : bool :=
  match connect_phase w with [] => true | _ => false end.

(** The calls of [connect] of a schedule do not overlap: each is made when
    the previous one has returned. *)
Fixpoint serial (sched : list action) (w : world) : bool :=
  match sched with
  | [] => true
  | a :: rest =>
      match a with Call MConnect => connect_idle w | _ => true end
      && match step a w with
         | Some w' => serial rest w'
         | None => true
         end
  end.

(** The three status strings of the object. *)
Definition status_of_worker (status : string) : Prop :=
  status = "Connected" \/ status = "Reconnecting...".

Definition status_of_send (status : string) : Prop := status = "Disconnected".

(** ** The invariant behind the single loop *)

(** Every thread was started, and a thread that is alive is the one the
    object holds. *)
Definition quiescent (w : world) : Prop :=
  forall t q, workers w !! t = Some q ->
    q <> W_unstarted /\ (is_alive q = true -> thread w = Some t).

Definition all_dead (w : world) : Prop :=
  forall t q, workers w !! t = Some q -> q = W_done.

(** What holds while the one call of [connect] stands at [p]. *)
Definition phase_inv (p : cpc) (w : world) : Prop :=
  match p with
  | C_check | C_clear | C_join => quiescent w
  | C_joining t => quiescent w /\ thread w = Some t
  | C_set | C_create => all_dead w
  | C_start =>
      exists t, thread w = Some t /\ workers w !! t = Some W_unstarted /\
        forall t' q, workers w !! t' = Some q -> t' <> t -> q = W_done
  | _ => False
  end.

Definition single_loop_inv (w : world) : Prop :=
  match connect_phase w with
  | [] => quiescent w
  | [p] => phase_inv p w
  | _ => False
  end.

(** The settings are applied once while worker 0 is connected: the call of
    [connect] passes line 88, clears the flag and waits in [join]; [recv]
    returns an empty message, the worker leaves both loops and ends; the
    call then sets the flag, creates the new thread and starts it. *)
Definition sched_reconnect : list action :=
  sched_connect ++ sched_handshake ++ sched_subscribe
  ++ [Call MConnect] ++ solo (Caller 1) [ROk; ROk; ROk]
  ++ solo (Worker 0) [RMsg EmptyString; ROk; ROk]
  ++ solo (Caller 1) [ROk; ROk; ROk; ROk].

(** [recv] raises on the connected worker, and the status callback raises
    inside the handler: lines 116, 125 and 126. *)
Definition sched_handler_raises : list action :=
  sched_connect ++ sched_handshake ++ sched_subscribe
  ++ solo (Worker 0) [RRaise; ROk; RRaise].

(** A button is pressed on the connected object, the write fails and the
    status callback raises inside the handler of [send]: lines 147, 149, 153
    and 154. *)
Definition sched_send_handler_raises : list action :=
  sched_connect ++ sched_handshake ++ sched_subscribe
  ++ [Call (MSend "ToggleRecord")]
  ++ solo (Caller 1) [ROk; RRaise; ROk; RRaise].

(** * More about the worker loop *)

(** How many statements a worker at [p] can still execute at most once the
    run flag is cleared and stays so. *)
Definition remaining (p : wpc) : nat :=
  match p with
  | W_unstarted | W_done => 0
  | W_top => 1
  | W_exc_sleep | W_inner => 2
  | W_exc_status | W_sub_print => 3
  | W_exc_flag | W_sub_send => 4
  | W_sub_incr | W_callback _ _ => 5
  | W_status | W_route _ => 6
  | W_setconn | W_loads _ => 7
  | W_auth | W_recv => 8
  | W_pw => 9
  | W_identify => 10
  | W_open => 11
  end.

(** What the environment decides for one statement of a worker: whether the
    call fails, and what [recv] and [json.loads] deliver when they do not. *)
Record answer : Type := {
  fails : bool;
  received : string;
  decoded : json
}.

Definition respond (o : answer) (p : wpc) : reply :=
  if fails o then RRaise
  else match p with
       | W_recv => RMsg (received o)
       | W_loads _ => RJson (decoded o)
       | _ => ROk
       end.

(** Worker [t] runs alone, one statement per answer, until it is dead or
    the answers are used up; the number of statements executed comes with
    the world reached.  A call that gets no answer does not return: a worker
    in [recv] on a socket that neither delivers nor fails stays there. *)
Fixpoint drive (os : list answer) (t : tid) (w : world)
    : option (world * nat) :=
  match os with
  | [] => Some (w, 0)
  | o :: os' =>
      match workers w !! t with
      | Some p =>
          if is_alive p then
            match step (Step (Worker t) (respond o p)) w with
            | Some w' =>
                match drive os' t w' with
                | Some (w'', n) => Some (w'', S n)
                | None => None
                end
            | None => None
            end
          else Some (w, 0)
      | None => None
      end
  end.

(** What [recv] and [json.loads] deliver for one pass of the receive loop
    that ends without exception. *)
Inductive inbound : Type :=
| InEmpty                                      (* an empty message *)
| InOther (message : string) (m : list (string * json))
                                               (* a mapping that is no event *)
| InEvent (message : string) (m d : list (string * json)).
                                               (* an event with mapping [d] *)

(** The [if] of line 120 on a decoded mapping. *)
Definition is_event (m : list (string * json)) : bool :=
  match get "op" m with Some v => eq_int v 5 | None => false end
  && contains "d" m.

Definition inbound_ok (i : inbound) : Prop :=
  match i with
  | InEmpty => True
  | InOther message m => message <> EmptyString /\ is_event m = false
  | InEvent message m d =>
      message <> EmptyString /\ is_event m = true /\ get "d" m = Some (JObj d)
  end.

(** The answers of the environment during that pass, from the loop test of
    line 115 on. *)
Definition inbound_replies (i : inbound) : list reply :=
  match i with
  | InEmpty => [ROk; RMsg EmptyString]
  | InOther message m => [ROk; RMsg message; RJson (JObj m); ROk]
  | InEvent message m _ => [ROk; RMsg message; RJson (JObj m); ROk; ROk]
  end.

(** What the pass is expected to log. *)
Definition inbound_log (t : tid) (s : sock) (i : inbound)
    : list (actor * event) :=
  match i with
  | InEmpty => [(Worker t, ERecv s (Some EmptyString))]
  | InOther message _ => [(Worker t, ERecv s (Some message))]
  | InEvent message _ d =>
      [(Worker t, ERecv s (Some message));
       (Worker t, EEvent (get_default "eventType" (JStr EmptyString) d)
                         (get_default "eventData" (JObj []) d))]
  end.

(** The answers during a handshake in which every call succeeds: lines 96,
    100, 101 and, with a password, 102. *)
Definition handshake_replies (password : string) : list reply :=
  [ROk; ROk; ROk] ++ (if truthy password then [ROk] else []).

Definition handshake_log (t : tid) (cfg : Config) (s : sock)
    : list (actor * event) :=
  [(Worker t, EOpen (url cfg) (Some s));
   (Worker t, EWrite s Frames.identify true)]
  ++ (if truthy (obs_password cfg)
      then [(Worker t, EWrite s (Frames.authenticate (obs_password cfg)) true)]
      else []).

(** The connected object of the example after [stop()] has cleared the run
    flag and closed the socket. *)
Definition w_stopped : world :=
  {| config := DEFAULT_CONFIG; ws := Some 0; thread := Some 0;
     connected := true; should_run := false; request_id := 1;
     workers := [W_recv]; callers := [Returned; Returned]; next_sock := 1;
     trace := trace w_receiving ++ [(Caller 1, EClose 0 true)] |}.

(** [stop()] was called while worker 0 was about to open its socket. *)
Definition w_stopped_opening : world :=
  {| config := DEFAULT_CONFIG; ws := None; thread := Some 0;
     connected := false; should_run := false; request_id := 0;
     workers := [W_open]; callers := [Returned; Returned]; next_sock := 0;
     trace := [] |}.

(** Worker 0 is connected and at the test of the receive loop. *)
Definition w_looping : world :=
  {| config := DEFAULT_CONFIG; ws := Some 0; thread := Some 0;
     connected := true; should_run := true; request_id := 1;
     workers := [W_inner]; callers := [Returned]; next_sock := 1;
     trace := trace w_receiving |}.

(** * The overlay: what it shows of the connection (lines 164-176, 193-197,
      423-427, 465-477) *)

Module Overlay.

(** [bool(v)] for a value decoded from JSON: [None], [False], zero, the
    empty string, list and mapping are false; NaN is true. *)
Definition truth (v : json) : bool :=
  match v with
  | JNull => false
  | JBool b => b
  | JInt z => negb (z =? 0)%Z
  | JFloat (S754_zero _) => false
  | JFloat _ => true
  | JStr s => truthy s
  | JArr l => match l with [] => false | _ => true end
  | JObj m => match m with [] => false | _ => true end
  end.

(** The two fill colours of an indicator (lines 469, 473, 477). *)
Definition on_colour : string := "#4caf50".
Definition off_colour : string := "#d3d3d3".

Definition colour (active : json) : string :=
  if truth active then on_colour else off_colour.

(** The part of an [Overlay] the connection drives: the three flags of lines
    193-195, the fill colour of each [IndicatorButton] of the dictionary
    [obs_indicators] (line 255), and the text of the status label. *)
Record overlay : Type := {
  recording_active : json;
  streaming_active : json;
  replay_active : json;
  obs_indicators : list (string * string);
  status : string
}.

(** A call either returns or raises; the assignments made before the
    exception stay. *)
Inductive outcome : Type :=
| Returns (o : overlay)
| Raises (o : overlay).

Fixpoint lookup_indicator (label : string) (inds : list (string * string))
    : option string :=
  match inds with
  | [] => None
  | (l, c) :: rest =>
      if String.eqb label l then Some c else lookup_indicator label rest
  end.

(** [obs_indicators[label].set_color(c)] (lines 175-176): [None] is the
    [KeyError] of a label that has no indicator. *)
Fixpoint set_color (label c : string) (inds : list (string * string))
    : option (list (string * string)) :=
  match inds with
  | [] => None
  | (l, c0) :: rest =>
      if String.eqb label l then Some ((l, c) :: rest)
      else match set_color label c rest with
           | Some rest' => Some ((l, c0) :: rest')
           | None => None
           end
  end.

Definition set_recording (v : json) (o : overlay) : overlay :=
  {| recording_active := v; streaming_active := streaming_active o;
     replay_active := replay_active o; obs_indicators := obs_indicators o;
     status := status o |}.
Definition set_streaming (v : json) (o : overlay) : overlay :=
  {| recording_active := recording_active o; streaming_active := v;
     replay_active := replay_active o; obs_indicators := obs_indicators o;
     status := status o |}.
Definition set_replay (v : json) (o : overlay) : overlay :=
  {| recording_active := recording_active o;
     streaming_active := streaming_active o;
     replay_active := v; obs_indicators := obs_indicators o;
     status := status o |}.
Definition set_indicators (v : list (string * string)) (o : overlay)
    : overlay :=
  {| recording_active := recording_active o;
     streaming_active := streaming_active o;
     replay_active := replay_active o; obs_indicators := v;
     status := status o |}.
Definition set_status (v : string) (o : overlay) : overlay :=
  {| recording_active := recording_active o;
     streaming_active := streaming_active o;
     replay_active := replay_active o; obs_indicators := obs_indicators o;
     status := v |}.

(** One branch of [handle_obs_event]: [event_data.get("outputActive",
    False)] raises [AttributeError] unless [event_data] is a mapping; then
    the flag is assigned, then the indicator is looked up and coloured. *)
Definition handle_branch (event_data : json)
    (set_flag : json -> overlay -> overlay) (label : string) (o : overlay)
    : outcome :=
  match event_data with
  | JObj m =>
      let active := get_default "outputActive" (JBool false) m in
      let o1 := set_flag active o in
      match set_color label (colour active) (obs_indicators o1) with
      | Some inds => Returns (set_indicators inds o1)
      | None => Raises o1
      end
  | _ => Raises o
  end.

(** [event_type == "..."]: a value that is no string differs from every
    string. *)
Definition is_str (v : json) (s : string) : bool :=
  match v with JStr s' => String.eqb s' s | _ => false end.

(** [handle_obs_event] (lines 465-477). *)
Definition handle_obs_event (event_type event_data : json) (o : overlay)
    : outcome :=
  if is_str event_type "RecordStateChanged"
  then handle_branch event_data set_recording "Record" o
  else if is_str event_type "StreamStateChanged"
  then handle_branch event_data set_streaming "Stream" o
  else if is_str event_type "ReplayBufferStateChanged"
  then handle_branch event_data set_replay "Replay" o
  else Returns o.

(** [update_status] (lines 423-424). *)
Definition update_status (s : string) (o : overlay) : overlay :=
  set_status ("OBS: " ++ s)%string o.

(** The overlay when [setup_ui] has returned: the flags of lines 193-195,
    an indicator for each of the three labels of line 251, filled as line
    172 does, and the label of line 223. *)
Definition initial : overlay :=
  {| recording_active := JBool false; streaming_active := JBool false;
     replay_active := JBool false;
     obs_indicators := [("Record", off_colour); ("Stream", off_colour);
                        ("Replay", off_colour)];
     status := "Connecting..." |}.

(** Every indicator shows its flag. *)
Definition consistent (o : overlay) : Prop :=
  lookup_indicator "Record" (obs_indicators o)
    = Some (colour (recording_active o)) /\
  lookup_indicator "Stream" (obs_indicators o)
    = Some (colour (streaming_active o)) /\
  lookup_indicator "Replay" (obs_indicators o)
    = Some (colour (replay_active o)).

(** The three event types the overlay knows, with a payload that is no
    mapping: the calls that raise. *)
Definition bad_payload (event_type event_data : json) : bool :=
  (is_str event_type "RecordStateChanged"
   || is_str event_type "StreamStateChanged"
   || is_str event_type "ReplayBufferStateChanged")
  && match event_data with JObj _ => false | _ => true end.

(** The calls of the two callbacks in a log of the connection, replayed on
    the overlay; a call of [handle_obs_event] that raises leaves what it had
    assigned. *)
Definition replay_entry (o : overlay) (x : actor * event) : overlay :=
  match snd x with
  | EStatus s => update_status s o
  | EEvent event_type event_data =>
      match handle_obs_event event_type event_data o with
      | Returns o' => o'
      | Raises o' => o'
      end
  | _ => o
  end.

Definition replay (tr : list (actor * event)) (o : overlay) : overlay :=
  fold_left replay_entry tr o.

(** What a decoded frame does to the overlay: the router of [run], then
    [handle_obs_event]. *)
Definition deliver (data : json) (o : overlay) : outcome :=
  match route data with
  | RouteEvent event_type event_data =>
      handle_obs_event event_type event_data o
  | RouteIgnore => Returns o
  | RouteRaise => Raises o
  end.

End Overlay.

(** The event types of [handle_obs_event] with the label of their
    indicator, and the flag that goes with a label. *)
Definition known_events : list (string * string) :=
  [("RecordStateChanged", "Record"); ("StreamStateChanged", "Stream");
   ("ReplayBufferStateChanged", "Replay")].

Definition flag (label : string) (o : Overlay.overlay) : option json :=
  if String.eqb label "Record" then Some (Overlay.recording_active o)
  else if String.eqb label "Stream" then Some (Overlay.streaming_active o)
  else if String.eqb label "Replay" then Some (Overlay.replay_active o)
  else None.

(** The four texts of the status label. *)
Definition status_texts : list string :=
  ["Connecting..."; "OBS: Connected"; "OBS: Reconnecting...";
   "OBS: Disconnected"].

(** * The hotkey of the overlay (lines 351-421) *)

Module Hotkey.

(** [key_map] of lines 399-408. *)
Definition key_map : list (string * string) :=
  [("shift_l", "shift"); ("shift_r", "shift");
   ("ctrl_l", "ctrl"); ("ctrl_r", "ctrl");
   ("alt_l", "alt"); ("alt_r", "alt");
   ("cmd", "windows"); ("win", "windows")].

(** [d.get(k, default)] on a dictionary of strings. *)
Fixpoint dict_get (k : string) (d : list (string * string))
    (default : string) : string :=
  match d with
  | [] => default
  | (k', v) :: rest => if String.eqb k k' then v else dict_get k rest default
  end.

(** A Python set of strings is kept as the list of its elements, each once;
    a loop over the set visits them in the order of the list, which the
    language leaves open. *)
Definition set_add (x : string) (s : list string) : list string :=
  if existsb (String.eqb x) s then s else s ++ [x].

(** [set(l)]. *)
Definition set_of (l : list string) : list string :=
  fold_left (fun acc x => set_add x acc) l [].

(** The order of [sorted] on strings: by code points, which on the bytes of
    UTF-8 text is the order of [String.compare]. *)
Definition str_le (a b : string) : Prop := String.leb a b = true.
Definition str_lt (a b : string) : Prop := String.ltb a b = true.

#[global] Instance str_le_dec (a b : string) : Decision (str_le a b).
Proof. unfold str_le. apply _. Defined.

(** [sorted(s)]. *)
Definition sorted (l : list string) : list string := merge_sort str_le l.

(** [s.split(sep)] for a separator of one character. *)
Fixpoint split (sep : ascii) (s : string) : list string :=
  match s with
  | EmptyString => [EmptyString]
  | String c s' =>
      if Ascii.eqb c sep then EmptyString :: split sep s'
      else match split sep s' with
           | x :: rest => String c x :: rest
           | [] => [String c EmptyString]
           end
  end.

(** [c in s]. *)
Fixpoint has_char (c : ascii) (s : string) : bool :=
  match s with
  | EmptyString => false
  | String c' s' => Ascii.eqb c' c || has_char c s'
  end.

Definition plus : ascii := "+"%char.

Section Lower.

(** [str.lower] of the Python library. *)
Variable lower : string -> string.

(** The name a key is registered under (lines 411-412). *)
Definition key_name (k : string) : string :=
  dict_get (lower k) key_map (lower k).

(** The set [normalized] of lines 409-412. *)
Definition normalized (keys : list string) : list string :=
  fold_left (fun acc k => set_add (key_name k) acc) keys [].

(** [normalize_hotkey_keys] (lines 398-413). *)
Definition normalize_hotkey_keys (keys : list string) : string :=
  String.concat "+" (sorted (normalized keys)).

(** [parse_hotkey_to_set] (lines 395-396). *)
Definition parse_hotkey_to_set (hotkey_str : string) : list string :=
  set_of (split plus (lower hotkey_str)).

(** ** Capturing a new hotkey (lines 351-393, 415-421) *)

(** The fields and widgets the capture works on, with what it does to its
    collaborators: [config["hotkey"]], the hotkey in the saved file ([None]
    once a [save_config] has failed: the file is then in no known state),
    how often [capture_hotkey_event] is hooked into the [keyboard] library,
    and the global hotkeys registered there. *)
Record capture : Type := {
  listening_for_hotkey : bool;
  new_hotkey_keys : list string;
  hotkey_button : string;
  done_cancel_shown : bool;
  hooks : nat;
  hotkey : string;
  saved_hotkey : option string;
  current_hotkey_keys : list string;
  registered : list string
}.

Inductive result : Type :=
| Returns (s : capture)
| Raises (s : capture).

(** [start_hotkey_capture] (lines 351-361). *)
Definition start_hotkey_capture (s : capture) : capture :=
  if listening_for_hotkey s then s
  else {| listening_for_hotkey := true; new_hotkey_keys := [];
          hotkey_button := "Press keys..."; done_cancel_shown := true;
          hooks := S (hooks s); hotkey := hotkey s;
          saved_hotkey := saved_hotkey s;
          current_hotkey_keys := current_hotkey_keys s;
          registered := registered s |}.

(** [capture_hotkey_event] (lines 363-368) for an event of the given type
    and key name. *)
Definition capture_hotkey_event (event_type name : string) (s : capture)
    : capture :=
  if String.eqb event_type "down"
  then let keys := set_add name (new_hotkey_keys s) in
       {| listening_for_hotkey := listening_for_hotkey s;
          new_hotkey_keys := keys;
          hotkey_button := normalize_hotkey_keys keys;
          done_cancel_shown := done_cancel_shown s;
          hooks := hooks s; hotkey := hotkey s;
          saved_hotkey := saved_hotkey s;
          current_hotkey_keys := current_hotkey_keys s;
          registered := registered s |}
  else s.

(** [stop_hotkey_capture] (lines 383-387): [keyboard.unhook] raises
    [KeyError] for a callback that is not hooked. *)
Definition stop_hotkey_capture (s : capture) : result :=
  let s' hooks' :=
    {| listening_for_hotkey := false; new_hotkey_keys := [];
       hotkey_button := hotkey_button s; done_cancel_shown := false;
       hooks := hooks'; hotkey := hotkey s; saved_hotkey := saved_hotkey s;
       current_hotkey_keys := current_hotkey_keys s;
       registered := registered s |} in
  match hooks s with
  | O => Raises (s' O)
  | S n => Returns (s' n)
  end.

Definition set_button (text : string) (s : capture) : capture :=
  {| listening_for_hotkey := listening_for_hotkey s;
     new_hotkey_keys := new_hotkey_keys s;
     hotkey_button := text; done_cancel_shown := done_cancel_shown s;
     hooks := hooks s; hotkey := hotkey s; saved_hotkey := saved_hotkey s;
     current_hotkey_keys := current_hotkey_keys s;
     registered := registered s |}.

(** [cancel_hotkey_capture] (lines 379-381). *)
Definition cancel_hotkey_capture (s : capture) : result :=
  stop_hotkey_capture (set_button (hotkey s) s).

(** What the environment answers to [save_config] and to the two calls of
    [register_global_hotkey]. *)
Record answers : Type := {
  save_ok : bool;          (* save_config() returned *)
  unhook_all_ok : bool;    (* keyboard.unhook_all_hotkeys() returned *)
  add_ok : bool            (* keyboard.add_hotkey(...) returned *)
}.

(** [register_global_hotkey] (lines 415-421): both calls are in one [try],
    whose handler prints. *)
Definition register_global_hotkey (a : answers) (hotkey_str : string)
    (reg : list string) : list string :=
  if unhook_all_ok a
  then if add_ok a then [hotkey_str] else []
  else reg.

(** [on_hotkey_change] (lines 389-393): an exception of [save_config]
    leaves the call after line 390. *)
Definition on_hotkey_change (a : answers) (new_hotkey : string)
    (s : capture) : result :=
  let s1 saved current reg :=
    {| listening_for_hotkey := listening_for_hotkey s;
       new_hotkey_keys := new_hotkey_keys s;
       hotkey_button := hotkey_button s;
       done_cancel_shown := done_cancel_shown s;
       hooks := hooks s; hotkey := new_hotkey; saved_hotkey := saved;
       current_hotkey_keys := current; registered := reg |} in
  if save_ok a
  then Returns (s1 (Some new_hotkey) (parse_hotkey_to_set new_hotkey)
                   (register_global_hotkey a new_hotkey (registered s)))
  else Raises (s1 None (current_hotkey_keys s) (registered s)).

(** [finish_hotkey_capture] (lines 370-377). *)
Definition finish_hotkey_capture (a : answers) (s : capture) : result :=
  match new_hotkey_keys s with
  | [] => cancel_hotkey_capture s
  | _ =>
      let hotkey_str := normalize_hotkey_keys (new_hotkey_keys s) in
      match on_hotkey_change a hotkey_str s with
      | Returns s1 => stop_hotkey_capture (set_button hotkey_str s1)
      | Raises s1 => Raises s1
      end
  end.

(** What the user and the keyboard can do: the hotkey button is always
    there; Done and Cancel are there while their frame is shown; a key event
    arrives while the callback is hooked. *)
Inductive input : Type :=
| Press_button
| Key (event_type name : string)
| Done (a : answers)
| Cancel.

Definition state_of (r : result) : capture :=
  match r with Returns s => s | Raises s => s end.

Definition react (i : input) (s : capture) : result :=
  match i with
  | Press_button => Returns (start_hotkey_capture s)
  | Key event_type name =>
      match hooks s with
      | O => Returns s
      | S _ => Returns (capture_hotkey_event event_type name s)
      end
  | Done a =>
      if done_cancel_shown s then finish_hotkey_capture a s else Returns s
  | Cancel =>
      if done_cancel_shown s then cancel_hotkey_capture s else Returns s
  end.

(** The inputs one after the other; an exception ends the handling of one
    input, not the application. *)
Definition run (inputs : list input) (s : capture) : capture :=
  fold_left (fun s i => state_of (react i s)) inputs s.

(** The capture when [__init__] has returned, for the configured hotkey
    (lines 199-201, 291) and what line 208 registered. *)
Definition initial (configured : string) (reg : list string) : capture :=
  {| listening_for_hotkey := false; new_hotkey_keys := [];
     hotkey_button := configured; done_cancel_shown := false; hooks := 0;
     hotkey := configured; saved_hotkey := Some configured;
     current_hotkey_keys := parse_hotkey_to_set configured;
     registered := reg |}.

(** The hook is there exactly while a capture is going on, and so are Done
    and Cancel; outside a capture no key is held back. *)
Definition hooked_while_listening (s : capture) : Prop :=
  hooks s = (if listening_for_hotkey s then 1 else 0) /\
  done_cancel_shown s = listening_for_hotkey s /\
  (listening_for_hotkey s = false -> new_hotkey_keys s = []) /\
  List.length (registered s) <= 1.

(** An input is handled without [KeyError]: if the handling raises, it is
    [save_config] that raised. *)
Definition no_key_error (i : input) (s : capture) : Prop :=
  match react i s with
  | Returns _ => True
  | Raises _ => exists a, i = Done a /\ save_ok a = false
  end.

End Lower.

(** [str.lower] on ASCII text. *)
Definition ascii_lower_char (c : ascii) : ascii :=
  let n := nat_of_ascii c in
  if (65 <=? n)%nat && (n <=? 90)%nat then ascii_of_nat (n + 32) else c.

Fixpoint ascii_lower (s : string) : string :=
  match s with
  | EmptyString => EmptyString
  | String c s' => String (ascii_lower_char c) (ascii_lower s')
  end.

End Hotkey.

(** * The overlay window: volume, click-through style, settings form, media title *)

(** ** Python numbers and the built-ins [min] and [max] *)

Module Pynum.

(** A number as the code meets it: an [int], or a [float] (binary64, kept as
    sign, mantissa and exponent). *)
Inductive number : Type :=
| Int (z : Z)
| Float (f : spec_float).

(** The exact value of a number: not a number, an infinity, or [v * 2^e]. *)
Inductive value : Type :=
| NaN
| NegInf
| PosInf
| Dyadic (v e : Z).

Definition value_of (n : number) : value :=
  match n with
  | Int z => Dyadic z 0
  | Float (S754_zero _) => Dyadic 0 0
  | Float (S754_infinity s) => if s then NegInf else PosInf
  | Float S754_nan => NaN
  | Float (S754_finite s m e) => Dyadic (if s then Z.neg m else Z.pos m) e
  end.

Definition dyadic_lt (v1 e1 v2 e2 : Z) : bool :=
  let e := Z.min e1 e2 in
  (v1 * 2 ^ (e1 - e) <? v2 * 2 ^ (e2 - e))%Z.

(** [a < b]: exact, also between an [int] and a [float], and false as soon as
    one side is not a number. *)
Definition lt (a b : number) : bool :=
  match value_of a, value_of b with
  | NaN, _ | _, NaN => false
  | _, NegInf => false
  | NegInf, _ => true
  | PosInf, _ => false
  | _, PosInf => true
  | Dyadic v1 e1, Dyadic v2 e2 => dyadic_lt v1 e1 v2 e2
  end.

(** [min(a, b)] and [max(a, b)]: the first argument is kept unless the
    second is strictly smaller (strictly greater). *)
Definition min2 (a b : number) : number := if lt b a then b else a.
Definition max2 (a b : number) : number := if lt a b then b else a.

(** Binary64 arithmetic of [float.__add__] and [float.__sub__]. *)
Definition add (x y : spec_float) : spec_float := SFadd 53 1024 x y.
Definition sub (x y : spec_float) : spec_float := SFsub 53 1024 x y.

End Pynum.

(** ** [set_volume] (lines 458-463) and the volume keys of [media_control] *)

Module Volume.
Import Pynum.

(** The level handed to [SetMasterVolumeLevelScalar] (line 459). *)
Definition set_volume (level : number) : number :=
  max2 (Int 0) (min2 (Int 1) level).

(** The literal [0.05] of lines 448 and 450. *)
Definition step_size : spec_float := S754_finite false 7205759403792794 (-57).

(** Lines 447-450: [current] is what [get_volume] returned. *)
Definition volume_key (up : bool) (current : spec_float) : number :=
  set_volume (Float (if up then add current step_size
                     else sub current step_size)).

End Volume.

(** ** [toggle_visibility] and [make_overlay_clickable] (lines 429-434, 479-487) *)

Module Window.
Import Pynum.

(** [win32con.WS_EX_TRANSPARENT]. *)
Definition WS_EX_TRANSPARENT : Z := 32.

(** [self.opacity], line 189: the literal [0.95]. *)
Definition opacity : number :=
  Float (S754_finite false 8556839292003942 (-53)).

(** What the two methods read and write: [self.visible] (its truth value),
    [config["overlay_visible"]], the extended style of the window and its
    alpha attribute. *)
Record overlay_window : Type := {
  visible : bool;
  config_visible : bool;
  exstyle : Z;
  alpha : number
}.

Definition alpha_of (v : bool) : number := if v then opacity else Int 0.

Definition make_overlay_clickable (o : overlay_window) : overlay_window :=
  {| visible := visible o;
     config_visible := config_visible o;
     exstyle := if visible o
                then Z.land (exstyle o) (Z.lnot WS_EX_TRANSPARENT)
                else Z.lor (exstyle o) WS_EX_TRANSPARENT;
     alpha := alpha_of (visible o) |}.

Inductive result : Type :=
| Returns (o : overlay_window)
| Raises (o : overlay_window).

(** [save_ok]: whether [save_config()] of line 432 returned. *)
Definition toggle_visibility (save_ok : bool) (o : overlay_window) : result :=
  let o1 := {| visible := negb (visible o);
               config_visible := negb (visible o);
               exstyle := exstyle o;
               alpha := alpha o |} in
  if save_ok then
    Returns (make_overlay_clickable
               {| visible := visible o1;
                  config_visible := config_visible o1;
                  exstyle := exstyle o1;
                  alpha := alpha_of (visible o1) |})
  else Raises o1.

End Window.

(** ** [apply_settings] (lines 335-349) *)

Definition set_config (v : Config) (w : world) : world :=
  let 'World _ s th c r rid wk cl ns tr := w in
  World v s th c r rid wk cl ns tr.

Module Settings.

(** What the three entry fields give: the host text, [int(port text)]
    ([None] when [int] raises) and the password text. *)
Record form : Type := {
  host_field : string;
  port_field : option Z;
  password_field : string
}.

(** The state the thread [apply] works on: the connector with the global
    [config], the configurations written by [save_config], the number of
    lines printed and the state of the Apply button. *)
Record app : Type := {
  obs : world;
  saved : list Config;
  printed : nat;
  apply_enabled : bool
}.

Definition with_obs (w : world) (a : app) : app :=
  {| obs := w; saved := saved a; printed := printed a;
     apply_enabled := apply_enabled a |}.

(** Line 338. *)
Definition assign_host (f : form) (a : app) : app :=
  with_obs (set_config {| obs_host := host_field f;
                          obs_port := obs_port (config (obs a));
                          obs_password := obs_password (config (obs a)) |}
                       (obs a)) a.

(** Line 339, when [int] returned [p]. *)
Definition assign_port (p : Z) (a : app) : app :=
  with_obs (set_config {| obs_host := obs_host (config (obs a));
                          obs_port := p;
                          obs_password := obs_password (config (obs a)) |}
                       (obs a)) a.

(** Line 340. *)
Definition assign_password (f : form) (a : app) : app :=
  with_obs (set_config {| obs_host := obs_host (config (obs a));
                          obs_port := obs_port (config (obs a));
                          obs_password := password_field f |}
                       (obs a)) a.

(** Line 341, when [save_config] returned. *)
Definition save (a : app) : app :=
  {| obs := obs a; saved := saved a ++ [config (obs a)];
     printed := printed a; apply_enabled := apply_enabled a |}.

(** Line 342: a new thread enters [connect]. *)
Definition start_connect (a : app) : app :=
  with_obs (set_callers (callers (obs a) ++ [entry MConnect]) (obs a)) a.

(** Lines 343-344. *)
Definition handler (a : app) : app :=
  {| obs := obs a; saved := saved a; printed := S (printed a);
     apply_enabled := apply_enabled a |}.

(** Lines 345-346. *)
Definition finally (a : app) : app :=
  {| obs := obs a; saved := saved a; printed := printed a;
     apply_enabled := true |}.

(** Line 348. *)
Definition disable (a : app) : app :=
  {| obs := obs a; saved := saved a; printed := printed a;
     apply_enabled := false |}.

(** The body of [apply]; [save_ok]: whether [save_config] returned. *)
Definition apply (f : form) (save_ok : bool) (a : app) : app :=
  let a1 := assign_host f a in
  match port_field f with
  | None => finally (handler a1)
  | Some p =>
      let a3 := assign_password f (assign_port p a1) in
      if save_ok then finally (start_connect (save a3))
      else finally (handler a3)
  end.

Definition apply_settings (f : form) (save_ok : bool) (a : app) : app :=
  apply f save_ok (disable a).

Definition form_config (f : form) (p : Z) : Config :=
  {| obs_host := host_field f; obs_port := p;
     obs_password := password_field f |}.

End Settings.

(** ** [get_media_title_from_window] (lines 489-532) *)

Module Media.

(** A Python [str]: its code points. *)
Definition text : Type := list N.

Definition text_of (s : string) : text :=
  map N_of_ascii (list_ascii_of_string s).

Definition text_eqb (a b : text) : bool := bool_decide (a = b).

(** *** Regular expressions, as far as line 526 needs them *)

Inductive re : Type :=
| Empty
| Eps
| Class (p : N -> bool)
| Seq (r1 r2 : re)
| Alt (r1 r2 : re)
| Star (r : re).

Definition Plus (r : re) : re := Seq r (Star r).

Fixpoint nullable (r : re) : bool :=
  match r with
  | Empty => false
  | Eps => true
  | Class _ => false
  | Seq r1 r2 => nullable r1 && nullable r2
  | Alt r1 r2 => nullable r1 || nullable r2
  | Star _ => true
  end.

Fixpoint deriv (c : N) (r : re) : re :=
  match r with
  | Empty => Empty
  | Eps => Empty
  | Class p => if p c then Eps else Empty
  | Seq r1 r2 =>
      if nullable r1 then Alt (Seq (deriv c r1) r2) (deriv c r2)
      else Seq (deriv c r1) r2
  | Alt r1 r2 => Alt (deriv c r1) (deriv c r2)
  | Star r1 => Seq (deriv c r1) (Star r1)
  end.

(** [re.match]: some prefix of the text matches. *)
Fixpoint re_match (r : re) (t : text) : bool :=
  nullable r ||
  match t with
  | [] => false
  | c :: t' => re_match (deriv c r) t'
  end.

(** The words matched by an expression. *)
Inductive lang : re -> text -> Prop :=
| lang_eps : lang Eps []
| lang_class p c : p c = true -> lang (Class p) [c]
| lang_seq r1 r2 s1 s2 : lang r1 s1 -> lang r2 s2 -> lang (Seq r1 r2) (s1 ++ s2)
| lang_alt_l r1 r2 s : lang r1 s -> lang (Alt r1 r2) s
| lang_alt_r r1 r2 s : lang r2 s -> lang (Alt r1 r2) s
| lang_star_nil r : lang (Star r) []
| lang_star_cons r s1 s2 : lang r s1 -> lang (Star r) s2 -> lang (Star r) (s1 ++ s2).

(** [\s] on a [str]: the white space of Unicode. *)
Definition is_space (c : N) : bool :=
  ((9 <=? c) && (c <=? 13) || (28 <=? c) && (c <=? 32)
   || (c =? 133) || (c =? 160) || (c =? 5760)
   || (8192 <=? c) && (c <=? 8202)
   || (c =? 8232) || (c =? 8233) || (c =? 8239) || (c =? 8287)
   || (c =? 12288))%N.

(** [.] without [re.DOTALL]: anything but a line feed. *)
Definition is_dot (c : N) : bool := negb (c =? 10)%N.

Definition is_hyphen (c : N) : bool := (c =? 45)%N.

(** The pattern [.+\s-\s.+] of line 526. *)
Definition title_pattern : re :=
  Seq (Plus (Class is_dot))
      (Seq (Class is_space)
           (Seq (Class is_hyphen)
                (Seq (Class is_space) (Plus (Class is_dot))))).

(** *** The windows of the desktop *)

(** What [enum_handler] learns about one window: [IsWindowVisible], the two
    results of [GetWindowText] (lines 503 and 514), and the lower-cased base
    name of the executable computed by lines 506-509 ([None] when one of
    these calls raised). *)
Record window : Type := {
  is_visible : bool;
  text_first : text;
  exe : option text;
  text_second : text
}.

Definition browsers : list text :=
  [text_of "chrome.exe"; text_of "firefox.exe"; text_of "msedge.exe"].

Definition media_processes : list text :=
  [text_of "spotify.exe"; text_of "vlc.exe"; text_of "wmplayer.exe";
   text_of "itunes.exe"; text_of "chrome.exe"; text_of "firefox.exe";
   text_of "msedge.exe"].

Definition mem (x : text) (l : list text) : bool := existsb (text_eqb x) l.

Fixpoint is_prefix (p t : text) : bool :=
  match p, t with
  | [], _ => true
  | _ :: _, [] => false
  | a :: p', b :: t' => (a =? b)%N && is_prefix p' t'
  end.

(** [p in t] for two strings. *)
Fixpoint substring (p t : text) : bool :=
  is_prefix p t ||
  match t with
  | [] => false
  | _ :: t' => substring p t'
  end.

Definition no_media : text := text_of "No media playing".

Section Lower.

(** [str.lower]. *)
Variable lower : text -> text.

(** Lines 502-519. *)
Definition enum_handler (w : window) (results : list text) : list text :=
  if is_visible w && negb (text_eqb (text_first w) []) then
    let exe_name := match exe w with Some n => n | None => [] end in
    if mem exe_name media_processes then
      let title := text_second w in
      if mem exe_name browsers then
        if substring (text_of "youtube") (lower title)
        then results ++ [title] else results
      else results ++ [title]
    else results
  else results.

(** [EnumWindows] calls the handler on each window in turn. *)
Definition EnumWindows (ws : list window) (results : list text) : list text :=
  fold_left (fun acc w => enum_handler w acc) ws results.

(** Lines 523-527: the first title that passes both tests. *)
Fixpoint first_match (titles : list text) : option text :=
  match titles with
  | [] => None
  | t :: rest =>
      if (List.length t <? 5)%nat then first_match rest
      else if re_match title_pattern t then Some t
      else first_match rest
  end.

Definition get_media_title_from_window (ws : list window) : text :=
  let titles := EnumWindows ws [] in
  match first_match titles with
  | Some t => t
  | None =>
      match titles with
      | t :: _ => t
      | [] => no_media
      end
  end.

(** A window whose title [enum_handler] collects. *)
Definition collected (w : window) : bool :=
  is_visible w && negb (text_eqb (text_first w) []) &&
  match exe w with
  | Some n =>
      mem n media_processes &&
      (negb (mem n browsers) || substring (text_of "youtube") (lower (text_second w)))
  | None => false
  end.

End Lower.

(** ASCII lower-casing, for examples. *)
Definition ascii_lower (t : text) : text :=
  map (fun c => if (65 <=? c)%N && (c <=? 90)%N then (c + 32)%N else c) t.

End Media.

(** * Basic facts about steps *)

Section Lookup.

Lemma step_worker (w : world) (t : tid) (p : wpc) (r : reply) :
  workers w !! t = Some p ->
  step (Step (Worker t) r) w = worker_step t p r w.
Proof. intros H. simpl. rewrite H. reflexivity. Qed.

Lemma step_caller (w : world) (c : cid) (p : cpc) (r : reply) :
  callers w !! c = Some p ->
  step (Step (Caller c) r) w = caller_step c p r w.
Proof. intros H. simpl. rewrite H. reflexivity. Qed.

Lemma exec_worker (w : world) (t : tid) (p : wpc) (r : reply)
    (rest : list action) :
  workers w !! t = Some p ->
  exec (Step (Worker t) r :: rest) w =
  match worker_step t p r w with
  | Some w' => exec rest w'
  | None => None
  end.
Proof. intros H. cbn [exec]. rewrite (step_worker _ _ _ _ H). reflexivity. Qed.

Lemma exec_caller (w : world) (c : cid) (p : cpc) (r : reply)
    (rest : list action) :
  callers w !! c = Some p ->
  exec (Step (Caller c) r :: rest) w =
  match caller_step c p r w with
  | Some w' => exec rest w'
  | None => None
  end.
Proof. intros H. cbn [exec]. rewrite (step_caller _ _ _ _ H). reflexivity. Qed.

Lemma at_goto_w (w : world) (t : tid) (p : wpc) :
  t < List.length (workers w) -> workers (goto_w t p w) !! t = Some p.
Proof. destruct w. intros H. simpl. apply list_lookup_insert_eq. exact H. Qed.

Lemma at_goto_c (w : world) (c : cid) (p : cpc) :
  c < List.length (callers w) -> callers (goto_c c p w) !! c = Some p.
Proof. destruct w. intros H. simpl. apply list_lookup_insert_eq. exact H. Qed.

Lemma exec_app (s1 s2 : list action) (w : world) :
  exec (s1 ++ s2) w =
  match exec s1 w with Some w' => exec s2 w' | None => None end.
Proof.
  revert w. induction s1 as [|a s1 IH]; intros w; simpl; [reflexivity|].
  destruct (step a w); [apply IH | reflexivity].
Qed.

End Lookup.

(** The bound that keeps a thread's slot in range, through any number of
    updates of the slot. *)
Ltac in_range :=
  cbn; rewrite ?length_insert, ?length_app; cbn;
  first [ eassumption | lia | eapply lookup_lt_Some; eassumption ].

(** Find the statement the thread stands at. *)
Ltac at_pc :=
  first [ eassumption
        | cbn; first [ eassumption | apply list_lookup_insert_eq; in_range ] ].

(** Use what is known of the fields the statement reads. *)
Ltac use_fields :=
  repeat match goal with
         | H : ws ?w = _ |- context [ws ?w] => rewrite H
         | H : should_run ?w = _ |- context [should_run ?w] => rewrite H
         | H : connected ?w = _ |- context [connected ?w] => rewrite H
         | H : truthy ?m = _ |- context [truthy ?m] => rewrite H
         | H : route ?d = _ |- context [route ?d] => rewrite H
         end.

(** Bring a world built by field updates back to its ten fields. *)
Ltac flat_term W :=
  eval cbv beta iota delta
    [goto_w goto_c log set_ws set_thread set_connected set_should_run
     set_request_id set_workers set_callers set_next_sock
     config ws thread connected should_run request_id workers callers
     next_sock trace] in W.

Ltac flatten :=
  repeat match goal with
         | |- context [exec ?rest ?W] =>
             let W' := flat_term W in progress (change W with W')
         | |- context [Some ?W = Some _] =>
             let W' := flat_term W in progress (change W with W')
         end.

(** Execute the next statement of a schedule symbolically; the world is
    given by its fields. *)
Ltac run1 :=
  match goal with
  | |- context [exec (Step (Worker ?t) ?r :: ?rest) ?w] =>
      erewrite (exec_worker w t _ r rest) by at_pc
  | |- context [exec (Step (Caller ?c) ?r :: ?rest) ?w] =>
      erewrite (exec_caller w c _ r rest) by at_pc
  end;
  cbn [worker_step caller_step]; unfold ws_send;
  cbn [config ws thread connected should_run request_id workers callers
       next_sock trace obs_password obs_host obs_port];
  use_fields; cbn [andb]; flatten.

(** The schedule is exhausted. *)
Ltac exec_done :=
  match goal with
  | |- context [exec [] ?w] => change (exec [] w) with (Some w)
  end.

(** Case analysis on the statement executed and on what it reads. *)
Ltac split_step H :=
  unfold ws_send in H; try discriminate H;
  repeat match type of H with
         | context [match ?x with _ => _ end] =>
             let E := fresh "E" in destruct x eqn:E; try discriminate H
         end;
  try (injection H as H; subst).

(** What a statement of a worker can change. *)
Lemma worker_step_frame (t : tid) (p : wpc) (r : reply) (w w' : world) :
  worker_step t p r w = Some w' ->
  callers w' = callers w /\ thread w' = thread w /\ config w' = config w /\
  should_run w' = should_run w /\ is_alive p = true /\
  exists p', workers w' = <[t := p']> (workers w) /\ p' <> W_unstarted.
Proof.
  intros H. destruct w.
  destruct p; simpl in H; split_step H; simpl;
    repeat split; eauto; eexists; split; try reflexivity; congruence.
Qed.

(** * The definitions on small inputs *)

Example url_default : url DEFAULT_CONFIG = "ws://localhost:4455".
Proof. reflexivity. Qed.

Example subscribe_request_id :
  get "requestId"
      match Frames.subscribe 12 Frames.subscribed_events with
      | JObj [_; (_, JObj d)] => d
      | _ => []
      end = Some (JStr "sub_12").
Proof. reflexivity. Qed.

(** [5.0 == 5] holds in Python, [2.5 == 5] and [True == 5] do not. *)
Example eq_int_float_five :
  eq_int (JFloat (S754_finite false 5629499534213120 (-50))) 5 = true.
Proof. reflexivity. Qed.

Example eq_int_float_half :
  eq_int (JFloat (S754_finite false 5 (-1))) 5 = false.
Proof. reflexivity. Qed.

Example eq_int_bool : eq_int (JBool true) 5 = false.
Proof. reflexivity. Qed.

(** A request response (op 7) is ignored; a frame that is a list raises. *)
Example route_response :
  route (JObj [("op", JInt 7); ("d", JObj [("requestId", JStr "1")])])
  = RouteIgnore.
Proof. reflexivity. Qed.

Example route_list : route (JArr [JInt 5]) = RouteRaise.
Proof. reflexivity. Qed.

(** An event without [eventData] is delivered with the defaults. *)
Example route_defaults :
  route (JObj [("d", JObj []); ("op", JFloat (S754_finite false 5 0))])
  = RouteEvent (JStr EmptyString) (JObj []).
Proof. reflexivity. Qed.

(** * The example worlds are reached from [__init__] *)

Lemma w_started_exec (cfg : Config) :
  exec sched_connect (init cfg) = Some (w_started cfg).
Proof. reflexivity. Qed.

Lemma w_opening_exec (cfg : Config) :
  exec (solo (Worker 0) [ROk]) (w_started cfg) = Some (w_opening cfg).
Proof. reflexivity. Qed.

Lemma w_handshaken_exec :
  exec sched_handshake (w_started DEFAULT_CONFIG) = Some w_handshaken.
Proof. reflexivity. Qed.

Lemma w_receiving_exec : exec sched_subscribe w_handshaken = Some w_receiving.
Proof. reflexivity. Qed.

Lemma w_button_exec :
  exec [Call (MSend "ToggleRecord")] w_receiving = Some w_button.
Proof. reflexivity. Qed.

Lemma reachable_exec (cfg : Config) (w w' : world) (sched : list action) :
  reachable cfg w -> exec sched w = Some w' -> reachable cfg w'.
Proof.
  intros [s0 H0] H. exists (s0 ++ sched). rewrite exec_app, H0. exact H.
Qed.

Lemma w_started_reachable (cfg : Config) : reachable cfg (w_started cfg).
Proof. exists sched_connect. apply w_started_exec. Qed.

Lemma w_opening_reachable (cfg : Config) : reachable cfg (w_opening cfg).
Proof.
  eapply reachable_exec; [apply w_started_reachable | apply w_opening_exec].
Qed.

Lemma w_handshaken_reachable : reachable DEFAULT_CONFIG w_handshaken.
Proof.
  eapply reachable_exec; [apply w_started_reachable | apply w_handshaken_exec].
Qed.

Lemma w_receiving_reachable : reachable DEFAULT_CONFIG w_receiving.
Proof.
  eapply reachable_exec; [apply w_handshaken_reachable | apply w_receiving_exec].
Qed.

Lemma w_button_reachable : reachable DEFAULT_CONFIG w_button.
Proof.
  eapply reachable_exec; [apply w_receiving_reachable | apply w_button_exec].
Qed.

(** * Induction over the worlds reached from [__init__] *)

Lemma exec_invariant (P : world -> Prop) :
  (forall a w w', P w -> step a w = Some w' -> P w') ->
  forall sched w w', P w -> exec sched w = Some w' -> P w'.
Proof.
  intros Hstep. induction sched as [|a sched IH]; intros w w' HP Hexec.
  - injection Hexec as <-. exact HP.
  - cbn [exec] in Hexec. destruct (step a w) as [w1|] eqn:Ha; [|discriminate].
    eapply IH; [|exact Hexec]. eapply Hstep; eauto.
Qed.

Lemma reachable_invariant (cfg : Config) (P : world -> Prop) :
  P (init cfg) ->
  (forall a w w', P w -> step a w = Some w' -> P w') ->
  forall w, reachable cfg w -> P w.
Proof.
  intros Hinit Hstep w [sched Hexec]. eapply exec_invariant; eauto.
Qed.


(** What a statement of [connect], [send] or [stop] does to the worker
    threads: nothing, except that [start()] starts the unstarted thread. *)
Lemma caller_step_workers (c : cid) (p : cpc) (r : reply) (w w' : world) :
  caller_step c p r w = Some w' ->
  forall t q, workers w !! t = Some q ->
    workers w' !! t = Some q \/
    (q = W_unstarted /\ workers w' !! t = Some W_top /\ p = C_start).
Proof.
  intros H t q Hq. destruct w.
  destruct p; simpl in H, Hq; split_step H; simpl; auto.
  - left. rewrite lookup_app_l; [exact Hq | eapply lookup_lt_Some; eauto].
  - match goal with E : _ !! ?x = Some W_unstarted |- _ =>
      destruct (decide (t = x)) as [->|Hne] end.
    + right. split; [congruence|]. split; [|reflexivity].
      apply list_lookup_insert_eq. eapply lookup_lt_Some; eauto.
    + left. rewrite list_lookup_insert_ne by congruence. exact Hq.
Qed.

(** Each statement logs at most one event, and signs it. *)
Lemma worker_step_trace (t : tid) (p : wpc) (r : reply) (w w' : world) :
  worker_step t p r w = Some w' ->
  trace w' = trace w \/ exists e, trace w' = trace w ++ [(Worker t, e)].
Proof.
  intros H. destruct w.
  destruct p; simpl in H; split_step H; simpl; eauto.
Qed.

Lemma caller_step_trace (c : cid) (p : cpc) (r : reply) (w w' : world) :
  caller_step c p r w = Some w' ->
  trace w' = trace w \/ exists e, trace w' = trace w ++ [(Caller c, e)].
Proof.
  intros H. destruct w.
  destruct p; simpl in H; split_step H; simpl; eauto.
Qed.

(** * The worker loop *)

(** A live worker becomes dead in two ways only: by its own loop test with
    the run flag cleared, or by an exception of the status callback inside
    the handler. *)
Lemma done_reached_from (a : action) (w w' : world) (t : tid) (p : wpc) :
  workers w !! t = Some p -> is_alive p = true ->
  step a w = Some w' -> workers w' !! t = Some W_done ->
  exists r, a = Step (Worker t) r /\
    ((p = W_top /\ should_run w = false) \/
     (p = W_exc_status /\ r = RRaise)).
Proof.
  intros Hp Halive Hstep Hdone.
  destruct a as [[t'|c] r|m]; cbn [step] in Hstep.
  - destruct (workers w !! t') as [p'|] eqn:Hp'; [|discriminate].
    destruct (decide (t' = t)) as [->|Hne].
    + rewrite Hp in Hp'. injection Hp' as <-.
      assert (Hlt : t < List.length (workers w)) by (eapply lookup_lt_Some; eauto).
      exists r. split; [reflexivity|].
      destruct w as [cfg ws0 th conn sr rid wk cl ns tr]; cbn in Hp, Hlt.
      destruct p; simpl in Hstep; split_step Hstep; simpl in Hdone;
        rewrite list_lookup_insert_eq in Hdone by exact Hlt;
        try discriminate Hdone; auto.
      all: try (destruct r; try discriminate Hdone; auto).
      all: try match type of Hdone with
               | context [route ?d] => destruct (route d); discriminate Hdone
               | context [truthy ?m] => destruct (truthy m); discriminate Hdone
               | context [andb ?x ?y] => destruct (andb x y); discriminate Hdone
               end.
    + destruct (worker_step_frame _ _ _ _ _ Hstep)
        as (_ & _ & _ & _ & _ & p'' & Hw & _).
      rewrite Hw, list_lookup_insert_ne in Hdone by exact Hne.
      rewrite Hp in Hdone. injection Hdone as ->. discriminate Halive.
  - destruct (callers w !! c) as [q|] eqn:Hq; [|discriminate].
    destruct (caller_step_workers _ _ _ _ _ Hstep _ _ Hp) as [H|(-> & _)].
    + rewrite H in Hdone. injection Hdone as ->. discriminate Halive.
    + discriminate Halive.
  - injection Hstep as <-. destruct w; simpl in Hdone, Hp.
    rewrite Hp in Hdone. injection Hdone as ->. discriminate Halive.
Qed.

Lemma run_flag_cleared_by (a : action) (w w' : world) :
  step a w = Some w' -> should_run w = true -> should_run w' = false ->
  exists c r, a = Step (Caller c) r /\
    (callers w !! c = Some T_clear \/ callers w !! c = Some C_clear).
Proof.
  intros Hstep Ht Hf.
  destruct a as [[t|c] r|m]; cbn [step] in Hstep.
  - destruct (workers w !! t) as [p|] eqn:Hp; [|discriminate].
    destruct (worker_step_frame _ _ _ _ _ Hstep) as (_ & _ & _ & H & _).
    congruence.
  - destruct (callers w !! c) as [q|] eqn:Hq; [|discriminate].
    exists c, r. split; [reflexivity|].
    destruct w as [cfg ws0 th conn sr rid wk cl ns tr]; cbn in Hq, Ht.
    destruct q; simpl in Hstep; split_step Hstep; simpl in Hf;
      solve [congruence | auto].
  - injection Hstep as <-. destruct w; simpl in Hf, Ht. congruence.
Qed.

(** C1, as stated, fails: the loop can end by an error with the run flag
    set.  On the connected worker of the example [recv] raises, the handler
    clears [connected] and calls the status callback with "Reconnecting...";
    when that call raises, nothing catches it: the thread is dead, the run
    flag is still set, and there was neither a sleep nor a retry. *)
Lemma C1_status_callback_raise_ends_loop :
  exists w',
    exec sched_handler_raises (init DEFAULT_CONFIG) = Some w' /\
    workers w' = [W_done] /\
    should_run w' = true /\
    connected w' = false /\
    trace w' = trace w_receiving
      ++ [(Worker 0, ERecv 0 None); (Worker 0, EStatus "Reconnecting...")].
Proof.
  eexists. split; [vm_compute; reflexivity|].
  split; [reflexivity|]. split; [reflexivity|]. split; reflexivity.
Qed.

(** C1, amended.  In the worker loop, an exception raised by the socket
    open, by a handshake send, by the status callback of line 107 or in the
    receive phase (receive, decode, routing, event callback) is caught in
    the loop body: the worker clears [connected] and tells the status
    callback "Reconnecting...".  When that call returns, the worker sleeps 5
    seconds and stands at the top of the loop again, from where, the run flag
    being set, it attempts to open a new socket.  When that call raises, the
    thread is dead with the run flag as it was.  A running loop ends in
    these two ways only: at the loop test with the run flag cleared, or by
    the status callback raising inside the handler; and the flag is cleared
    only by line 157 of [stop] or line 89 of [connect]. *)
Theorem C1_worker_loop_retries (w : world) (t : tid) (p : wpc) :
  workers w !! t = Some p ->
  (forall r, raises p r w = true ->
     (exists w',
        exec (solo (Worker t) [r; ROk; ROk; ROk]) w = Some w' /\
        connected w' = false /\
        trace w' = trace w ++ raised_log t p w
                   ++ [(Worker t, EStatus "Reconnecting...");
                       (Worker t, ESleep 5)] /\
        workers w' !! t = Some W_top /\
        should_run w' = should_run w) /\
     (exists w',
        exec (solo (Worker t) [r; ROk; RRaise]) w = Some w' /\
        connected w' = false /\
        trace w' = trace w ++ raised_log t p w
                   ++ [(Worker t, EStatus "Reconnecting...")] /\
        workers w' !! t = Some W_done /\
        should_run w' = should_run w)) /\
  (p = W_top -> should_run w = true ->
     (exists w',
        exec (solo (Worker t) [ROk; ROk]) w = Some w' /\
        trace w' = trace w
          ++ [(Worker t, EOpen (url (config w)) (Some (next_sock w)))] /\
        ws w' = Some (next_sock w) /\
        workers w' !! t = Some W_identify) /\
     (exists w',
        exec (solo (Worker t) [ROk; RRaise]) w = Some w' /\
        trace w' = trace w ++ [(Worker t, EOpen (url (config w)) None)] /\
        ws w' = ws w /\
        workers w' !! t = Some W_exc_flag)) /\
  (forall a w', is_alive p = true -> step a w = Some w' ->
     workers w' !! t = Some W_done ->
     exists r, a = Step (Worker t) r /\
       ((p = W_top /\ should_run w = false) \/
        (p = W_exc_status /\ r = RRaise))) /\
  (forall a w', step a w = Some w' ->
     should_run w = true -> should_run w' = false ->
     exists c r, a = Step (Caller c) r /\
       (callers w !! c = Some T_clear \/ callers w !! c = Some C_clear)).
Proof.
  intros Hp.
  assert (Hlt : t < List.length (workers w)) by (eapply lookup_lt_Some; eauto).
  split; [|split; [|split]].
  - intros r Hr. unfold solo. cbn [map].
    destruct w as [cfg ws0 th conn sr rid wk cl ns tr]; cbn in Hp, Hlt, Hr.
    destruct p; cbn in Hr; try discriminate Hr;
      try (destruct ws0 as [s|]);
      try (destruct r; try discriminate Hr);
      try (destruct (route data) eqn:Hroute; try discriminate Hr);
      (split;
       [ do 4 run1 | do 3 run1 ]; exec_done; rewrite <- ?app_assoc;
       cbn [app raised_log ws config];
       eexists; (split; [reflexivity|]); (split; [reflexivity|]);
       (split; [reflexivity|]); (split; [at_pc | reflexivity])).
  - intros -> Hrun. unfold solo. cbn [map].
    destruct w as [cfg ws0 th conn sr rid wk cl ns tr]; cbn in Hp, Hlt, Hrun.
    subst sr. split.
    + do 2 run1. exec_done.
      eexists. split; [reflexivity|]. repeat split. at_pc.
    + do 2 run1. exec_done.
      eexists. split; [reflexivity|]. repeat split. at_pc.
  - intros a w' Halive Hstep Hdone. eapply done_reached_from; eauto.
  - intros a w'. apply run_flag_cleared_by.
Qed.

(** C1 on the connected worker of the example: [recv] raises. *)
Lemma C1_worker_loop_retries_witness :
  exists w',
    exec (solo (Worker 0) [RRaise; ROk; ROk; ROk]) w_receiving = Some w' /\
    connected w' = false /\
    trace w' = trace w_receiving
      ++ [(Worker 0, ERecv 0 None); (Worker 0, EStatus "Reconnecting...");
          (Worker 0, ESleep 5)] /\
    workers w' !! 0 = Some W_top.
Proof.
  destruct (C1_worker_loop_retries w_receiving 0 W_recv eq_refl) as (H & _).
  destruct (H RRaise eq_refl) as ((w' & Hexec & Hconn & Htrace & Hpc & _) & _).
  exists w'. repeat split; assumption.
Defined.

(** * [send] and [stop] *)

(** A statement moves its activation along its own method. *)
Lemma caller_step_callers (c : cid) (p : cpc) (r : reply) (w w' : world) :
  caller_step c p r w = Some w' ->
  exists p', callers w' = <[c := p']> (callers w) /\
    (in_connect p = true -> in_connect p' = true \/ finished p' = true) /\
    (in_send p = true -> in_send p' = true \/ finished p' = true) /\
    (in_stop p = true -> in_stop p' = true \/ p' = Returned).
Proof.
  intros H. destruct w.
  destruct p; simpl in H; split_step H;
    eexists; (split; [reflexivity|]); cbn; repeat split; intros; auto;
    try discriminate.
  all: destruct r; auto.
Qed.

(** The status callback of [send] is called with [connected] cleared. *)
Lemma send_handler_flag (c : cid) (p : cpc) (r : reply) (w w' : world) :
  callers w !! c = Some p -> in_send p = true ->
  caller_step c p r w = Some w' -> callers w' !! c = Some S_exc_status ->
  connected w' = false.
Proof.
  intros Hp Hin Hstep Hr.
  assert (Hlt : c < List.length (callers w)) by (eapply lookup_lt_Some; eauto).
  destruct w as [cfg ws0 th conn sr rid wk cl ns tr]; cbn in Hp, Hlt.
  destruct p; try discriminate Hin; simpl in Hstep; split_step Hstep;
    simpl in Hr; rewrite list_lookup_insert_eq in Hr by exact Hlt;
    try discriminate Hr; try reflexivity.
  all: try (destruct conn; discriminate Hr).
  all: try (destruct r; discriminate Hr).
Qed.

Lemma send_stays_in_send (rs : list reply) (c : cid) :
  forall (w w' : world) (p : cpc),
    callers w !! c = Some p -> in_send p = true \/ finished p = true ->
    (p = S_exc_status -> connected w = false) ->
    exec (solo (Caller c) rs) w = Some w' ->
    exists p', callers w' !! c = Some p' /\
      (in_send p' = true \/ finished p' = true) /\
      (p' = S_exc_status -> connected w' = false).
Proof.
  induction rs as [|r rs IH]; intros w w' p Hp Hin Hflag Hexec.
  - injection Hexec as <-. exists p.
    split; [exact Hp | split; [exact Hin | exact Hflag]].
  - unfold solo in Hexec. cbn [map] in Hexec.
    rewrite (exec_caller _ _ _ _ _ Hp) in Hexec.
    destruct (caller_step c p r w) as [w1|] eqn:Hstep; [|discriminate].
    destruct (caller_step_callers _ _ _ _ _ Hstep) as (p' & Hc & _ & Hs & _).
    destruct Hin as [Hin|Hin];
      [|destruct p; try discriminate Hin; discriminate Hstep].
    assert (Hp' : callers w1 !! c = Some p').
    { rewrite Hc. apply list_lookup_insert_eq. eapply lookup_lt_Some; eauto. }
    eapply (IH w1 w' p'); [exact Hp' | exact (Hs Hin) | | exact Hexec].
    intros ->. exact (send_handler_flag c p r w w1 Hp Hin Hstep Hp').
Qed.

(** An exception leaves [send] only at line 154: when the status callback
    raises. *)
Lemma send_raised_from (c : cid) (p : cpc) (r : reply) (w w' : world) :
  callers w !! c = Some p -> in_send p = true ->
  caller_step c p r w = Some w' -> callers w' !! c = Some Raised ->
  p = S_exc_status /\ r = RRaise /\ connected w' = connected w /\
  trace w' = trace w ++ [(Caller c, EStatus "Disconnected")].
Proof.
  intros Hp Hin Hstep Hr.
  assert (Hlt : c < List.length (callers w)) by (eapply lookup_lt_Some; eauto).
  destruct w as [cfg ws0 th conn sr rid wk cl ns tr]; cbn in Hp, Hlt.
  destruct p; try discriminate Hin; simpl in Hstep; split_step Hstep;
    simpl in Hr; rewrite list_lookup_insert_eq in Hr by exact Hlt;
    try discriminate Hr.
  all: try (destruct conn; discriminate Hr).
  all: repeat split.
Qed.

(** C3, as stated, fails: an exception can leave [send].  On the connected
    object of the example a button is pressed, the write raises, the handler
    clears [connected] and calls the status callback; when that call raises,
    nothing catches it and the exception leaves [send]. *)
Lemma C3_status_callback_raise_leaves_send :
  exists w',
    exec sched_send_handler_raises (init DEFAULT_CONFIG) = Some w' /\
    callers w' = [Returned; Raised] /\
    connected w' = false /\
    trace w' = trace w_receiving
      ++ [(Caller 1, EWrite 0 (Frames.command "ToggleRecord") false);
          (Caller 1, EStatus "Disconnected")].
Proof.
  eexists. split; [vm_compute; reflexivity|].
  split; [reflexivity|]. split; reflexivity.
Qed.

(** C3, amended.  [send(request_type)] on a connected object writes the
    frame {op: 6, d: {requestType: request_type, requestId: "1"}} to the
    socket and returns; when the write raises it clears [connected] and
    tells the status callback "Disconnected", and returns normally when that
    call returns.  On an object that is not connected it writes nothing,
    changes nothing and returns normally.  Whatever the environment answers,
    an exception leaves the call only when the status callback of line 154
    itself raises, after [connected] has been cleared: the exception of the
    write never reaches the caller. *)
Theorem C3_send (w : world) (c : cid) (request_type : string) :
  callers w !! c = Some (S_check request_type) ->
  let frame :=
    JObj [("op", JInt 6);
          ("d", JObj [("requestType", JStr request_type);
                      ("requestId", JStr "1")])] in
  (connected w = false ->
     exists w', exec (solo (Caller c) [ROk]) w = Some w' /\
       trace w' = trace w /\ connected w' = false /\ ws w' = ws w /\
       callers w' !! c = Some Returned) /\
  (forall s, connected w = true -> ws w = Some s ->
     (exists w', exec (solo (Caller c) [ROk; ROk]) w = Some w' /\
        trace w' = trace w ++ [(Caller c, EWrite s frame true)] /\
        connected w' = true /\
        callers w' !! c = Some Returned) /\
     (exists w', exec (solo (Caller c) [ROk; RRaise; ROk; ROk]) w = Some w' /\
        trace w' = trace w ++ [(Caller c, EWrite s frame false);
                               (Caller c, EStatus "Disconnected")] /\
        connected w' = false /\
        callers w' !! c = Some Returned) /\
     (exists w', exec (solo (Caller c) [ROk; RRaise; ROk; RRaise]) w = Some w' /\
        trace w' = trace w ++ [(Caller c, EWrite s frame false);
                               (Caller c, EStatus "Disconnected")] /\
        connected w' = false /\
        callers w' !! c = Some Raised)) /\
  (forall rs w', exec (solo (Caller c) rs) w = Some w' ->
     callers w' !! c = Some Raised ->
     exists rs0 w0,
       rs = rs0 ++ [RRaise] /\
       exec (solo (Caller c) rs0) w = Some w0 /\
       callers w0 !! c = Some S_exc_status /\
       connected w0 = false /\ connected w' = false /\
       trace w' = trace w0 ++ [(Caller c, EStatus "Disconnected")]).
Proof.
  intros Hp frame.
  assert (Hlt : c < List.length (callers w)) by (eapply lookup_lt_Some; eauto).
  split; [|split].
  - intros Hconn. unfold solo. cbn [map].
    destruct w as [cfg ws0 th conn sr rid wk cl ns tr]; cbn in Hp, Hlt, Hconn.
    subst conn. run1. exec_done.
    eexists. split; [reflexivity|]. repeat split. at_pc.
  - intros s Hconn Hws. unfold solo. cbn [map].
    destruct w as [cfg ws0 th conn sr rid wk cl ns tr];
      cbn in Hp, Hlt, Hconn, Hws.
    subst conn ws0. split; [|split].
    + do 2 run1. exec_done.
      eexists. split; [reflexivity|]. repeat split. at_pc.
    + do 4 run1. exec_done. rewrite <- ?app_assoc. cbn [app].
      eexists. split; [reflexivity|]. repeat split. at_pc.
    + do 4 run1. exec_done. rewrite <- ?app_assoc. cbn [app].
      eexists. split; [reflexivity|]. repeat split. at_pc.
  - intros rs w' Hexec Hraised.
    destruct rs as [|r rs _] using rev_ind.
    { injection Hexec as <-. rewrite Hp in Hraised. discriminate Hraised. }
    unfold solo in Hexec. rewrite map_app, exec_app in Hexec.
    fold (solo (Caller c) rs) in Hexec.
    destruct (exec (solo (Caller c) rs) w) as [w0|] eqn:Hexec0; [|discriminate].
    destruct (send_stays_in_send rs c w w0 _ Hp (or_introl eq_refl)
                ltac:(discriminate) Hexec0) as (p0 & Hp0 & Hin0 & Hflag0).
    cbn [map] in Hexec. rewrite (exec_caller _ _ _ _ _ Hp0) in Hexec.
    destruct (caller_step c p0 r w0) as [w1|] eqn:Hstep; [|discriminate].
    change (exec [] w1) with (Some w1) in Hexec. injection Hexec as ->.
    destruct Hin0 as [Hin0|Hin0];
      [|destruct p0; try discriminate Hin0; discriminate Hstep].
    destruct (send_raised_from _ _ _ _ _ Hp0 Hin0 Hstep Hraised)
      as (-> & -> & Hconn & Htrace).
    exists rs, w0. split; [reflexivity|]. split; [exact Hexec0|].
    split; [exact Hp0|].
    assert (Hc0 : connected w0 = false) by (apply Hflag0; reflexivity).
    split; [exact Hc0|]. split; [congruence | exact Htrace].
Qed.

(** C3 on the connected object of the example, when a button is pressed. *)
Lemma C3_send_witness :
  exists w',
    exec (solo (Caller 1) [ROk; ROk]) w_button = Some w' /\
    trace w' = trace w_button
               ++ [(Caller 1, EWrite 0 (Frames.command "ToggleRecord") true)].
Proof.
  destruct (C3_send w_button 1 "ToggleRecord" eq_refl) as (_ & H & _).
  destruct (H 0 eq_refl eq_refl) as ((w' & Hexec & Htrace & _) & _).
  exists w'. split; [exact Hexec | exact Htrace].
Defined.

(** * Handshake and subscription *)

(** C4.  On a freshly opened socket the worker first writes the frame
    {op: 1, d: {rpcVersion: 1}}, once.  With an empty password it writes
    nothing more before it sets [connected]; with a non-empty password it
    then writes {op: 3, d: {rpcVersion: 1, authentication: password}}, once.
    When the identify write raises, no authenticate frame is written. *)
Theorem C4_handshake_frames (w : world) (t : tid) :
  workers w !! t = Some W_open ->
  let s := next_sock w in
  let password := obs_password (config w) in
  let opened := (Worker t, EOpen (url (config w)) (Some s)) in
  let identify :=
    JObj [("op", JInt 1); ("d", JObj [("rpcVersion", JInt 1)])] in
  let authenticate :=
    JObj [("op", JInt 3);
          ("d", JObj [("rpcVersion", JInt 1);
                      ("authentication", JStr password)])] in
  (password = EmptyString ->
     exists w', exec (solo (Worker t) [ROk; ROk; ROk]) w = Some w' /\
       trace w' = trace w ++ [opened; (Worker t, EWrite s identify true)] /\
       workers w' !! t = Some W_setconn) /\
  (password <> EmptyString ->
     exists w', exec (solo (Worker t) [ROk; ROk; ROk; ROk]) w = Some w' /\
       trace w' = trace w ++ [opened; (Worker t, EWrite s identify true);
                              (Worker t, EWrite s authenticate true)] /\
       workers w' !! t = Some W_setconn) /\
  (exists w', exec (solo (Worker t) [ROk; RRaise]) w = Some w' /\
     trace w' = trace w ++ [opened; (Worker t, EWrite s identify false)] /\
     workers w' !! t = Some W_exc_flag) /\
  (password <> EmptyString ->
     exists w', exec (solo (Worker t) [ROk; ROk; ROk; RRaise]) w = Some w' /\
       trace w' = trace w ++ [opened; (Worker t, EWrite s identify true);
                              (Worker t, EWrite s authenticate false)] /\
       workers w' !! t = Some W_exc_flag).
Proof.
  intros Hp s password opened identify authenticate.
  assert (Hlt : t < List.length (workers w)) by (eapply lookup_lt_Some; eauto).
  subst s password opened identify authenticate. unfold solo. cbn [map].
  destruct w as [[host port pw] ws0 th conn sr rid wk cl ns tr];
    cbn in Hp, Hlt; cbn [config obs_password next_sock trace].
  assert (Htruthy : pw <> EmptyString -> truthy pw = true)
    by (destruct pw; [congruence | reflexivity]).
  split; [|split; [|split]].
  - intros ->. do 3 run1. exec_done. rewrite <- ?app_assoc. cbn [app].
    eexists. split; [reflexivity|]. split; [reflexivity | at_pc].
  - intros Hpw. apply Htruthy in Hpw.
    do 4 run1. exec_done. rewrite <- ?app_assoc. cbn [app].
    eexists. split; [reflexivity|]. split; [reflexivity | at_pc].
  - do 2 run1. exec_done. rewrite <- ?app_assoc. cbn [app].
    eexists. split; [reflexivity|]. split; [reflexivity | at_pc].
  - intros Hpw. apply Htruthy in Hpw.
    do 4 run1. exec_done. rewrite <- ?app_assoc. cbn [app].
    eexists. split; [reflexivity|]. split; [reflexivity | at_pc].
Qed.

(** C4 with the password "secret": open, identify, authenticate. *)
Lemma C4_handshake_frames_witness :
  exists w',
    exec (solo (Worker 0) [ROk; ROk; ROk; ROk]) (w_opening cfg_password)
      = Some w' /\
    trace w' = [(Worker 0, EOpen "ws://localhost:4455" (Some 0));
                (Worker 0, EWrite 0 Frames.identify true);
                (Worker 0, EWrite 0 (Frames.authenticate "secret") true)].
Proof.
  destruct (C4_handshake_frames (w_opening cfg_password) 0 eq_refl)
    as (_ & H & _).
  destruct H as (w' & Hexec & Htrace & _); [discriminate|].
  exists w'. split; [exact Hexec | exact Htrace].
Defined.





(** * The event router *)

(** C6, as stated, fails: the frame {op: 5, d: null} has op 5 and a "d"
    field, but [data["d"].get] raises, the event callback is not called and
    the worker goes to its exception handler. *)
Lemma C6_event_without_mapping :
  route null_event = RouteRaise /\
  exists w',
    exec (solo (Worker 0) [RMsg null_event_text; RJson null_event; ROk])
         w_receiving = Some w' /\
    trace w' = trace w_receiving ++ [(Worker 0, ERecv 0 (Some null_event_text))] /\
    workers w' !! 0 = Some W_exc_flag.
Proof.
  split; [reflexivity|].
  eexists. split; [vm_compute; reflexivity|]. split; reflexivity.
Qed.

(** C6, amended.  For a received text that [json.loads] decodes to a
    mapping [m]: if [m] has op equal to 5 and a "d" field that is itself a
    mapping [d], the event callback is called exactly once, with
    [d.get("eventType", "")] and [d.get("eventData", {})], and the worker
    returns to the receive loop; if [m] has another op, no op or no "d"
    field, no callback is called and the worker returns to the receive loop;
    if [m] has op equal to 5 and a "d" field that is not a mapping, no
    callback is called and the worker goes to its exception handler.
    The frame {op: 5, d: {eventType: "RecordStateChanged", eventData:
    {outputActive: true}}} gives one call with ("RecordStateChanged",
    {outputActive: true}). *)
Theorem C6_event_routing (w : world) (t : tid) (s : sock) (message : string)
    (m : list (string * json)) :
  workers w !! t = Some W_recv -> ws w = Some s -> message <> EmptyString ->
  let is_event :=
    match get "op" m with Some v => eq_int v 5 | None => false end
    && contains "d" m in
  (forall d, is_event = true -> get "d" m = Some (JObj d) ->
     exists w',
       exec (solo (Worker t) [RMsg message; RJson (JObj m); ROk; ROk]) w
         = Some w' /\
       trace w' = trace w
         ++ [(Worker t, ERecv s (Some message));
             (Worker t, EEvent (get_default "eventType" (JStr EmptyString) d)
                               (get_default "eventData" (JObj []) d))] /\
       workers w' !! t = Some W_inner /\ connected w' = connected w) /\
  (is_event = false ->
     exists w',
       exec (solo (Worker t) [RMsg message; RJson (JObj m); ROk]) w
         = Some w' /\
       trace w' = trace w ++ [(Worker t, ERecv s (Some message))] /\
       workers w' !! t = Some W_inner /\ connected w' = connected w) /\
  (is_event = true -> (forall d, get "d" m <> Some (JObj d)) ->
     exists w',
       exec (solo (Worker t) [RMsg message; RJson (JObj m); ROk]) w
         = Some w' /\
       trace w' = trace w ++ [(Worker t, ERecv s (Some message))] /\
       workers w' !! t = Some W_exc_flag) /\
  route record_event =
    RouteEvent (JStr "RecordStateChanged") (JObj [("outputActive", JBool true)]).
Proof.
  intros Hp Hws Hmsg is_event.
  assert (Hlt : t < List.length (workers w)) by (eapply lookup_lt_Some; eauto).
  assert (Htruthy : truthy message = true)
    by (destruct message; [congruence | reflexivity]).
  unfold solo. cbn [map].
  destruct w as [cfg ws0 th conn sr rid wk cl ns tr];
    cbn in Hp, Hlt, Hws; cbn [trace connected]. subst ws0.
  split; [|split; [|split; [|reflexivity]]].
  - intros d Hev Hd.
    assert (Hroute : route (JObj m) =
              RouteEvent (get_default "eventType" (JStr EmptyString) d)
                         (get_default "eventData" (JObj []) d)).
    { unfold route. fold is_event. rewrite Hev, Hd. reflexivity. }
    do 4 run1. exec_done. rewrite <- ?app_assoc. cbn [app].
    eexists. split; [reflexivity|]. repeat split. at_pc.
  - intros Hev.
    assert (Hroute : route (JObj m) = RouteIgnore).
    { unfold route. fold is_event. rewrite Hev. reflexivity. }
    do 3 run1. exec_done. rewrite <- ?app_assoc. cbn [app].
    eexists. split; [reflexivity|]. repeat split. at_pc.
  - intros Hev Hd.
    assert (Hroute : route (JObj m) = RouteRaise).
    { unfold route. fold is_event. rewrite Hev.
      destruct (get "d" m) as [[]|]; try reflexivity.
      exfalso. eapply Hd. reflexivity. }
    do 3 run1. exec_done. rewrite <- ?app_assoc. cbn [app].
    eexists. split; [reflexivity|]. split; [reflexivity | at_pc].
Qed.

(** C6 amended, on the round-trip example of the specification. *)
Lemma C6_event_routing_witness :
  exists w',
    exec (solo (Worker 0) [RMsg "record"; RJson record_event; ROk; ROk])
         w_receiving = Some w' /\
    trace w' = trace w_receiving
      ++ [(Worker 0, ERecv 0 (Some "record"));
          (Worker 0, EEvent (JStr "RecordStateChanged")
                            (JObj [("outputActive", JBool true)]))].
Proof.
  destruct (C6_event_routing w_receiving 0 0 "record"
              [("op", JInt 5);
               ("d", JObj [("eventType", JStr "RecordStateChanged");
                           ("eventData", JObj [("outputActive", JBool true)])])]
              eq_refl eq_refl ltac:(discriminate)) as (H & _).
  destruct (H _ eq_refl eq_refl) as (w' & Hexec & Htrace & _).
  exists w'. split; [exact Hexec | exact Htrace].
Defined.



(** * I/O errors *)




(** * The [connected] flag and the status callback *)

(** A log that did not grow, or grew by another event. *)
Ltac trace_absurd H :=
  first [ apply app_inv_head in H; discriminate H
        | exfalso; revert H; clear; intros H;
          apply (f_equal (@List.length _)) in H;
          rewrite length_app in H; simpl in H; lia ].

Lemma connected_set_by (a : action) (w w' : world) :
  step a w = Some w' -> connected w = false -> connected w' = true ->
  exists t r, a = Step (Worker t) r /\ workers w !! t = Some W_setconn.
Proof.
  intros Hstep Hf Ht.
  destruct a as [[t|c] r|m]; cbn [step] in Hstep.
  - destruct (workers w !! t) as [p|] eqn:Hp; [|discriminate].
    exists t, r. split; [reflexivity|].
    destruct w; cbn in Hf.
    destruct p; simpl in Hstep; split_step Hstep; simpl in Ht;
      solve [congruence | reflexivity].
  - destruct (callers w !! c) as [p|] eqn:Hp; [|discriminate].
    destruct w; cbn in Hf.
    destruct p; simpl in Hstep; split_step Hstep; simpl in Ht; congruence.
  - injection Hstep as <-. destruct w; cbn in Hf, Ht. congruence.
Qed.

Lemma connected_cleared_by (a : action) (w w' : world) :
  step a w = Some w' -> connected w = true -> connected w' = false ->
  (exists t r, a = Step (Worker t) r /\ workers w !! t = Some W_exc_flag) \/
  (exists c r, a = Step (Caller c) r /\ callers w !! c = Some S_exc_flag).
Proof.
  intros Hstep Ht Hf.
  destruct a as [[t|c] r|m]; cbn [step] in Hstep.
  - destruct (workers w !! t) as [p|] eqn:Hp; [|discriminate].
    left. exists t, r. split; [reflexivity|].
    destruct w; cbn in Ht.
    destruct p; simpl in Hstep; split_step Hstep; simpl in Hf;
      solve [congruence | reflexivity].
  - destruct (callers w !! c) as [p|] eqn:Hp; [|discriminate].
    right. exists c, r. split; [reflexivity|].
    destruct w; cbn in Ht.
    destruct p; simpl in Hstep; split_step Hstep; simpl in Hf;
      solve [congruence | reflexivity].
  - injection Hstep as <-. destruct w; cbn in Hf, Ht. congruence.
Qed.

(** Line 106 is reached from the password test with no password, or from a
    successful authenticate write; the password test from a successful
    identify write. *)
Lemma setconn_reached_from (t : tid) (p : wpc) (r : reply) (w w' : world) :
  workers w !! t = Some p -> worker_step t p r w = Some w' ->
  (workers w' !! t = Some W_setconn ->
     (p = W_pw /\ obs_password (config w) = EmptyString) \/
     (p = W_auth /\ exists s,
        trace w' = trace w
          ++ [(Worker t, EWrite s (Frames.authenticate (obs_password (config w)))
                                true)])) /\
  (workers w' !! t = Some W_pw ->
     p = W_identify /\ exists s,
       trace w' = trace w ++ [(Worker t, EWrite s Frames.identify true)]).
Proof.
  intros Hp Hstep.
  assert (Hlt : t < List.length (workers w)) by (eapply lookup_lt_Some; eauto).
  destruct w as [[host port pw] ws0 th conn sr rid wk cl ns tr];
    cbn in Hp, Hlt.
  destruct p; simpl in Hstep; split_step Hstep; simpl;
    rewrite list_lookup_insert_eq by exact Hlt;
    (split; intros Heq; try discriminate Heq); eauto.
  all: try (destruct (conn && sr); discriminate Heq).
  all: try (destruct (route data); discriminate Heq).
  all: try (destruct sr; discriminate Heq).
  all: try (destruct (truthy message); discriminate Heq).
  all: left; split; [reflexivity|]; destruct pw; [reflexivity | discriminate].
Qed.

Lemma stop_frame (c : cid) (p : cpc) (r : reply) (w w' : world) :
  in_stop p = true -> caller_step c p r w = Some w' ->
  connected w' = connected w /\ ws w' = ws w /\ thread w' = thread w /\
  request_id w' = request_id w /\ workers w' = workers w /\
  config w' = config w /\ next_sock w' = next_sock w /\
  (should_run w' = should_run w \/ should_run w' = false) /\
  (trace w' = trace w \/
   exists s ok, trace w' = trace w ++ [(Caller c, EClose s ok)]).
Proof.
  intros Hin Hstep. destruct w.
  destruct p; try discriminate Hin; simpl in Hstep; split_step Hstep; simpl;
    repeat split; eauto.
Qed.

Lemma status_logged_by (a : action) (w w' : world) (x : actor)
    (status : string) :
  step a w = Some w' -> trace w' = trace w ++ [(x, EStatus status)] ->
  (exists t r, a = Step (Worker t) r /\ x = Worker t /\
     ((workers w !! t = Some W_status /\ status = "Connected") \/
      (workers w !! t = Some W_exc_status /\ status = "Reconnecting..."))) \/
  (exists c r, a = Step (Caller c) r /\ x = Caller c /\
     callers w !! c = Some S_exc_status /\ status = "Disconnected").
Proof.
  intros Hstep Htrace.
  destruct a as [[t|c] r|m]; cbn [step] in Hstep.
  - destruct (workers w !! t) as [p|] eqn:Hp; [|discriminate].
    left. exists t, r. split; [reflexivity|].
    destruct w.
    destruct p; simpl in Hstep; split_step Hstep; simpl in Htrace;
      try (trace_absurd Htrace);
      apply app_inv_head in Htrace; injection Htrace as <- <-; auto.
  - destruct (callers w !! c) as [p|] eqn:Hp; [|discriminate].
    right. exists c, r. split; [reflexivity|].
    destruct w.
    destruct p; simpl in Hstep; split_step Hstep; simpl in Htrace;
      try (trace_absurd Htrace);
      apply app_inv_head in Htrace; injection Htrace as <- <-; auto.
  - injection Hstep as <-. destruct w; simpl in Htrace. trace_absurd Htrace.
Qed.

Lemma step_trace (a : action) (w w' : world) :
  step a w = Some w' ->
  trace w' = trace w \/ exists x e, trace w' = trace w ++ [(x, e)].
Proof.
  intros Hstep. destruct a as [[t|c] r|m]; cbn [step] in Hstep.
  - destruct (workers w !! t) as [p|]; [|discriminate].
    destruct (worker_step_trace _ _ _ _ _ Hstep) as [H|[e H]]; eauto.
  - destruct (callers w !! c) as [p|]; [|discriminate].
    destruct (caller_step_trace _ _ _ _ _ Hstep) as [H|[e H]]; eauto.
  - injection Hstep as <-. destruct w. left. reflexivity.
Qed.

Lemma send_failure_reached_from (c : cid) (p : cpc) (r : reply)
    (w w' : world) :
  callers w !! c = Some p -> caller_step c p r w = Some w' ->
  callers w' !! c = Some S_exc_flag ->
  exists request_type,
    p = S_write request_type /\
    (ws w = None \/
     exists s, trace w' = trace w
       ++ [(Caller c, EWrite s (Frames.command request_type) false)]).
Proof.
  intros Hp Hstep Hexc.
  assert (Hlt : c < List.length (callers w)) by (eapply lookup_lt_Some; eauto).
  destruct w as [cfg ws0 th conn sr rid wk cl ns tr]; cbn in Hp, Hlt.
  destruct p; simpl in Hstep; split_step Hstep; simpl in Hexc;
    rewrite list_lookup_insert_eq in Hexc by exact Hlt;
    try discriminate Hexc; simpl; eauto.
  all: try (destruct conn; discriminate Hexc).
  all: try (destruct ws0; discriminate Hexc).
  all: destruct (wk !! _) as [[]|]; discriminate Hexc.
Qed.

(** C8, as stated, fails: [stop()] does not clear [connected].  On the
    connected object of the example [stop()] returns with [connected] still
    set; a [send] issued afterwards finds the object connected and writes to
    the closed socket, and it is that failing write which clears the flag. *)
Lemma C8_connected_after_stop :
  exists w1 w2,
    exec sched_stop (init DEFAULT_CONFIG) = Some w1 /\
    callers w1 = [Returned; Returned] /\
    connected w1 = true /\
    trace w1 = trace w_receiving ++ [(Caller 1, EClose 0 true)] /\
    exec sched_send_after_stop w1 = Some w2 /\
    trace w2 = trace w1
      ++ [(Caller 2, EWrite 0 (Frames.command "ToggleRecord") false);
          (Caller 2, EStatus "Disconnected")].
Proof.
  eexists. eexists. split; [vm_compute; reflexivity|].
  split; [reflexivity|]. split; [reflexivity|]. split; [reflexivity|].
  split; [vm_compute; reflexivity | reflexivity].
Qed.

(** C8, amended.  [connected] becomes true only by line 106, which a worker
    reaches only from the password test with an empty password or from a
    successful authenticate write, the password test being reached only
    from a successful identify write.  It becomes false only by line 125,
    the handler of the worker loop, and by line 153, the handler of [send];
    both handlers clear it.  No statement of [stop] changes it. *)
Theorem C8_connected_flag (a : action) (w w' : world) :
  step a w = Some w' ->
  (connected w = false -> connected w' = true ->
     exists t r, a = Step (Worker t) r /\ workers w !! t = Some W_setconn) /\
  (connected w = true -> connected w' = false ->
     (exists t r, a = Step (Worker t) r /\ workers w !! t = Some W_exc_flag) \/
     (exists c r, a = Step (Caller c) r /\ callers w !! c = Some S_exc_flag)) /\
  (forall t r p, a = Step (Worker t) r -> workers w !! t = Some p ->
     (workers w' !! t = Some W_setconn ->
        (p = W_pw /\ obs_password (config w) = EmptyString) \/
        (p = W_auth /\ exists s,
           trace w' = trace w
             ++ [(Worker t,
                  EWrite s (Frames.authenticate (obs_password (config w)))
                         true)])) /\
     (workers w' !! t = Some W_pw ->
        p = W_identify /\ exists s,
          trace w' = trace w ++ [(Worker t, EWrite s Frames.identify true)]) /\
     (p = W_exc_flag -> connected w' = false)) /\
  (forall c r p, a = Step (Caller c) r -> callers w !! c = Some p ->
     (p = S_exc_flag -> connected w' = false) /\
     (in_stop p = true -> connected w' = connected w)).
Proof.
  intros Hstep. split; [|split; [|split]].
  - apply (connected_set_by _ _ _ Hstep).
  - apply (connected_cleared_by _ _ _ Hstep).
  - intros t r p -> Hp. rewrite (step_worker _ _ _ _ Hp) in Hstep.
    destruct (setconn_reached_from _ _ _ _ _ Hp Hstep) as [H1 H2].
    split; [exact H1|]. split; [exact H2|].
    intros ->. destruct w. injection Hstep as <-. reflexivity.
  - intros c r p -> Hp. rewrite (step_caller _ _ _ _ Hp) in Hstep. split.
    + intros ->. destruct w. injection Hstep as <-. reflexivity.
    + intros Hin. apply (stop_frame _ _ _ _ _ Hin Hstep).
Qed.

(** C8 amended, on the example: line 106 sets the flag. *)
Lemma C8_connected_flag_witness :
  exists w',
    step (Step (Worker 0) ROk) w_handshaken = Some w' /\
    connected w' = true /\
    workers w_handshaken !! 0 = Some W_setconn.
Proof.
  eexists. split; [reflexivity|]. split; [reflexivity|].
  destruct (C8_connected_flag (Step (Worker 0) ROk) w_handshaken _ eq_refl)
    as (H & _).
  destruct (H eq_refl eq_refl) as (t & r & Ha & Hp).
  injection Ha as <- <-. exact Hp.
Defined.

(** C10.  A statement of [stop] changes nothing but the run flag, which it
    clears, and the socket, which it closes (an exception of [close] is
    swallowed): [connected], the socket the object holds, the thread, the
    request counter and the worker threads are as before, and the status
    callback is not called.  In every world reached from [__init__], every
    call of the status callback was made by a worker with "Connected" or
    "Reconnecting...", or by an activation of [send] with "Disconnected";
    the first by line 107, the second by line 126, the third by line 154,
    which is reached only through the handler of a failed write of [send]. *)
Theorem C10_stop_frame_and_status_strings (cfg : Config) (w : world) :
  reachable cfg w ->
  (forall c p r w', callers w !! c = Some p -> in_stop p = true ->
     step (Step (Caller c) r) w = Some w' ->
     connected w' = connected w /\ ws w' = ws w /\ thread w' = thread w /\
     request_id w' = request_id w /\ workers w' = workers w /\
     config w' = config w /\ next_sock w' = next_sock w /\
     (should_run w' = should_run w \/ should_run w' = false) /\
     (trace w' = trace w \/
      exists s ok, trace w' = trace w ++ [(Caller c, EClose s ok)])) /\
  (forall x status, In (x, EStatus status) (trace w) ->
     (exists t, x = Worker t /\ status_of_worker status) \/
     (exists c, x = Caller c /\ status_of_send status)) /\
  (forall a w' x status, step a w = Some w' ->
     trace w' = trace w ++ [(x, EStatus status)] ->
     (exists t r, a = Step (Worker t) r /\ x = Worker t /\
        ((workers w !! t = Some W_status /\ status = "Connected") \/
         (workers w !! t = Some W_exc_status /\ status = "Reconnecting..."))) \/
     (exists c r, a = Step (Caller c) r /\ x = Caller c /\
        callers w !! c = Some S_exc_status /\ status = "Disconnected")) /\
  (forall c p r w', callers w !! c = Some p ->
     step (Step (Caller c) r) w = Some w' ->
     (callers w' !! c = Some S_exc_status -> p = S_exc_flag) /\
     (callers w' !! c = Some S_exc_flag ->
        exists request_type,
          p = S_write request_type /\
          (ws w = None \/
           exists s, trace w' = trace w
             ++ [(Caller c, EWrite s (Frames.command request_type) false)]))).
Proof.
  intros Hreach. split; [|split; [|split]].
  - intros c p r w' Hp Hin Hstep. rewrite (step_caller _ _ _ _ Hp) in Hstep.
    apply (stop_frame _ _ _ _ _ Hin Hstep).
  - revert w Hreach.
    apply (reachable_invariant cfg
             (fun w => forall x status, In (x, EStatus status) (trace w) ->
                (exists t, x = Worker t /\ status_of_worker status) \/
                (exists c, x = Caller c /\ status_of_send status))).
    + intros x status [].
    + intros a w w' IH Hstep x status Hin.
      destruct (step_trace _ _ _ Hstep) as [Heq|(y & e & Heq)];
        rewrite Heq in Hin; [apply IH; exact Hin|].
      apply in_app_or in Hin. destruct Hin as [Hin|[Hin|[]]];
        [apply IH; exact Hin|].
      injection Hin as -> ->.
      destruct (status_logged_by _ _ _ _ _ Hstep Heq)
        as [(t & r & _ & -> & [[_ ->]|[_ ->]])|(c & r & _ & -> & _ & ->)].
      * left. exists t. split; [reflexivity | left; reflexivity].
      * left. exists t. split; [reflexivity | right; reflexivity].
      * right. exists c. split; reflexivity.
  - intros a w' x status. apply status_logged_by.
  - intros c p r w' Hp Hstep. rewrite (step_caller _ _ _ _ Hp) in Hstep.
    split; [|apply (send_failure_reached_from _ _ _ _ _ Hp Hstep)].
    assert (Hlt : c < List.length (callers w))
      by (eapply lookup_lt_Some; eauto).
    clear Hreach. destruct w as [cf ws0 th conn sr rid wk cl ns tr].
    cbn in Hp, Hlt. intros Hexc.
    destruct p; simpl in Hstep; split_step Hstep; simpl in Hexc;
      rewrite list_lookup_insert_eq in Hexc by exact Hlt;
      try discriminate Hexc; try reflexivity.
    all: try (destruct conn; discriminate Hexc).
    all: try (destruct ws0; discriminate Hexc).
    all: destruct (wk !! _) as [[]|]; discriminate Hexc.
Qed.

(** C10 on the example in which [stop()] is followed by a failing [send]:
    the call of the status callback with "Disconnected" was made by that
    [send]. *)
Lemma C10_stop_frame_and_status_strings_witness :
  (exists t, Caller 2 = Worker t /\ status_of_worker "Disconnected") \/
  (exists c, Caller 2 = Caller c /\ status_of_send "Disconnected").
Proof.
  assert (Hreach : reachable DEFAULT_CONFIG
            (after (sched_stop ++ sched_send_after_stop) (init DEFAULT_CONFIG))).
  { exists (sched_stop ++ sched_send_after_stop). vm_compute. reflexivity. }
  destruct (C10_stop_frame_and_status_strings DEFAULT_CONFIG _ Hreach)
    as (_ & H & _).
  apply H. vm_compute. repeat (first [left; reflexivity | right]).
Defined.

(** * At most one loop *)

Section Phases.

Variable P : cpc -> bool.

Lemma filter_at (l : list cpc) (c : cid) (p p' : cpc) :
  l !! c = Some p ->
  List.filter P l =
    List.filter P (take c l) ++ (if P p then [p] else [])
      ++ List.filter P (drop (S c) l) /\
  List.filter P (<[c := p']> l) =
    List.filter P (take c l) ++ (if P p' then [p'] else [])
      ++ List.filter P (drop (S c) l).
Proof.
  intros Hl.
  assert (Hlt : c < List.length l) by (eapply lookup_lt_Some; eauto).
  split.
  - rewrite <- (take_drop_middle l c p Hl) at 1.
    rewrite List.filter_app. cbn [List.filter]. destruct (P p); reflexivity.
  - rewrite (insert_take_drop l c p' Hlt).
    rewrite List.filter_app. cbn [List.filter]. destruct (P p'); reflexivity.
Qed.

Lemma filter_insert_same (l : list cpc) (c : cid) (p p' : cpc) :
  l !! c = Some p -> P p = false -> P p' = false ->
  List.filter P (<[c := p']> l) = List.filter P l.
Proof.
  intros Hl Hp Hp'. destruct (filter_at l c p p' Hl) as [H1 H2].
  rewrite H1, H2, Hp, Hp'. reflexivity.
Qed.

Lemma filter_insert_single (l : list cpc) (c : cid) (p p' p0 : cpc) :
  l !! c = Some p -> P p = true -> List.filter P l = [p0] ->
  p0 = p /\ List.filter P (<[c := p']> l) = if P p' then [p'] else [].
Proof.
  intros Hl Hp Hf. destruct (filter_at l c p p' Hl) as [H1 H2].
  rewrite H1, Hp in Hf. rewrite H2.
  destruct (List.filter P (take c l)) as [|x xs];
    [|destruct xs; discriminate Hf].
  cbn in Hf. injection Hf as -> Hf. rewrite Hf.
  split; [reflexivity|]. destruct (P p'); reflexivity.
Qed.

Lemma filter_none_at (l : list cpc) (c : cid) (p : cpc) :
  l !! c = Some p -> List.filter P l = [] -> P p = false.
Proof.
  intros Hl Hf. destruct (filter_at l c p p Hl) as [H1 _].
  rewrite H1 in Hf. destruct (P p); [|reflexivity].
  destruct (List.filter P (take c l)); discriminate Hf.
Qed.

End Phases.

(** Threads that are all dead, or alive at one index only, count for at most
    one loop. *)
Lemma no_live_loop (l : list wpc) :
  (forall t q, l !! t = Some q -> is_alive q = false) ->
  List.filter is_alive l = [].
Proof.
  induction l as [|x l IH]; intros H; [reflexivity|].
  cbn [List.filter]. rewrite (H 0 x eq_refl).
  apply IH. intros t q Hq. apply (H (S t) q Hq).
Qed.

Lemma one_live_loop (l : list wpc) (t0 : tid) :
  (forall t q, l !! t = Some q -> is_alive q = true -> t = t0) ->
  List.length (List.filter is_alive l) <= 1.
Proof.
  revert t0. induction l as [|x l IH]; intros t0 H; [simpl; lia|].
  cbn [List.filter]. destruct (is_alive x) eqn:Hx.
  - rewrite no_live_loop; [simpl; lia|].
    intros t q Hq. destruct (is_alive q) eqn:Ha; [|reflexivity].
    pose proof (H 0 x eq_refl Hx) as H0.
    pose proof (H (S t) q Hq Ha) as H1. lia.
  - destruct t0 as [|t0].
    + rewrite no_live_loop; [simpl; lia|].
      intros t q Hq. destruct (is_alive q) eqn:Ha; [|reflexivity].
      pose proof (H (S t) q Hq Ha) as H1. lia.
    + apply (IH t0). intros t q Hq Ha.
      pose proof (H (S t) q Hq Ha) as H1. lia.
Qed.

Lemma quiescent_live_loops (w : world) :
  quiescent w -> live_loops w <= 1.
Proof.
  intros Hq. unfold live_loops. destruct (thread w) as [t0|] eqn:Hth.
  - apply (one_live_loop _ t0). intros t q Hl Ha.
    destruct (Hq t q Hl) as [_ H]. specialize (H Ha). congruence.
  - rewrite no_live_loop; [simpl; lia|].
    intros t q Hl. destruct (is_alive q) eqn:Ha; [|reflexivity].
    destruct (Hq t q Hl) as [_ H]. specialize (H Ha). congruence.
Qed.

Lemma all_dead_live_loops (w : world) : all_dead w -> live_loops w = 0.
Proof.
  intros Hd. unfold live_loops. rewrite no_live_loop; [reflexivity|].
  intros t q Hl. rewrite (Hd t q Hl). reflexivity.
Qed.

Lemma starting_live_loops (w : world) (t : tid) :
  workers w !! t = Some W_unstarted ->
  (forall t' q, workers w !! t' = Some q -> t' <> t -> q = W_done) ->
  live_loops w = 0.
Proof.
  intros Ht Hd. unfold live_loops. rewrite no_live_loop; [reflexivity|].
  intros t' q Hl. destruct (decide (t' = t)) as [->|Hne].
  - rewrite Ht in Hl. injection Hl as <-. reflexivity.
  - rewrite (Hd t' q Hl Hne). reflexivity.
Qed.

Lemma single_loop_inv_live_loops (w : world) :
  single_loop_inv w ->
  live_loops w <= 1 /\
  (forall c p, callers w !! c = Some p ->
     p = C_set \/ p = C_create \/ p = C_start -> live_loops w = 0).
Proof.
  unfold single_loop_inv, connect_phase. intros Hinv.
  destruct (List.filter in_connect (callers w)) as [|p0 [|p1 rest]] eqn:Hf;
    [| |contradiction].
  - split; [apply quiescent_live_loops; exact Hinv|].
    intros c p Hc Hp.
    pose proof (filter_none_at in_connect _ _ _ Hc Hf) as Hn.
    destruct Hp as [->|[->| ->]]; discriminate Hn.
  - assert (Hp0 : forall c p, callers w !! c = Some p ->
                    in_connect p = true -> p = p0).
    { intros c p Hc Hp.
      destruct (filter_insert_single in_connect _ c p p p0 Hc Hp Hf)
        as [-> _]. reflexivity. }
    assert (Hlive : match p0 with
                    | C_set | C_create | C_start => live_loops w = 0
                    | _ => live_loops w <= 1
                    end).
    { destruct p0; cbn [phase_inv] in Hinv; try contradiction;
        try (apply quiescent_live_loops; tauto);
        try (apply all_dead_live_loops; exact Hinv).
      destruct Hinv as (t & _ & Ht & Hd).
      apply (starting_live_loops w t Ht Hd). }
    split.
    + destruct p0; try lia; apply Hlive.
    + intros c p Hc Hp.
      assert (p = p0) as <-
          by (apply (Hp0 c p Hc); destruct Hp as [->|[->| ->]]; reflexivity).
      destruct Hp as [->|[->| ->]]; exact Hlive.
Qed.

(** The invariant looks at the threads and at the thread the object holds. *)
Lemma quiescent_ext (w w' : world) :
  workers w' = workers w -> thread w' = thread w ->
  quiescent w -> quiescent w'.
Proof. unfold quiescent. intros -> ->. auto. Qed.

Lemma phase_inv_ext (p : cpc) (w w' : world) :
  workers w' = workers w -> thread w' = thread w ->
  phase_inv p w -> phase_inv p w'.
Proof.
  intros Hw Ht. destruct p; cbn [phase_inv]; unfold quiescent, all_dead;
    rewrite ?Hw, ?Ht; auto.
Qed.

Lemma single_loop_inv_ext (w w' : world) :
  connect_phase w' = connect_phase w ->
  workers w' = workers w -> thread w' = thread w ->
  single_loop_inv w -> single_loop_inv w'.
Proof.
  unfold single_loop_inv. intros -> Hw Ht.
  destruct (connect_phase w) as [|p [|]]; auto.
  - apply quiescent_ext; assumption.
  - apply phase_inv_ext; assumption.
Qed.

(** A statement of a worker keeps the invariant: it can only run while no
    call of [connect] is past its [join]. *)
Lemma quiescent_worker_step (t : tid) (p : wpc) (r : reply) (w w' : world) :
  workers w !! t = Some p -> worker_step t p r w = Some w' ->
  quiescent w -> quiescent w'.
Proof.
  intros Hp Hstep Hq.
  destruct (worker_step_frame _ _ _ _ _ Hstep)
    as (_ & Hth & _ & _ & Halive & p' & Hw & Hp').
  intros t1 q Hl. rewrite Hw in Hl. rewrite Hth.
  apply list_lookup_insert_Some in Hl.
  destruct Hl as [(<- & <- & _)|(Hne & Hl)].
  - split; [exact Hp'|]. intros _. apply (Hq t p Hp). exact Halive.
  - apply (Hq t1 q Hl).
Qed.

Lemma single_loop_worker_step (t : tid) (p : wpc) (r : reply)
    (w w' : world) :
  workers w !! t = Some p -> worker_step t p r w = Some w' ->
  single_loop_inv w -> single_loop_inv w'.
Proof.
  intros Hp Hstep.
  pose proof (worker_step_frame _ _ _ _ _ Hstep)
    as (Hcl & Hth & _ & _ & Halive & p' & Hw & Hp').
  unfold single_loop_inv, connect_phase. rewrite Hcl.
  destruct (List.filter in_connect (callers w)) as [|p0 [|]]; auto.
  - apply (quiescent_worker_step _ _ _ _ _ Hp Hstep).
  - destruct p0; cbn [phase_inv]; try contradiction.
    + apply (quiescent_worker_step _ _ _ _ _ Hp Hstep).
    + apply (quiescent_worker_step _ _ _ _ _ Hp Hstep).
    + apply (quiescent_worker_step _ _ _ _ _ Hp Hstep).
    + intros [Hq Ht]. split; [|congruence].
      apply (quiescent_worker_step _ _ _ _ _ Hp Hstep Hq).
    + intros Hd. rewrite (Hd t p Hp) in Halive. discriminate Halive.
    + intros Hd. rewrite (Hd t p Hp) in Halive. discriminate Halive.
    + intros (t0 & _ & Ht0 & Hd). exfalso.
      destruct (decide (t = t0)) as [->|Hne].
      * rewrite Ht0 in Hp. injection Hp as <-. discriminate Halive.
      * rewrite (Hd t p Hp Hne) in Halive. discriminate Halive.
Qed.

(** A statement of [send] or [stop] does not touch what the invariant looks
    at. *)
Lemma other_step_frame (c : cid) (p : cpc) (r : reply) (w w' : world) :
  in_connect p = false -> caller_step c p r w = Some w' ->
  workers w' = workers w /\ thread w' = thread w /\
  exists p', callers w' = <[c := p']> (callers w) /\ in_connect p' = false.
Proof.
  intros Hin Hstep. destruct w.
  destruct p; try discriminate Hin; simpl in Hstep; split_step Hstep; simpl;
    repeat split; eexists; split; reflexivity.
Qed.

(** The statements of the one call of [connect] in progress. *)
Lemma single_loop_connect_step (c : cid) (p : cpc) (r : reply)
    (w w' : world) :
  callers w !! c = Some p -> in_connect p = true ->
  caller_step c p r w = Some w' ->
  phase_inv p w ->
  exists p', callers w' = <[c := p']> (callers w) /\
    if in_connect p' then phase_inv p' w' else quiescent w'.
Proof.
  intros Hp Hin Hstep Hinv.
  destruct w as [cfg ws0 th conn sr rid wk cl ns tr]. cbn in Hp.
  destruct p; try discriminate Hin; simpl in Hstep; cbn [phase_inv] in Hinv.
  - (* line 88 *)
    assert (Hdead : (forall t q, th = Some t -> wk !! t = Some q ->
                       is_alive q = false) ->
                    all_dead (World cfg ws0 th conn sr rid wk cl ns tr)).
    { intros Hno t q Hl. destruct (Hinv t q Hl) as [Hne Hth]. cbn in Hth.
      destruct (is_alive q) eqn:Ha.
      - specialize (Hth eq_refl). rewrite (Hno t q Hth Hl) in Ha.
        discriminate Ha.
      - destruct q; try discriminate Ha; [contradiction | reflexivity]. }
    injection Hstep as <-. eexists. split; [reflexivity|].
    destruct th as [t|]; [destruct (wk !! t) as [q|] eqn:Hq;
                          [destruct (is_alive q) eqn:Ha|]|];
      cbn [in_connect phase_inv].
    + exact Hinv.
    + apply Hdead. intros t' q' [= <-] Hl. congruence.
    + apply Hdead. intros t' q' [= <-] Hl. congruence.
    + apply Hdead. intros t' q' [=].
  - (* line 89 *)
    injection Hstep as <-. eexists. split; [reflexivity|]. exact Hinv.
  - (* line 90, the call *)
    split_step Hstep; eexists; (split; [reflexivity|]);
      cbn [in_connect phase_inv]; try exact Hinv; split; auto.
  - (* line 90, the return *)
    destruct Hinv as [Hq Hth]. cbn in Hth. subst th.
    split_step Hstep. eexists. split; [reflexivity|].
    cbn [in_connect phase_inv]. intros t1 q Hl.
    destruct (Hq t1 q Hl) as [Hne Ht1]. cbn in Ht1, Hl.
    destruct (is_alive q) eqn:Ha.
    + specialize (Ht1 eq_refl). injection Ht1 as <-.
      match goal with
      | E : wk !! t = Some W_done |- _ => rewrite E in Hl
      end.
      injection Hl as <-. discriminate Ha.
    + destruct q; try discriminate Ha; [contradiction | reflexivity].
  - (* line 91 *)
    injection Hstep as <-. eexists. split; [reflexivity|]. exact Hinv.
  - (* line 129 *)
    injection Hstep as <-. eexists. split; [reflexivity|].
    cbn [in_connect phase_inv]. exists (List.length wk). cbn.
    split; [reflexivity|]. split.
    + apply list_lookup_middle. reflexivity.
    + intros t' q Hl Hne. apply lookup_app_Some in Hl.
      destruct Hl as [Hl|[Hge Hl]]; [apply (Hinv t' q Hl)|].
      destruct (t' - List.length wk) as [|n] eqn:Hn; [lia|].
      destruct n; discriminate Hl.
  - (* line 130 *)
    destruct Hinv as (t0 & Hth & Ht0 & Hd). cbn in Hth, Ht0, Hd.
    subst th. rewrite Ht0 in Hstep. injection Hstep as <-.
    eexists. split; [reflexivity|]. cbn [in_connect].
    intros t1 q Hl. cbn in Hl |- *.
    apply list_lookup_insert_Some in Hl.
    destruct Hl as [(<- & <- & _)|(Hne & Hl)].
    + split; [discriminate | reflexivity].
    + rewrite (Hd t1 q Hl) by congruence. split; [discriminate|].
      intros [=].
Qed.

(** Every step keeps the invariant, when a call of [connect] is made only
    while no other is in progress. *)
Lemma single_loop_step (a : action) (w w' : world) :
  single_loop_inv w ->
  (a = Call MConnect -> connect_idle w = true) ->
  step a w = Some w' -> single_loop_inv w'.
Proof.
  intros Hinv Hserial Hstep.
  destruct a as [[t|c] r|m]; cbn [step] in Hstep.
  - destruct (workers w !! t) as [p|] eqn:Hp; [|discriminate].
    apply (single_loop_worker_step _ _ _ _ _ Hp Hstep Hinv).
  - destruct (callers w !! c) as [p|] eqn:Hp; [|discriminate].
    destruct (in_connect p) eqn:Hin.
    + unfold single_loop_inv, connect_phase in Hinv.
      destruct (List.filter in_connect (callers w)) as [|p0 [|]] eqn:Hf;
        [|  |contradiction].
      * rewrite (filter_none_at in_connect _ _ _ Hp Hf) in Hin.
        discriminate Hin.
      * assert (p0 = p) as ->
            by (apply (filter_insert_single in_connect _ c p p p0 Hp Hin Hf)).
        destruct (single_loop_connect_step _ _ _ _ _ Hp Hin Hstep Hinv)
          as (p' & Hcl & Hnew).
        unfold single_loop_inv, connect_phase. rewrite Hcl.
        destruct (filter_insert_single in_connect _ c p p' p Hp Hin Hf)
          as [_ ->].
        destruct (in_connect p'); exact Hnew.
    + destruct (other_step_frame _ _ _ _ _ Hin Hstep)
        as (Hw & Hth & p' & Hcl & Hin').
      apply (single_loop_inv_ext w w'); try assumption.
      unfold connect_phase. rewrite Hcl.
      apply (filter_insert_same in_connect _ _ _ _ Hp Hin Hin').
  - injection Hstep as <-.
    assert (Hph : connect_phase (set_callers (callers w ++ [entry m]) w) =
                  connect_phase w ++ List.filter in_connect [entry m]).
    { destruct w. unfold connect_phase. cbn. apply List.filter_app. }
    unfold single_loop_inv. rewrite Hph.
    destruct m; cbn [entry List.filter in_connect].
    + specialize (Hserial eq_refl). unfold connect_idle in Hserial.
      unfold single_loop_inv in Hinv.
      destruct (connect_phase w); [|discriminate Hserial].
      cbn [app phase_inv]. destruct w. exact Hinv.
    + rewrite app_nil_r. fold (single_loop_inv w) in Hinv.
      unfold single_loop_inv in Hinv.
      destruct (connect_phase w) as [|p [|]]; auto.
      * destruct w. exact Hinv.
      * destruct w. destruct p; exact Hinv.
    + rewrite app_nil_r. unfold single_loop_inv in Hinv.
      destruct (connect_phase w) as [|p [|]]; auto.
      * destruct w. exact Hinv.
      * destruct w. destruct p; exact Hinv.
Qed.

Lemma single_loop_init (cfg : Config) : single_loop_inv (init cfg).
Proof.
  unfold single_loop_inv. cbn. intros t q Hl. destruct t; discriminate Hl.
Qed.

Lemma single_loop_exec (sched : list action) :
  forall w w', single_loop_inv w -> serial sched w = true ->
    exec sched w = Some w' -> single_loop_inv w'.
Proof.
  induction sched as [|a sched IH]; intros w w' Hinv Hser Hexec.
  - injection Hexec as <-. exact Hinv.
  - cbn [exec] in Hexec. cbn [serial] in Hser.
    destruct (step a w) as [w1|] eqn:Ha; [|discriminate].
    apply andb_prop in Hser. destruct Hser as [Hidle Hser].
    apply (IH w1 w'); [|exact Hser|exact Hexec].
    apply (single_loop_step a w w1 Hinv); [|exact Ha].
    intros ->. exact Hidle.
Qed.

(** C2, as stated, fails: two calls of [connect] that overlap both wait for
    the same old loop, and each then starts a loop of its own. *)
Lemma C2_overlapping_connects_two_loops :
  exists w,
    exec sched_two_connects (init DEFAULT_CONFIG) = Some w /\
    workers w = [W_done; W_top; W_top] /\
    callers w = [Returned; Returned; Returned] /\
    live_loops w = 2.
Proof. eexists. split; [vm_compute; reflexivity|]. repeat split. Qed.

(** C2, amended.  When the calls of [connect] do not overlap, at most one
    loop is alive in every world reached from [__init__], and none is alive
    while a call of [connect] stands between its [join] and the start of the
    new thread.  A call that finds the thread of the object alive goes on to
    clear the run flag (line 89); its [join] returns only when that thread
    is dead; it then sets the run flag again (line 91), before it creates the
    new thread. *)
Theorem C2_serial_connect_single_loop (cfg : Config) (sched : list action)
    (w : world) :
  exec sched (init cfg) = Some w -> serial sched (init cfg) = true ->
  live_loops w <= 1 /\
  (forall c p, callers w !! c = Some p ->
     p = C_set \/ p = C_create \/ p = C_start -> live_loops w = 0) /\
  (forall c r w' t q, callers w !! c = Some C_check ->
     step (Step (Caller c) r) w = Some w' ->
     thread w = Some t -> workers w !! t = Some q -> is_alive q = true ->
     callers w' !! c = Some C_clear) /\
  (forall c r w', callers w !! c = Some C_clear ->
     step (Step (Caller c) r) w = Some w' ->
     should_run w' = false /\ callers w' !! c = Some C_join) /\
  (forall c r w' t, callers w !! c = Some (C_joining t) ->
     step (Step (Caller c) r) w = Some w' ->
     workers w !! t = Some W_done /\ callers w' !! c = Some C_set) /\
  (forall c r w', callers w !! c = Some C_set ->
     step (Step (Caller c) r) w = Some w' ->
     should_run w' = true /\ callers w' !! c = Some C_create).
Proof.
  intros Hexec Hserial.
  pose proof (single_loop_exec sched _ _ (single_loop_init cfg) Hserial Hexec)
    as Hinv.
  destruct (single_loop_inv_live_loops w Hinv) as [Hle Hzero].
  split; [exact Hle|]. split; [exact Hzero|].
  clear Hexec Hserial Hinv Hle Hzero.
  split; [|split; [|split]].
  - intros c r w' t q Hc Hstep Hth Hq Ha.
    rewrite (step_caller _ _ _ _ Hc) in Hstep.
    assert (Hlt : c < List.length (callers w))
      by (eapply lookup_lt_Some; eauto).
    destruct w as [cf ws0 th conn sr rid wk cl ns tr].
    cbn in Hc, Hth, Hq, Hlt. subst th. cbn in Hstep. rewrite Hq, Ha in Hstep.
    injection Hstep as <-. cbn. apply list_lookup_insert_eq. exact Hlt.
  - intros c r w' Hc Hstep. rewrite (step_caller _ _ _ _ Hc) in Hstep.
    assert (Hlt : c < List.length (callers w))
      by (eapply lookup_lt_Some; eauto).
    destruct w as [cf ws0 th conn sr rid wk cl ns tr]. cbn in Hc, Hlt.
    injection Hstep as <-. split; [reflexivity|].
    cbn. apply list_lookup_insert_eq. exact Hlt.
  - intros c r w' t Hc Hstep. rewrite (step_caller _ _ _ _ Hc) in Hstep.
    assert (Hlt : c < List.length (callers w))
      by (eapply lookup_lt_Some; eauto).
    destruct w as [cf ws0 th conn sr rid wk cl ns tr]. cbn in Hc, Hlt.
    cbn in Hstep. cbn [workers].
    destruct (wk !! t) as [[]|]; try discriminate Hstep.
    injection Hstep as <-. split; [reflexivity|].
    cbn. apply list_lookup_insert_eq. exact Hlt.
  - intros c r w' Hc Hstep. rewrite (step_caller _ _ _ _ Hc) in Hstep.
    assert (Hlt : c < List.length (callers w))
      by (eapply lookup_lt_Some; eauto).
    destruct w as [cf ws0 th conn sr rid wk cl ns tr]. cbn in Hc, Hlt.
    injection Hstep as <-. split; [reflexivity|].
    cbn. apply list_lookup_insert_eq. exact Hlt.
Qed.

(** C2 amended, on the example of one reconnection: the old loop is dead
    when the new one runs. *)
Lemma C2_serial_connect_single_loop_witness :
  exists w,
    exec sched_reconnect (init DEFAULT_CONFIG) = Some w /\
    serial sched_reconnect (init DEFAULT_CONFIG) = true /\
    workers w = [W_done; W_top] /\
    live_loops w <= 1.
Proof.
  eexists. split; [vm_compute; reflexivity|].
  split; [vm_compute; reflexivity|]. split; [reflexivity|].
  eapply (C2_serial_connect_single_loop DEFAULT_CONFIG sched_reconnect);
    vm_compute; reflexivity.
Defined.

(** * More about the worker loop *)

(** A worker does not touch the run flag, and a statement of a live worker
    can always be executed for some answer of the environment. *)
Lemma worker_step_enabled (t : tid) (p : wpc) (w : world) :
  workers w !! t = Some p -> is_alive p = true ->
  exists r w', step (Step (Worker t) r) w = Some w'.
Proof.
  intros Hp Ha. destruct w as [cfg ws0 th conn sr rid wk cl ns tr].
  cbn in Hp.
  destruct p; try discriminate Ha; cbn [step workers]; rewrite Hp;
    cbn [worker_step]; unfold ws_send; cbn [ws];
    try (eexists ROk; eexists; reflexivity);
    try (destruct ws0; eexists ROk; eexists; reflexivity).
  - destruct ws0; eexists RRaise; eexists; reflexivity.
  - eexists RRaise; eexists; reflexivity.
Qed.

Lemma remaining_step (t : tid) (p : wpc) (r : reply) (w w' : world) :
  workers w !! t = Some p -> should_run w = false ->
  worker_step t p r w = Some w' ->
  exists p', workers w' !! t = Some p' /\ S (remaining p') <= remaining p /\
    should_run w' = false /\ p' <> W_unstarted.
Proof.
  intros Hp Hrun Hstep.
  assert (Hlt : t < List.length (workers w)) by (eapply lookup_lt_Some; eauto).
  destruct w as [cfg ws0 th conn sr rid wk cl ns tr].
  cbn in Hp, Hrun, Hlt. subst sr.
  destruct p; simpl in Hstep; split_step Hstep;
    (eexists; split; [cbn; apply list_lookup_insert_eq; exact Hlt|]);
    (split; [|split; [reflexivity|]]); cbn; try lia; try discriminate.
  all: try match goal with
           | |- context [route ?d] =>
               destruct (route d); cbn; first [lia | discriminate]
           | |- context [andb ?c false] =>
               rewrite andb_false_r; cbn; first [lia | discriminate]
           | |- context [truthy ?m] =>
               destruct (truthy m); cbn; first [lia | discriminate]
           | |- context [match ?r with RRaise => _ | _ => _ end] =>
               destruct r; cbn; first [lia | discriminate]
           | |- context [if ?c then _ else _] =>
               destruct c; cbn; first [lia | discriminate]
           end.
Qed.

(** Every statement of a live worker is enabled for the answer [respond]
    makes of what the environment decides. *)
Lemma respond_enabled (o : answer) (t : tid) (p : wpc) (w : world) :
  workers w !! t = Some p -> is_alive p = true ->
  exists w', worker_step t p (respond o p) w = Some w'.
Proof.
  intros Hp Ha. destruct w as [cfg ws0 th conn sr rid wk cl ns tr].
  unfold respond.
  destruct p; try discriminate Ha; cbn [worker_step]; unfold ws_send;
    cbn [ws]; destruct (fails o); try destruct ws0; eexists; reflexivity.
Qed.

Lemma drive_dead (os : list answer) (t : tid) (w : world) (p : wpc) :
  workers w !! t = Some p -> is_alive p = false -> drive os t w = Some (w, 0).
Proof.
  intros Hp Ha. destruct os as [|o os]; cbn [drive]; [reflexivity|].
  rewrite Hp, Ha. reflexivity.
Qed.

Lemma drive_ends (os : list answer) (t : tid) :
  forall (w : world) (p : wpc),
    workers w !! t = Some p -> is_alive p = true -> should_run w = false ->
    remaining p <= List.length os ->
    exists w' n,
      drive os t w = Some (w', n) /\ workers w' !! t = Some W_done /\
      n <= remaining p /\ should_run w' = false.
Proof.
  induction os as [|o os IH]; intros w p Hp Ha Hrun Hlen.
  - destruct p; try discriminate Ha; cbn in Hlen; lia.
  - cbn [drive]. rewrite Hp, Ha. rewrite (step_worker _ _ _ _ Hp).
    destruct (respond_enabled o t p w Hp Ha) as (w1 & Hstep). rewrite Hstep.
    destruct (remaining_step _ _ _ _ _ Hp Hrun Hstep)
      as (p1 & Hp1 & Hle & Hrun1 & Hne).
    destruct (is_alive p1) eqn:Ha1.
    + cbn [List.length] in Hlen.
      destruct (IH w1 p1 Hp1 Ha1 Hrun1 ltac:(lia))
        as (w' & n & Hd & Hdone & Hn & Hrun').
      rewrite Hd. exists w', (S n).
      split; [reflexivity|]. split; [exact Hdone|]. split; [lia | exact Hrun'].
    + rewrite (drive_dead os t w1 p1 Hp1 Ha1). exists w1, 1.
      split; [reflexivity|].
      split; [destruct p1; try discriminate Ha1; [congruence | exact Hp1]|].
      split; [lia | exact Hrun1].
Qed.

Lemma remaining_bound (rs : list reply) (t : tid) :
  forall (w w' : world) (p : wpc),
    workers w !! t = Some p -> should_run w = false ->
    exec (solo (Worker t) rs) w = Some w' ->
    exists p', workers w' !! t = Some p' /\
      List.length rs + remaining p' <= remaining p /\ should_run w' = false.
Proof.
  induction rs as [|r rs IH]; intros w w' p Hp Hrun Hexec.
  - injection Hexec as <-. exists p. split; [exact Hp|].
    split; [simpl; lia | exact Hrun].
  - unfold solo in Hexec. cbn [map] in Hexec.
    rewrite (exec_worker _ _ _ _ _ Hp) in Hexec.
    destruct (worker_step t p r w) as [w1|] eqn:Hstep; [|discriminate].
    destruct (remaining_step _ _ _ _ _ Hp Hrun Hstep)
      as (p1 & Hp1 & Hle & Hrun1 & _).
    destruct (IH w1 w' p1 Hp1 Hrun1 Hexec) as (p' & Hp' & Hlen & Hrun').
    exists p'. split; [exact Hp'|]. split; [simpl; lia | exact Hrun'].
Qed.

(** X1.  Once the run flag is cleared and as long as it stays so, a live
    worker that gets an answer to each of its calls is dead after at most
    [remaining p] statements, 11 at most, whatever the answers are: failing
    calls, raising callbacks, any message and any decoded value.  No run of
    the worker alone is longer than that bound.  The bound counts statements,
    not time: a call that gets no answer does not return. *)
Theorem worker_ends_after_stop (w : world) (t : tid) (p : wpc) :
  workers w !! t = Some p -> is_alive p = true -> should_run w = false ->
  remaining p <= 11 /\
  (forall os, remaining p <= List.length os ->
     exists w' n,
       drive os t w = Some (w', n) /\ workers w' !! t = Some W_done /\
       n <= remaining p /\ should_run w' = false) /\
  (forall rs w', exec (solo (Worker t) rs) w = Some w' ->
     exists p', workers w' !! t = Some p' /\
       List.length rs + remaining p' <= remaining p /\
       should_run w' = false).
Proof.
  intros Hp Ha Hrun.
  split; [destruct p; simpl; lia|]. split.
  - intros os Hlen. apply (drive_ends os t w p Hp Ha Hrun Hlen).
  - intros rs w'. apply (remaining_bound rs t w w' p Hp Hrun).
Qed.

(** X1 on the example: after [stop()], the worker whose [recv] raises goes
    through its handler, also when the status callback raises there, and is
    dead within 8 statements. *)
Lemma worker_ends_after_stop_witness :
  exists w' n,
    drive (repeat {| fails := true; received := EmptyString;
                     decoded := JNull |} 8) 0 w_stopped = Some (w', n) /\
    workers w' !! 0 = Some W_done /\ n <= 8.
Proof.
  destruct (worker_ends_after_stop w_stopped 0 W_recv eq_refl eq_refl eq_refl)
    as (_ & H & _).
  destruct (H (repeat {| fails := true; received := EmptyString;
                         decoded := JNull |} 8) ltac:(cbn; lia))
    as (w' & n & Hd & Hdone & Hn & _).
  exists w', n. split; [exact Hd|]. split; [exact Hdone | exact Hn].
Defined.

(** X2.  A [stop()] that clears the run flag while the worker is about to
    open its socket does not stop the attempt: when the calls succeed the
    worker does the handshake, sets [connected], tells the status callback
    "Connected", sends the subscribe request and only then ends, at the loop
    tests.  The object is left connected, holding the new socket, with no
    loop alive. *)
Theorem stop_while_connecting (w : world) (t : tid) :
  workers w !! t = Some W_open -> should_run w = false ->
  exists w',
    exec (solo (Worker t)
            (handshake_replies (obs_password (config w))
             ++ [ROk; ROk; ROk; ROk; ROk; ROk])) w = Some w' /\
    workers w' !! t = Some W_done /\
    connected w' = true /\ ws w' = Some (next_sock w) /\
    trace w' = trace w ++ handshake_log t (config w) (next_sock w)
      ++ [(Worker t, EStatus "Connected");
          (Worker t, EWrite (next_sock w)
                       (Frames.subscribe (S (request_id w))
                                         Frames.subscribed_events) true)].
Proof.
  intros Hp Hrun.
  assert (Hlt : t < List.length (workers w)) by (eapply lookup_lt_Some; eauto).
  destruct w as [[host port pw] ws0 th conn sr rid wk cl ns tr].
  cbn in Hp, Hrun, Hlt. subst sr.
  unfold handshake_replies, handshake_log, solo.
  cbn [config obs_password next_sock trace request_id].
  destruct (truthy pw) eqn:Hpw; cbn [map app].
  - do 10 run1. exec_done. rewrite <- ?app_assoc. cbn [app].
    eexists. split; [reflexivity|]. split; [at_pc|]. repeat split.
  - do 9 run1. exec_done. rewrite <- ?app_assoc. cbn [app].
    eexists. split; [reflexivity|]. split; [at_pc|]. repeat split.
Qed.

Lemma stop_while_connecting_witness :
  exists w',
    exec (solo (Worker 0) [ROk; ROk; ROk; ROk; ROk; ROk; ROk; ROk; ROk])
         w_stopped_opening = Some w' /\
    workers w' !! 0 = Some W_done /\ connected w' = true.
Proof.
  destruct (stop_while_connecting w_stopped_opening 0 eq_refl eq_refl)
    as (w' & Hexec & Hdone & Hconn & _).
  exists w'. split; [exact Hexec|]. split; [exact Hdone | exact Hconn].
Defined.

(** One pass of the receive loop on a message that raises nothing. *)
Lemma inbound_pass (w : world) (t : tid) (s : sock) (i : inbound) :
  workers w !! t = Some W_inner -> ws w = Some s ->
  connected w = true -> should_run w = true -> inbound_ok i ->
  exists w',
    exec (solo (Worker t) (inbound_replies i)) w = Some w' /\
    trace w' = trace w ++ inbound_log t s i /\
    workers w' !! t = Some W_inner /\ ws w' = Some s /\
    connected w' = true /\ should_run w' = true /\
    callers w' = callers w /\ config w' = config w /\
    request_id w' = request_id w.
Proof.
  intros Hp Hws Hconn Hrun Hok.
  assert (Hlt : t < List.length (workers w)) by (eapply lookup_lt_Some; eauto).
  destruct w as [cfg ws0 th conn sr rid wk cl ns tr].
  cbn in Hp, Hws, Hconn, Hrun, Hlt. subst ws0 conn sr.
  unfold solo. destruct i as [|message m|message m d];
    cbn [inbound_replies inbound_log map trace callers config request_id];
    cbn [inbound_ok] in Hok.
  - do 2 run1. exec_done.
    eexists. split; [reflexivity|]. split; [reflexivity|].
    split; [at_pc|]. repeat split.
  - destruct Hok as [Hmsg Hev].
    assert (Htruthy : truthy message = true)
      by (destruct message; [congruence | reflexivity]).
    assert (Hroute : route (JObj m) = RouteIgnore).
    { unfold route. fold (is_event m). rewrite Hev. reflexivity. }
    do 4 run1. exec_done.
    eexists. split; [reflexivity|]. split; [reflexivity|].
    split; [at_pc|]. repeat split.
  - destruct Hok as (Hmsg & Hev & Hd).
    assert (Htruthy : truthy message = true)
      by (destruct message; [congruence | reflexivity]).
    assert (Hroute : route (JObj m) =
              RouteEvent (get_default "eventType" (JStr EmptyString) d)
                         (get_default "eventData" (JObj []) d)).
    { unfold route. fold (is_event m). rewrite Hev, Hd. reflexivity. }
    do 5 run1. exec_done. rewrite <- ?app_assoc. cbn [app].
    eexists. split; [reflexivity|]. split; [reflexivity|].
    split; [at_pc|]. repeat split.
Qed.

(** X3.  While the object stays connected and the run flag set, the worker
    handles a sequence of received messages in the order of their arrival:
    an empty message and a mapping that is no event are passed over, every
    event gives exactly one call of the event callback, right after its
    receipt and before the next message is read. *)
Theorem events_delivered_in_order (items : list inbound) :
  forall (w : world) (t : tid) (s : sock),
    workers w !! t = Some W_inner -> ws w = Some s ->
    connected w = true -> should_run w = true ->
    Forall inbound_ok items ->
    exists w',
      exec (solo (Worker t) (List.concat (map inbound_replies items))) w = Some w' /\
      trace w' = trace w ++ List.concat (map (inbound_log t s) items) /\
      workers w' !! t = Some W_inner /\ connected w' = true.
Proof.
  induction items as [|i items IH]; intros w t s Hp Hws Hconn Hrun Hok.
  - exists w. cbn. rewrite app_nil_r. repeat split; assumption.
  - apply Forall_cons_1 in Hok. destruct Hok as [Hi Hok].
    destruct (inbound_pass w t s i Hp Hws Hconn Hrun Hi)
      as (w1 & Hexec1 & Htr1 & Hp1 & Hws1 & Hconn1 & Hrun1 & _).
    destruct (IH w1 t s Hp1 Hws1 Hconn1 Hrun1 Hok)
      as (w' & Hexec & Htr & Hp' & Hconn').
    exists w'. cbn [map List.concat]. unfold solo in *.
    rewrite map_app, exec_app, Hexec1.
    split; [exact Hexec|]. split; [|split; assumption].
    rewrite Htr, Htr1, <- app_assoc. reflexivity.
Qed.

(** X3 on the example: an event, an empty message and a request response. *)
Lemma events_delivered_in_order_witness :
  exists w',
    exec (solo (Worker 0)
            [ROk; RMsg "record"; RJson record_event; ROk; ROk;
             ROk; RMsg EmptyString;
             ROk; RMsg "response"; RJson (JObj [("op", JInt 7)]); ROk])
         w_looping = Some w' /\
    trace w' = trace w_looping
      ++ [(Worker 0, ERecv 0 (Some "record"));
          (Worker 0, EEvent (JStr "RecordStateChanged")
                            (JObj [("outputActive", JBool true)]));
          (Worker 0, ERecv 0 (Some EmptyString));
          (Worker 0, ERecv 0 (Some "response"))].
Proof.
  destruct (events_delivered_in_order
              [InEvent "record"
                 [("op", JInt 5);
                  ("d", JObj [("eventType", JStr "RecordStateChanged");
                              ("eventData",
                               JObj [("outputActive", JBool true)])])]
                 [("eventType", JStr "RecordStateChanged");
                  ("eventData", JObj [("outputActive", JBool true)])];
               InEmpty;
               InOther "response" [("op", JInt 7)]]
              w_looping 0 0 eq_refl eq_refl eq_refl eq_refl)
    as (w' & Hexec & Htrace & _).
  { repeat constructor; discriminate. }
  exists w'. split; [exact Hexec | exact Htrace].
Defined.

Lemma close_logged_by (a : action) (w w' : world) (x : actor) (s : sock)
    (ok : bool) :
  step a w = Some w' -> trace w' = trace w ++ [(x, EClose s ok)] ->
  exists c r, a = Step (Caller c) r /\ x = Caller c /\
    callers w !! c = Some T_close /\ ws w = Some s /\
    callers w' !! c = Some Returned.
Proof.
  intros Hstep Htrace.
  destruct a as [[t|c] r|m]; cbn [step] in Hstep.
  - destruct (workers w !! t) as [p|] eqn:Hp; [|discriminate].
    exfalso. destruct w.
    destruct p; simpl in Hstep; split_step Hstep; simpl in Htrace;
      trace_absurd Htrace.
  - destruct (callers w !! c) as [p|] eqn:Hp; [|discriminate].
    exists c, r. split; [reflexivity|].
    assert (Hlt : c < List.length (callers w))
      by (eapply lookup_lt_Some; eauto).
    destruct w as [cfg ws0 th conn sr rid wk cl ns tr]. cbn in Hp, Hlt.
    destruct p; simpl in Hstep; split_step Hstep; simpl in Htrace;
      try (trace_absurd Htrace);
      apply app_inv_head in Htrace; injection Htrace as <- <- <-;
      (split; [reflexivity|]); (split; [exact Hp|]);
      (split; [reflexivity|]); cbn; apply list_lookup_insert_eq; exact Hlt.
  - injection Hstep as <-. destruct w; simpl in Htrace. trace_absurd Htrace.
Qed.

(** X7.  Nothing but [stop] closes a socket: in every world reached from
    [__init__], each [close] in the log was made by an activation of a
    method, never by a worker; it is made by line 160, on the socket the
    object holds at that moment, as the last statement of that [stop].  The
    worker loop closes neither the socket of a session it abandons nor its
    socket when it ends. *)
Theorem close_only_in_stop (cfg : Config) (w : world) :
  reachable cfg w ->
  (forall x s ok, In (x, EClose s ok) (trace w) -> exists c, x = Caller c) /\
  (forall a w' x s ok, step a w = Some w' ->
     trace w' = trace w ++ [(x, EClose s ok)] ->
     exists c r, a = Step (Caller c) r /\ x = Caller c /\
       callers w !! c = Some T_close /\ ws w = Some s /\
       callers w' !! c = Some Returned).
Proof.
  intros Hreach. split; [|intros a w' x s ok; apply close_logged_by].
  revert w Hreach.
  apply (reachable_invariant cfg
           (fun w => forall x s ok, In (x, EClose s ok) (trace w) ->
              exists c, x = Caller c)).
  - intros x s ok [].
  - intros a w w' IH Hstep x s ok Hin.
    destruct (step_trace _ _ _ Hstep) as [Heq|(y & e & Heq)];
      rewrite Heq in Hin; [apply (IH x s ok Hin)|].
    apply in_app_or in Hin. destruct Hin as [Hin|[Hin|[]]];
      [apply (IH x s ok Hin)|].
    injection Hin as -> ->.
    destruct (close_logged_by _ _ _ _ _ _ Hstep Heq) as (c & r & _ & -> & _).
    exists c. reflexivity.
Qed.

(** X7 on the example of a [stop()] on the connected object: the [close]
    of its log was made by that call. *)
Lemma close_only_in_stop_witness :
  exists c, Caller 1 = Caller c.
Proof.
  assert (Hreach : reachable DEFAULT_CONFIG (after sched_stop (init DEFAULT_CONFIG))).
  { exists sched_stop. vm_compute. reflexivity. }
  destruct (close_only_in_stop DEFAULT_CONFIG _ Hreach) as [H _].
  apply (H (Caller 1) 0 true). vm_compute.
  repeat (first [left; reflexivity | right]).
Defined.

(** * The overlay *)

Section Indicators.

Import Overlay.

Lemma set_color_lookup (label c : string) (inds : list (string * string)) :
  match set_color label c inds with
  | Some inds' =>
      lookup_indicator label inds <> None /\
      lookup_indicator label inds' = Some c /\
      forall label', label' <> label ->
        lookup_indicator label' inds' = lookup_indicator label' inds
  | None => lookup_indicator label inds = None
  end.
Proof.
  induction inds as [|[l c0] rest IH]; cbn; [reflexivity|].
  destruct (String.eqb label l) eqn:Hl.
  - cbn. rewrite Hl. split; [discriminate|]. split; [reflexivity|].
    intros label' Hne. apply String.eqb_eq in Hl. subst l.
    apply String.eqb_neq in Hne. rewrite Hne. reflexivity.
  - destruct (set_color label c rest) as [rest'|]; [|exact IH].
    destruct IH as (Hsome & Hget & Hother). cbn. rewrite Hl.
    split; [exact Hsome|]. split; [exact Hget|].
    intros label' Hne. destruct (String.eqb label' l); [reflexivity|].
    apply Hother. exact Hne.
Qed.

Lemma is_str_eq (v : json) (s : string) :
  is_str v s = true -> v = JStr s.
Proof.
  destruct v; try discriminate. cbn. intros H.
  apply String.eqb_eq in H. congruence.
Qed.

(** One branch on a consistent overlay. *)
Lemma handle_branch_record (ed : json) (o : overlay) :
  consistent o ->
  match ed with
  | JObj m =>
      exists o', handle_branch ed set_recording "Record" o = Returns o' /\
        consistent o' /\ status o' = status o /\
        recording_active o' = get_default "outputActive" (JBool false) m /\
        streaming_active o' = streaming_active o /\
        replay_active o' = replay_active o
  | _ => handle_branch ed set_recording "Record" o = Raises o
  end.
Proof.
  intros (Hr & Hs & Hp). destruct ed; try reflexivity.
  unfold handle_branch. cbn [obs_indicators set_recording].
  pose proof (set_color_lookup "Record"
                (colour (get_default "outputActive" (JBool false) m))
                (obs_indicators o)) as H.
  destruct (set_color "Record" _ (obs_indicators o)) as [inds|];
    [|congruence].
  destruct H as (_ & Hget & Hother).
  eexists. split; [reflexivity|]. cbn. repeat split; try assumption.
  - rewrite Hother by discriminate. exact Hs.
  - rewrite Hother by discriminate. exact Hp.
Qed.

Lemma handle_branch_stream (ed : json) (o : overlay) :
  consistent o ->
  match ed with
  | JObj m =>
      exists o', handle_branch ed set_streaming "Stream" o = Returns o' /\
        consistent o' /\ status o' = status o /\
        streaming_active o' = get_default "outputActive" (JBool false) m /\
        recording_active o' = recording_active o /\
        replay_active o' = replay_active o
  | _ => handle_branch ed set_streaming "Stream" o = Raises o
  end.
Proof.
  intros (Hr & Hs & Hp). destruct ed; try reflexivity.
  unfold handle_branch. cbn [obs_indicators set_streaming].
  pose proof (set_color_lookup "Stream"
                (colour (get_default "outputActive" (JBool false) m))
                (obs_indicators o)) as H.
  destruct (set_color "Stream" _ (obs_indicators o)) as [inds|];
    [|congruence].
  destruct H as (_ & Hget & Hother).
  eexists. split; [reflexivity|]. cbn. repeat split; try assumption.
  - rewrite Hother by discriminate. exact Hr.
  - rewrite Hother by discriminate. exact Hp.
Qed.

Lemma handle_branch_replay (ed : json) (o : overlay) :
  consistent o ->
  match ed with
  | JObj m =>
      exists o', handle_branch ed set_replay "Replay" o = Returns o' /\
        consistent o' /\ status o' = status o /\
        replay_active o' = get_default "outputActive" (JBool false) m /\
        recording_active o' = recording_active o /\
        streaming_active o' = streaming_active o
  | _ => handle_branch ed set_replay "Replay" o = Raises o
  end.
Proof.
  intros (Hr & Hs & Hp). destruct ed; try reflexivity.
  unfold handle_branch. cbn [obs_indicators set_replay].
  pose proof (set_color_lookup "Replay"
                (colour (get_default "outputActive" (JBool false) m))
                (obs_indicators o)) as H.
  destruct (set_color "Replay" _ (obs_indicators o)) as [inds|];
    [|congruence].
  destruct H as (_ & Hget & Hother).
  eexists. split; [reflexivity|]. cbn. repeat split; try assumption.
  - rewrite Hother by discriminate. exact Hr.
  - rewrite Hother by discriminate. exact Hs.
Qed.

(** X4.  On an overlay whose indicators show their flags,
    [handle_obs_event] raises exactly for one of its three event types with
    a payload that is no mapping, and then changes nothing; every other call
    returns, leaves the status label alone and leaves every indicator
    showing its flag. *)
Theorem handle_obs_event_consistent (event_type event_data : json)
    (o : overlay) :
  consistent o ->
  if bad_payload event_type event_data
  then handle_obs_event event_type event_data o = Raises o
  else exists o',
         handle_obs_event event_type event_data o = Returns o' /\
         consistent o' /\ status o' = status o.
Proof.
  intros Hc. unfold bad_payload, handle_obs_event.
  pose proof (handle_branch_record event_data o Hc) as H1.
  pose proof (handle_branch_stream event_data o Hc) as H2.
  pose proof (handle_branch_replay event_data o Hc) as H3.
  destruct (is_str event_type "RecordStateChanged");
    [|destruct (is_str event_type "StreamStateChanged");
      [|destruct (is_str event_type "ReplayBufferStateChanged")]];
    cbn [orb andb].
  - destruct event_data; try exact H1.
    destruct H1 as (o' & -> & ? & ? & _). eauto.
  - destruct event_data; try exact H2.
    destruct H2 as (o' & -> & ? & ? & _). eauto.
  - destruct event_data; try exact H3.
    destruct H3 as (o' & -> & ? & ? & _). eauto.
  - eauto.
Qed.

End Indicators.

(** X4 on the overlay as [setup_ui] leaves it, for "recording started". *)
Lemma handle_obs_event_consistent_witness :
  exists o',
    Overlay.handle_obs_event (JStr "RecordStateChanged")
      (JObj [("outputActive", JBool true)]) Overlay.initial
    = Overlay.Returns o' /\
    Overlay.consistent o'.
Proof.
  pose proof (handle_obs_event_consistent (JStr "RecordStateChanged")
                (JObj [("outputActive", JBool true)]) Overlay.initial) as H.
  cbn [Overlay.bad_payload Overlay.is_str String.eqb Ascii.eqb Bool.eqb
       orb andb] in H.
  destruct H as (o' & Ho' & Hc & _).
  - repeat split.
  - exists o'. split; [exact Ho' | exact Hc].
Defined.

(** X5.  A decoded frame that the router takes for an event of one of the
    three known types, with a payload that is a mapping or is missing, sets
    the flag of that type to [outputActive] of the payload, [False] when the
    key or the whole payload is missing, fills the indicator of that type
    accordingly, and changes neither another flag nor another indicator. *)
Theorem deliver_known_event (m d ed : list (string * json))
    (event_type label : string) (o : Overlay.overlay) :
  Overlay.consistent o ->
  is_event m = true -> get "d" m = Some (JObj d) ->
  In (event_type, label) known_events ->
  get "eventType" d = Some (JStr event_type) ->
  get_default "eventData" (JObj []) d = JObj ed ->
  let active := get_default "outputActive" (JBool false) ed in
  exists o',
    Overlay.deliver (JObj m) o = Overlay.Returns o' /\
    flag label o' = Some active /\
    Overlay.lookup_indicator label (Overlay.obs_indicators o')
      = Some (Overlay.colour active) /\
    (forall label', label' <> label ->
       flag label' o' = flag label' o /\
       Overlay.lookup_indicator label' (Overlay.obs_indicators o')
         = Overlay.lookup_indicator label' (Overlay.obs_indicators o)) /\
    (get "eventData" d = None \/ get "outputActive" ed = None ->
       active = JBool false /\ Overlay.colour active = Overlay.off_colour).
Proof.
  intros (Hr & Hs & Hp) Hev Hd Hin Het Hed active.
  assert (Hroute : route (JObj m) = RouteEvent (JStr event_type) (JObj ed)).
  { unfold route. fold (is_event m). rewrite Hev, Hd.
    unfold get_default at 1. rewrite Het. rewrite Hed. reflexivity. }
  assert (Hdefault : get "eventData" d = None \/ get "outputActive" ed = None ->
            active = JBool false /\ Overlay.colour active = Overlay.off_colour).
  { intros [Hnone|Hnone]; subst active.
    - unfold get_default in Hed. rewrite Hnone in Hed. injection Hed as <-.
      split; reflexivity.
    - unfold get_default. rewrite Hnone. split; reflexivity. }
  unfold Overlay.deliver. rewrite Hroute. unfold Overlay.handle_obs_event.
  cbn in Hin. destruct Hin as [Hin|[Hin|[Hin|[]]]]; injection Hin as <- <-;
    cbn [Overlay.is_str String.eqb Ascii.eqb Bool.eqb];
    unfold Overlay.handle_branch; cbn [Overlay.obs_indicators
      Overlay.set_recording Overlay.set_streaming Overlay.set_replay];
    fold active.
    pose proof (set_color_lookup "Record" (Overlay.colour active)
                  (Overlay.obs_indicators o)) as H.
    destruct (Overlay.set_color "Record" _ (Overlay.obs_indicators o));
      [|congruence].
    destruct H as (_ & Hget & Hother).
    eexists. split; [reflexivity|]. split; [reflexivity|].
    split; [exact Hget|]. split; [|exact Hdefault].
    intros label' Hne. split; [|apply Hother; exact Hne].
    unfold flag. apply String.eqb_neq in Hne. rewrite Hne. reflexivity.
  - pose proof (set_color_lookup "Stream" (Overlay.colour active)
                  (Overlay.obs_indicators o)) as H.
    destruct (Overlay.set_color "Stream" _ (Overlay.obs_indicators o));
      [|congruence].
    destruct H as (_ & Hget & Hother).
    eexists. split; [reflexivity|]. split; [reflexivity|].
    split; [exact Hget|]. split; [|exact Hdefault].
    intros label' Hne. split; [|apply Hother; exact Hne].
    unfold flag. apply String.eqb_neq in Hne. rewrite Hne.
    destruct (String.eqb label' "Record"); reflexivity.
  - pose proof (set_color_lookup "Replay" (Overlay.colour active)
                  (Overlay.obs_indicators o)) as H.
    destruct (Overlay.set_color "Replay" _ (Overlay.obs_indicators o));
      [|congruence].
    destruct H as (_ & Hget & Hother).
    eexists. split; [reflexivity|]. split; [reflexivity|].
    split; [exact Hget|]. split; [|exact Hdefault].
    intros label' Hne. split; [|apply Hother; exact Hne].
    unfold flag. apply String.eqb_neq in Hne. rewrite Hne.
    destruct (String.eqb label' "Record"); [reflexivity|].
    destruct (String.eqb label' "Stream"); reflexivity.
Qed.

(** X5 on an event frame that has no payload at all: recording is off. *)
Lemma deliver_known_event_witness :
  exists o',
    Overlay.deliver
      (JObj [("op", JInt 5);
             ("d", JObj [("eventType", JStr "RecordStateChanged")])])
      Overlay.initial = Overlay.Returns o' /\
    flag "Record" o' = Some (JBool false) /\
    Overlay.lookup_indicator "Record" (Overlay.obs_indicators o')
      = Some Overlay.off_colour.
Proof.
  destruct (deliver_known_event
              [("op", JInt 5);
               ("d", JObj [("eventType", JStr "RecordStateChanged")])]
              [("eventType", JStr "RecordStateChanged")] []
              "RecordStateChanged" "Record" Overlay.initial)
    as (o' & Ho' & Hflag & Hind & _).
  - repeat split.
  - reflexivity.
  - reflexivity.
  - left. reflexivity.
  - reflexivity.
  - reflexivity.
  - exists o'. split; [exact Ho'|]. split; [exact Hflag | exact Hind].
Defined.

(** The status texts of a log. *)
Lemma status_strings (cfg : Config) (w : world) :
  reachable cfg w ->
  forall x s, In (x, EStatus s) (trace w) ->
    s = "Connected" \/ s = "Reconnecting..." \/ s = "Disconnected".
Proof.
  revert w.
  apply (reachable_invariant cfg
           (fun w => forall x s, In (x, EStatus s) (trace w) ->
              s = "Connected" \/ s = "Reconnecting..." \/ s = "Disconnected")).
  - intros x s [].
  - intros a w w' IH Hstep x s Hin.
    destruct (step_trace _ _ _ Hstep) as [Heq|(y & e & Heq)];
      rewrite Heq in Hin; [apply (IH x s Hin)|].
    apply in_app_or in Hin. destruct Hin as [Hin|[Hin|[]]];
      [apply (IH x s Hin)|].
    injection Hin as -> ->.
    destruct (status_logged_by _ _ _ _ _ Hstep Heq)
      as [(t & r & _ & _ & [[_ ->]|[_ ->]])|(c & r & _ & _ & _ & ->)]; auto.
Qed.

Lemma replay_snoc (tr : list (actor * event)) (x : actor * event)
    (o : Overlay.overlay) :
  Overlay.replay (tr ++ [x]) o
  = Overlay.replay_entry (Overlay.replay tr o) x.
Proof. unfold Overlay.replay. rewrite fold_left_app. reflexivity. Qed.

Lemma replay_entry_consistent (o : Overlay.overlay) (x : actor * event) :
  Overlay.consistent o -> Overlay.consistent (Overlay.replay_entry o x).
Proof.
  intros Hc. destruct x as [a e]. unfold Overlay.replay_entry. cbn [snd].
  destruct e; try exact Hc.
  pose proof (handle_obs_event_consistent event_type event_data o Hc) as H.
  destruct (Overlay.bad_payload event_type event_data).
  - rewrite H. exact Hc.
  - destruct H as (o' & -> & Hc' & _). exact Hc'.
Qed.

Lemma replay_entry_status (o : Overlay.overlay) (x : actor * event) :
  Overlay.consistent o ->
  Overlay.status (Overlay.replay_entry o x) =
  match snd x with
  | EStatus s => ("OBS: " ++ s)%string
  | _ => Overlay.status o
  end.
Proof.
  intros Hc. destruct x as [a e]. unfold Overlay.replay_entry. cbn [snd].
  destruct e; try reflexivity.
  pose proof (handle_obs_event_consistent event_type event_data o Hc) as H.
  destruct (Overlay.bad_payload event_type event_data).
  - rewrite H. reflexivity.
  - destruct H as (o' & -> & _ & Hs). exact Hs.
Qed.

(** X6.  Whatever the connection does, when the calls of its two callbacks
    are made on the overlay one after the other, every indicator of the
    overlay shows its flag, and the status label reads "Connecting...",
    "OBS: Connected", "OBS: Reconnecting..." or "OBS: Disconnected". *)
Theorem overlay_follows_connection (cfg : Config) (w : world) :
  reachable cfg w ->
  Overlay.consistent (Overlay.replay (trace w) Overlay.initial) /\
  In (Overlay.status (Overlay.replay (trace w) Overlay.initial)) status_texts.
Proof.
  intros Hreach. pose proof (status_strings cfg w Hreach) as Hst.
  clear Hreach. revert Hst.
  induction (trace w) as [|x tr IH] using rev_ind; intros Hst.
  - split; [repeat split | left; reflexivity].
  - destruct IH as [Hc Hs].
    { intros y s Hin. apply (Hst y s). apply in_or_app. left. exact Hin. }
    rewrite replay_snoc. split; [apply replay_entry_consistent; exact Hc|].
    rewrite (replay_entry_status _ _ Hc). destruct x as [a e]. cbn [snd].
    destruct e; try exact Hs.
    destruct (Hst a status) as [->|[->| ->]].
    + apply in_or_app. right. left. reflexivity.
    + right. left. reflexivity.
    + right. right. left. reflexivity.
    + right. right. right. left. reflexivity.
Qed.

(** X6 on the example of a [stop()] followed by a failing [send]. *)
Lemma overlay_follows_connection_witness :
  Overlay.status
    (Overlay.replay
       (trace (after (sched_stop ++ sched_send_after_stop)
                     (init DEFAULT_CONFIG)))
       Overlay.initial) = "OBS: Disconnected" /\
  In "OBS: Disconnected" status_texts.
Proof.
  split; [vm_compute; reflexivity|].
  assert (Hreach : reachable DEFAULT_CONFIG
            (after (sched_stop ++ sched_send_after_stop) (init DEFAULT_CONFIG))).
  { exists (sched_stop ++ sched_send_after_stop). vm_compute. reflexivity. }
  destruct (overlay_follows_connection DEFAULT_CONFIG _ Hreach) as [_ H].
  vm_compute in H. vm_compute. exact H.
Defined.

(** * The hotkey *)

Section StringOrder.

Lemma ascii_compare_refl (a : ascii) : Ascii.compare a a = Eq.
Proof. unfold Ascii.compare. apply N.compare_refl. Qed.

Lemma ascii_compare_lt_trans (a b c : ascii) :
  Ascii.compare a b = Lt -> Ascii.compare b c = Lt -> Ascii.compare a c = Lt.
Proof.
  unfold Ascii.compare. rewrite !N.compare_lt_iff. apply N.lt_trans.
Qed.

Lemma string_compare_lt_trans (a : string) :
  forall b c, String.compare a b = Lt -> String.compare b c = Lt ->
    String.compare a c = Lt.
Proof.
  induction a as [|x a IH]; intros [|y b] [|z c]; cbn; try congruence.
  destruct (Ascii.compare x y) eqn:Hxy; try discriminate;
    destruct (Ascii.compare y z) eqn:Hyz; try discriminate.
  - apply Ascii.compare_eq_iff in Hxy, Hyz. subst.
    rewrite ascii_compare_refl. apply IH.
  - apply Ascii.compare_eq_iff in Hxy. subst. rewrite Hyz. reflexivity.
  - apply Ascii.compare_eq_iff in Hyz. subst. rewrite Hxy. reflexivity.
  - rewrite (ascii_compare_lt_trans _ _ _ Hxy Hyz). reflexivity.
Qed.

Lemma str_le_cases (a b : string) :
  Hotkey.str_le a b <-> a = b \/ String.compare a b = Lt.
Proof.
  unfold Hotkey.str_le, String.leb. split.
  - destruct (String.compare a b) eqn:H; try discriminate; auto.
    left. apply String.compare_eq_iff. exact H.
  - intros [->| ->]; [|reflexivity].
    assert (H : String.compare b b = Eq).
    { induction b as [|x b IH]; cbn; [reflexivity|].
      rewrite ascii_compare_refl. exact IH. }
    rewrite H. reflexivity.
Qed.

#[local] Instance str_le_trans : Transitive Hotkey.str_le.
Proof.
  intros a b c Hab Hbc. apply str_le_cases in Hab, Hbc. apply str_le_cases.
  destruct Hab as [->|Hab]; [exact Hbc|].
  destruct Hbc as [<-|Hbc]; [right; exact Hab|].
  right. eapply string_compare_lt_trans; eauto.
Qed.

#[local] Instance str_le_total : Total Hotkey.str_le.
Proof. intros a b. apply String.leb_total. Qed.

#[local] Instance str_le_antisym : AntiSymm (=) Hotkey.str_le.
Proof. intros a b. apply String.leb_antisym. Qed.

Lemma str_lt_of_le (a b : string) :
  Hotkey.str_le a b -> a <> b -> Hotkey.str_lt a b.
Proof.
  intros Hle Hne. apply str_le_cases in Hle. destruct Hle as [|H]; [tauto|].
  unfold Hotkey.str_lt, String.ltb. rewrite H. reflexivity.
Qed.

Lemma strictly_sorted (l : list string) :
  StronglySorted Hotkey.str_le l -> NoDup l ->
  StronglySorted Hotkey.str_lt l.
Proof.
  induction 1 as [|x l Hs IH Hall]; intros Hnd; constructor.
  - apply IH. apply NoDup_cons in Hnd. tauto.
  - apply NoDup_cons in Hnd. destruct Hnd as [Hx _].
    rewrite Forall_forall in Hall |- *. intros y Hy.
    apply str_lt_of_le; [apply (Hall y Hy)|].
    intros ->. apply Hx. exact Hy.
Qed.

Lemma sorted_unique (l1 l2 : list string) :
  NoDup l1 -> NoDup l2 -> (forall x, In x l1 <-> In x l2) ->
  Hotkey.sorted l1 = Hotkey.sorted l2.
Proof.
  intros H1 H2 Hin. unfold Hotkey.sorted.
  apply (Sorted_unique Hotkey.str_le); try apply Sorted_merge_sort; try apply _.
  rewrite !merge_sort_Permutation.
  apply NoDup_Permutation; try assumption.
  intros x. rewrite !list_elem_of_In. apply Hin.
Qed.

Lemma sorted_In (l : list string) (x : string) :
  In x (Hotkey.sorted l) <-> In x l.
Proof.
  unfold Hotkey.sorted. rewrite <- !list_elem_of_In.
  rewrite (merge_sort_Permutation Hotkey.str_le l). reflexivity.
Qed.

Lemma sorted_NoDup (l : list string) : NoDup l -> NoDup (Hotkey.sorted l).
Proof.
  unfold Hotkey.sorted. intros H.
  rewrite (merge_sort_Permutation Hotkey.str_le l). exact H.
Qed.

Lemma sorted_strongly (l : list string) :
  StronglySorted Hotkey.str_le (Hotkey.sorted l).
Proof. unfold Hotkey.sorted. apply StronglySorted_merge_sort; apply _. Qed.

End StringOrder.

Section Sets.

Lemma set_add_In (x y : string) (s : list string) :
  In y (Hotkey.set_add x s) <-> y = x \/ In y s.
Proof.
  unfold Hotkey.set_add. destruct (existsb (String.eqb x) s) eqn:Hex.
  - apply existsb_exists in Hex. destruct Hex as (z & Hz & Heq).
    apply String.eqb_eq in Heq. subst z. split; [auto|].
    intros [->|H]; assumption.
  - rewrite in_app_iff. cbn. split; [intros [H|[H|[]]]; auto|].
    intros [->|H]; auto.
Qed.

Lemma set_add_NoDup (x : string) (s : list string) :
  NoDup s -> NoDup (Hotkey.set_add x s).
Proof.
  intros Hnd. unfold Hotkey.set_add.
  destruct (existsb (String.eqb x) s) eqn:Hex; [exact Hnd|].
  apply NoDup_app. split; [exact Hnd|]. split; [|apply NoDup_singleton].
  intros y Hy Hx. apply list_elem_of_In in Hy.
  apply list_elem_of_In in Hx. destruct Hx as [<-|[]].
  assert (Htrue : existsb (String.eqb x) s = true).
  { apply existsb_exists. exists x. split; [exact Hy|]. apply String.eqb_refl. }
  congruence.
Qed.

Lemma fold_set_add (f : string -> string) (l : list string) :
  forall acc, NoDup acc ->
    NoDup (fold_left (fun acc k => Hotkey.set_add (f k) acc) l acc) /\
    forall y, In y (fold_left (fun acc k => Hotkey.set_add (f k) acc) l acc)
      <-> In y acc \/ exists k, In k l /\ f k = y.
Proof.
  induction l as [|k l IH]; intros acc Hnd; cbn [fold_left].
  - split; [exact Hnd|]. intros y. split; [auto|].
    intros [H|(k & [] & _)]. exact H.
  - destruct (IH (Hotkey.set_add (f k) acc) (set_add_NoDup _ _ Hnd))
      as [Hnd' Hin].
    split; [exact Hnd'|]. intros y. rewrite Hin, set_add_In. split.
    + intros [[->|H]|(k' & Hk' & <-)]; [right|left|right]; eauto.
      * exists k. split; [left|]; reflexivity.
      * exists k'. split; [right; exact Hk' | reflexivity].
    + intros [H|(k' & [<-|Hk'] & <-)]; [left; right; exact H|left; left|right];
        eauto.
Qed.

Lemma set_of_NoDup (l : list string) :
  NoDup l -> Hotkey.set_of l = l.
Proof.
  unfold Hotkey.set_of.
  assert (H : forall acc, NoDup (acc ++ l) ->
            fold_left (fun acc x => Hotkey.set_add x acc) l acc = acc ++ l).
  { induction l as [|x l IH]; intros acc Hnd; cbn [fold_left].
    - rewrite app_nil_r. reflexivity.
    - assert (Hx : existsb (String.eqb x) acc = false).
      { destruct (existsb (String.eqb x) acc) eqn:Hex; [|reflexivity].
        apply existsb_exists in Hex. destruct Hex as (z & Hz & Heq).
        apply String.eqb_eq in Heq. subst z.
        apply NoDup_app in Hnd. destruct Hnd as (_ & Hd & _).
        exfalso. apply (Hd x); [apply list_elem_of_In; exact Hz|].
        apply list_elem_of_In. left. reflexivity. }
      unfold Hotkey.set_add at 2. rewrite Hx. rewrite IH.
      + rewrite <- app_assoc. reflexivity.
      + rewrite <- app_assoc. exact Hnd. }
  intros Hnd. apply (H []). exact Hnd.
Qed.

End Sets.

Section Normalize.

Variable lower : string -> string.

Lemma normalized_spec (keys : list string) :
  NoDup (Hotkey.normalized lower keys) /\
  forall y, In y (Hotkey.normalized lower keys)
    <-> exists k, In k keys /\ Hotkey.key_name lower k = y.
Proof.
  destruct (fold_set_add (Hotkey.key_name lower) keys [] (NoDup_nil_2))
    as [Hnd Hin].
  split; [exact Hnd|]. intros y. unfold Hotkey.normalized. rewrite Hin.
  split; [intros [[]|H]; exact H | auto].
Qed.

(** A name that [key_map] gives, or a name it does not know, is not one of
    its keys. *)
Lemma key_name_not_variant (k : string) :
  Hotkey.dict_get (Hotkey.key_name lower k) Hotkey.key_map
                  (Hotkey.key_name lower k)
  = Hotkey.key_name lower k.
Proof.
  unfold Hotkey.key_name. generalize (lower k). intros lk.
  unfold Hotkey.key_map. cbn [Hotkey.dict_get].
  repeat match goal with
         | |- context [String.eqb lk ?s] =>
             destruct (String.eqb_spec lk s) as [->|]; [reflexivity|]
         end.
  cbn [Hotkey.dict_get].
  repeat match goal with
         | |- context [String.eqb lk ?s] =>
             destruct (String.eqb_spec lk s) as [->|]; [congruence|]
         end.
  reflexivity.
Qed.

(** X8.  [normalize_hotkey_keys] depends on the set of keys only, not on the
    order in which the set is visited nor on repetitions; the names it joins
    are in strictly increasing order, each once; and none of them is a key
    of [key_map] (shift_l, shift_r, ctrl_l, ...): the left and right variants
    of a modifier never appear in the result. *)
Theorem normalize_hotkey_keys_set (keys1 keys2 : list string) :
  (forall k, In k keys1 <-> In k keys2) ->
  Hotkey.normalize_hotkey_keys lower keys1
    = Hotkey.normalize_hotkey_keys lower keys2 /\
  StronglySorted Hotkey.str_lt
    (Hotkey.sorted (Hotkey.normalized lower keys1)) /\
  (forall name, In name (Hotkey.sorted (Hotkey.normalized lower keys1)) ->
     Hotkey.dict_get name Hotkey.key_map name = name).
Proof.
  intros Hsame.
  destruct (normalized_spec keys1) as [Hnd1 Hin1].
  destruct (normalized_spec keys2) as [Hnd2 Hin2].
  split; [|split].
  - unfold Hotkey.normalize_hotkey_keys. f_equal.
    apply sorted_unique; try assumption.
    intros x. rewrite Hin1, Hin2. split; intros (k & Hk & Hx); exists k;
      (split; [apply Hsame; exact Hk | exact Hx]).
  - apply strictly_sorted; [|apply sorted_NoDup; exact Hnd1].
    apply sorted_strongly.
  - intros name Hname. apply (proj1 (sorted_In _ _)) in Hname.
    apply (proj1 (Hin1 _)) in Hname.
    destruct Hname as (k & _ & <-). apply key_name_not_variant.
Qed.

Lemma split_no_sep (sep : ascii) (x : string) :
  Hotkey.has_char sep x = false -> Hotkey.split sep x = [x].
Proof.
  induction x as [|c x IH]; cbn; [reflexivity|]. intros H.
  apply orb_false_elim in H. destruct H as [Hc Hx].
  rewrite Hc, (IH Hx). reflexivity.
Qed.

Lemma split_app (sep : ascii) (x s : string) :
  Hotkey.has_char sep x = false ->
  Hotkey.split sep (x ++ String sep s)%string = x :: Hotkey.split sep s.
Proof.
  induction x as [|c x IH]; cbn.
  - rewrite Ascii.eqb_refl. reflexivity.
  - intros H. apply orb_false_elim in H. destruct H as [Hc Hx].
    rewrite Hc, (IH Hx). reflexivity.
Qed.

Lemma split_join (l : list string) :
  l <> [] -> (forall x, In x l -> Hotkey.has_char Hotkey.plus x = false) ->
  Hotkey.split Hotkey.plus (String.concat "+" l) = l.
Proof.
  induction l as [|x l IH]; intros Hne Hall; [congruence|].
  destruct l as [|y l].
  - cbn. apply split_no_sep. apply Hall. left. reflexivity.
  - change (String.concat "+" (x :: y :: l))
      with (x ++ String Hotkey.plus (String.concat "+" (y :: l)))%string.
    rewrite split_app by (apply Hall; left; reflexivity).
    f_equal. apply IH; [discriminate|].
    intros z Hz. apply Hall. right. exact Hz.
Qed.

(** X9.  For a set of keys that is not empty and of which no registered name
    contains "+", and when lower-casing leaves the normalized text as it is,
    [parse_hotkey_to_set] of [normalize_hotkey_keys] gives back the set of
    the registered names.  For the empty set it does not: the text is empty
    and its parse is the set that holds the empty name. *)
Theorem parse_normalize_round_trip (keys : list string) :
  let text := Hotkey.normalize_hotkey_keys lower keys in
  (keys <> [] ->
   (forall name, In name (Hotkey.normalized lower keys) ->
      Hotkey.has_char Hotkey.plus name = false) ->
   lower text = text ->
   NoDup (Hotkey.parse_hotkey_to_set lower text) /\
   forall name, In name (Hotkey.parse_hotkey_to_set lower text)
     <-> In name (Hotkey.normalized lower keys)) /\
  (keys = [] -> lower EmptyString = EmptyString ->
   text = EmptyString /\
   Hotkey.parse_hotkey_to_set lower text = [EmptyString]).
Proof.
  intros text. split.
  - intros Hne Hplus Hlower.
    destruct (normalized_spec keys) as [Hnd Hin].
    assert (Hnorm : Hotkey.sorted (Hotkey.normalized lower keys) <> []).
    { destruct keys as [|k keys]; [congruence|].
      intros Hnil.
      assert (H : In (Hotkey.key_name lower k)
                     (Hotkey.sorted (Hotkey.normalized lower (k :: keys)))).
      { apply (proj2 (sorted_In _ _)). apply (proj2 (Hin _)).
        exists k. split; [left|]; reflexivity. }
      rewrite Hnil in H. destruct H. }
    unfold Hotkey.parse_hotkey_to_set. rewrite Hlower. subst text.
    unfold Hotkey.normalize_hotkey_keys. rewrite split_join.
    + rewrite set_of_NoDup by (apply sorted_NoDup; exact Hnd).
      split; [apply sorted_NoDup; exact Hnd|]. intros name. apply sorted_In.
    + exact Hnorm.
    + intros x Hx. apply Hplus. apply (proj1 (sorted_In _ _)). exact Hx.
  - intros -> Hlower. subst text. split; [reflexivity|].
    unfold Hotkey.parse_hotkey_to_set. cbn. rewrite Hlower. reflexivity.
Qed.

End Normalize.

(** X8 on a set visited in two orders, with a repetition. *)
Lemma normalize_hotkey_keys_set_witness :
  Hotkey.normalize_hotkey_keys Hotkey.ascii_lower ["Shift_R"; "f1"; "shift_l"]
  = Hotkey.normalize_hotkey_keys Hotkey.ascii_lower
      ["shift_l"; "Shift_R"; "f1"; "f1"].
Proof.
  apply (normalize_hotkey_keys_set Hotkey.ascii_lower).
  intros k. cbn. tauto.
Defined.

(** X9 on the keys f1 and right shift: "shift" is in the parsed set. *)
Lemma parse_normalize_round_trip_witness :
  In "shift"
     (Hotkey.parse_hotkey_to_set Hotkey.ascii_lower
        (Hotkey.normalize_hotkey_keys Hotkey.ascii_lower ["Shift_R"; "f1"])).
Proof.
  destruct (parse_normalize_round_trip Hotkey.ascii_lower ["Shift_R"; "f1"])
    as [H _].
  destruct H as [_ Hiff].
  - discriminate.
  - intros name Hname. vm_compute in Hname.
    destruct Hname as [<-|[<-|[]]]; reflexivity.
  - reflexivity.
  - apply (proj2 (Hiff "shift")). vm_compute. left. reflexivity.
Defined.

Section Capture.

Variable lower : string -> string.

Import Hotkey.

Lemma stop_hotkey_capture_hooked (s : capture) :
  hooks s = 1 -> List.length (registered s) <= 1 ->
  exists s', stop_hotkey_capture s = Returns s' /\
    hooked_while_listening s' /\ listening_for_hotkey s' = false /\
    hotkey s' = hotkey s /\ hotkey_button s' = hotkey_button s /\
    saved_hotkey s' = saved_hotkey s /\
    current_hotkey_keys s' = current_hotkey_keys s /\
    registered s' = registered s.
Proof.
  intros Hh Hreg. unfold stop_hotkey_capture. rewrite Hh.
  eexists. split; [reflexivity|]. cbn. repeat split; auto.
Qed.

Lemma register_global_hotkey_length (a : answers) (h : string)
    (reg : list string) :
  List.length reg <= 1 ->
  List.length (register_global_hotkey a h reg) <= 1.
Proof.
  intros H. unfold register_global_hotkey.
  destruct (unhook_all_ok a); [destruct (add_ok a)|]; cbn; lia.
Qed.

Lemma react_invariant (i : input) (s : capture) :
  hooked_while_listening s ->
  hooked_while_listening (state_of (react lower i s)) /\
  no_key_error lower i s.
Proof.
  intros (Hh & Hshown & Hkeys & Hreg). unfold no_key_error.
  destruct i as [|event_type name|a|]; cbn [react].
  - split; [|exact I]. cbn [state_of]. unfold start_hotkey_capture.
    destruct (listening_for_hotkey s) eqn:Hl.
    + unfold hooked_while_listening. rewrite Hl. auto.
    + unfold hooked_while_listening. cbn. rewrite Hh.
      repeat split; try discriminate. exact Hreg.
  - destruct (hooks s) as [|n] eqn:Hn.
    + split; [|exact I]. cbn [state_of].
      unfold hooked_while_listening. rewrite Hn. auto.
    + split; [|exact I]. cbn [state_of]. unfold capture_hotkey_event.
      destruct (listening_for_hotkey s) eqn:Hl; [|discriminate Hh].
      destruct (String.eqb event_type "down");
        unfold hooked_while_listening; cbn; rewrite ?Hl, ?Hn;
        repeat split; auto; discriminate.
  - destruct (done_cancel_shown s) eqn:Hs.
    + assert (Hl : listening_for_hotkey s = true) by congruence.
      rewrite Hl in Hh. unfold finish_hotkey_capture.
      destruct (new_hotkey_keys s) as [|k keys] eqn:Hk.
      * unfold cancel_hotkey_capture.
        destruct (stop_hotkey_capture_hooked (set_button (hotkey s) s) Hh Hreg)
          as (s' & -> & Hinv & _). split; [exact Hinv | exact I].
      * unfold on_hotkey_change. destruct (save_ok a) eqn:Hsave.
        -- match goal with
           | |- context [stop_hotkey_capture ?x] =>
               destruct (stop_hotkey_capture_hooked x Hh) as (s' & -> & Hinv & _)
           end.
           { cbn. apply register_global_hotkey_length. exact Hreg. }
           split; [exact Hinv | exact I].
        -- split; [|exists a; split; [reflexivity | exact Hsave]].
           unfold hooked_while_listening. cbn. rewrite Hl, Hs.
           repeat split; auto. discriminate.
    + split; [|exact I]. cbn [state_of].
      unfold hooked_while_listening. rewrite Hs. auto.
  - destruct (done_cancel_shown s) eqn:Hs.
    + assert (Hl : listening_for_hotkey s = true) by congruence.
      rewrite Hl in Hh. unfold cancel_hotkey_capture.
      destruct (stop_hotkey_capture_hooked (set_button (hotkey s) s) Hh Hreg)
        as (s' & -> & Hinv & _). split; [exact Hinv | exact I].
    + split; [|exact I]. cbn [state_of].
      unfold hooked_while_listening. rewrite Hs. auto.
Qed.

(** X10.  From the state [__init__] leaves, whatever the user and the
    keyboard do, [capture_hotkey_event] is hooked exactly while a capture is
    going on, Done and Cancel are shown exactly then, no key is held back
    outside a capture, at most one global hotkey is registered, and
    [keyboard.unhook] is never called without a hook: the only exception an
    input can end with is one of [save_config]. *)
Theorem capture_hooked_while_listening (configured : string)
    (reg : list string) (inputs : list input) :
  List.length reg <= 1 ->
  hooked_while_listening (run lower inputs (initial lower configured reg)) /\
  forall before i later, inputs = before ++ i :: later ->
    no_key_error lower i (run lower before (initial lower configured reg)).
Proof.
  intros Hreg.
  assert (Hinit : hooked_while_listening (initial lower configured reg)).
  { cbn. repeat split; auto. }
  generalize dependent (initial lower configured reg). clear Hreg.
  intros s0 Hinit.
  assert (Hrun : forall l s, hooked_while_listening s ->
                   hooked_while_listening (run lower l s)).
  { induction l as [|i l IH]; intros s Hs; [exact Hs|].
    cbn. apply IH. apply (react_invariant i s Hs). }
  split; [apply Hrun; exact Hinit|].
  intros before i later _. apply react_invariant. apply Hrun. exact Hinit.
Qed.

(** X11.  What Done does during a capture.  With no key captured it is a
    Cancel: hotkey, file, parsed keys and registration stay.  With keys and
    a successful [save_config], the hotkey becomes the normalized text, also
    on the button and in the file, the parsed keys are those of that text,
    and the registration is replaced: by the new hotkey when the library
    accepts it, by nothing when it rejects it, so that a rejected hotkey is
    configured and saved while no global hotkey is left.  When [save_config]
    raises, the configuration in memory has the new hotkey already, the
    parsed keys and the registration are the old ones, and the capture goes
    on. *)
Theorem finish_hotkey_capture_cases (a : answers) (s : capture) :
  hooked_while_listening s -> listening_for_hotkey s = true ->
  let text := normalize_hotkey_keys lower (new_hotkey_keys s) in
  (new_hotkey_keys s = [] ->
     exists s', finish_hotkey_capture lower a s = Returns s' /\
       listening_for_hotkey s' = false /\ hotkey s' = hotkey s /\
       hotkey_button s' = hotkey s /\ saved_hotkey s' = saved_hotkey s /\
       current_hotkey_keys s' = current_hotkey_keys s /\
       registered s' = registered s) /\
  (new_hotkey_keys s <> [] -> save_ok a = true ->
     exists s', finish_hotkey_capture lower a s = Returns s' /\
       listening_for_hotkey s' = false /\ hotkey s' = text /\
       hotkey_button s' = text /\ saved_hotkey s' = Some text /\
       current_hotkey_keys s' = parse_hotkey_to_set lower text /\
       registered s' =
         (if unhook_all_ok a
          then if add_ok a then [text] else []
          else registered s)) /\
  (new_hotkey_keys s <> [] -> save_ok a = false ->
     exists s', finish_hotkey_capture lower a s = Raises s' /\
       listening_for_hotkey s' = true /\ hooks s' = 1 /\ hotkey s' = text /\
       saved_hotkey s' = None /\
       current_hotkey_keys s' = current_hotkey_keys s /\
       registered s' = registered s).
Proof.
  intros (Hh & Hshown & Hkeys & Hreg) Hl text. rewrite Hl in Hh.
  unfold finish_hotkey_capture. split; [|split].
  - intros ->. unfold cancel_hotkey_capture.
    destruct (stop_hotkey_capture_hooked (set_button (hotkey s) s) Hh Hreg)
      as (s' & -> & _ & H1 & H2 & H3 & H4 & H5 & H6).
    exists s'. repeat split; assumption.
  - intros Hne Hsave. destruct (new_hotkey_keys s) as [|k keys] eqn:Hk;
      [congruence|].
    unfold on_hotkey_change. rewrite Hsave.
    match goal with
    | |- context [stop_hotkey_capture ?x] =>
        destruct (stop_hotkey_capture_hooked x Hh)
          as (s' & -> & _ & H1 & H2 & H3 & H4 & H5 & H6)
    end.
    { cbn. apply register_global_hotkey_length. exact Hreg. }
    exists s'. repeat split; assumption.
  - intros Hne Hsave. destruct (new_hotkey_keys s) as [|k keys] eqn:Hk;
      [congruence|].
    unfold on_hotkey_change. rewrite Hsave.
    eexists. split; [reflexivity|]. cbn. repeat split; assumption.
Qed.

End Capture.

(** X10 on a capture of shift and f1 that is confirmed. *)
Lemma capture_hooked_while_listening_witness :
  Hotkey.hooked_while_listening
    (Hotkey.run Hotkey.ascii_lower
       [Hotkey.Press_button; Hotkey.Key "down" "shift_l";
        Hotkey.Key "down" "F1"; Hotkey.Key "up" "F1";
        Hotkey.Done {| Hotkey.save_ok := true; Hotkey.unhook_all_ok := true;
                       Hotkey.add_ok := true |}]
       (Hotkey.initial Hotkey.ascii_lower "f1+shift" ["f1+shift"])).
Proof.
  apply (capture_hooked_while_listening Hotkey.ascii_lower). cbn. lia.
Defined.

(** X11 on the same capture when the library rejects the new hotkey. *)
Lemma finish_hotkey_capture_cases_witness :
  exists s',
    Hotkey.finish_hotkey_capture Hotkey.ascii_lower
      {| Hotkey.save_ok := true; Hotkey.unhook_all_ok := true;
         Hotkey.add_ok := false |}
      (Hotkey.run Hotkey.ascii_lower
         [Hotkey.Press_button; Hotkey.Key "down" "shift_l";
          Hotkey.Key "down" "F1"]
         (Hotkey.initial Hotkey.ascii_lower "f1+shift" ["f1+shift"]))
    = Hotkey.Returns s' /\
    Hotkey.hotkey s' = "f1+shift" /\ Hotkey.registered s' = [].
Proof.
  destruct (finish_hotkey_capture_cases Hotkey.ascii_lower
              {| Hotkey.save_ok := true; Hotkey.unhook_all_ok := true;
                 Hotkey.add_ok := false |}
              (Hotkey.run Hotkey.ascii_lower
                 [Hotkey.Press_button; Hotkey.Key "down" "shift_l";
                  Hotkey.Key "down" "F1"]
                 (Hotkey.initial Hotkey.ascii_lower "f1+shift" ["f1+shift"])))
    as (_ & H & _).
  - vm_compute. repeat split; try discriminate; lia.
  - reflexivity.
  - destruct H as (s' & Hs' & _ & Hh & _ & _ & _ & Hr).
    + vm_compute. discriminate.
    + reflexivity.
    + exists s'. split; [exact Hs'|]. split; [exact Hh | exact Hr].
Defined.

(** * The volume clamp, the click-through style and the settings form *)

Section VolumeFacts.
Import Pynum.

Lemma pow2_pos (k : Z) : (0 <= k -> 0 < 2 ^ k)%Z.
Proof. intros H. apply Z.pow_pos_nonneg; lia. Qed.

Lemma lt_Int (a b : Z) : lt (Int a) (Int b) = (a <? b)%Z.
Proof.
  unfold lt, dyadic_lt. cbn. rewrite !Z.mul_1_r. reflexivity.
Qed.

Lemma lt_negative_one (m : positive) (e : Z) :
  lt (Float (S754_finite true m e)) (Int 1) = true.
Proof.
  unfold lt, dyadic_lt. cbn [value_of].
  apply Z.ltb_lt.
  assert (0 < 2 ^ (e - Z.min e 0))%Z by (apply pow2_pos; lia).
  assert (0 < 2 ^ (0 - Z.min e 0))%Z by (apply pow2_pos; lia).
  nia.
Qed.

Lemma lt_zero_negative (m : positive) (e : Z) :
  lt (Int 0) (Float (S754_finite true m e)) = false.
Proof.
  unfold lt, dyadic_lt. cbn [value_of].
  apply Z.ltb_ge.
  assert (0 < 2 ^ (e - Z.min 0 e))%Z by (apply pow2_pos; lia).
  nia.
Qed.

Lemma set_volume_high (level : number) :
  lt level (Int 1) = false -> Volume.set_volume level = Int 1.
Proof.
  intros H. unfold Volume.set_volume, min2. rewrite H. reflexivity.
Qed.

Lemma set_volume_low (level : number) :
  lt level (Int 1) = true -> lt (Int 0) level = false ->
  Volume.set_volume level = Int 0.
Proof.
  intros H1 H0. unfold Volume.set_volume, min2, max2. rewrite H1, H0.
  reflexivity.
Qed.

Lemma set_volume_inside (level : number) :
  lt level (Int 1) = true -> lt (Int 0) level = true ->
  Volume.set_volume level = level.
Proof.
  intros H1 H0. unfold Volume.set_volume, min2, max2. rewrite H1, H0.
  reflexivity.
Qed.

Lemma set_volume_cases (level : number) :
  Volume.set_volume level = Int 0 \/ Volume.set_volume level = Int 1 \/
  (Volume.set_volume level = level /\
   lt (Int 0) level = true /\ lt level (Int 1) = true).
Proof.
  destruct (lt level (Int 1)) eqn:H1.
  - destruct (lt (Int 0) level) eqn:H0.
    + right. right. split; [apply set_volume_inside; assumption | tauto].
    + left. apply set_volume_low; assumption.
  - right. left. apply set_volume_high; assumption.
Qed.

End VolumeFacts.

(** X12. Whatever number [set_volume] is called with, the level it hands to
    the audio endpoint is the int 0, the int 1, or the argument itself when
    that lies strictly between 0 and 1: an argument that is not below 1
    gives 1, one that is below 1 but not above 0 gives 0.  Clamping twice
    changes nothing, and so both volume keys of [media_control] hand over a
    level between 0 and 1 whatever [get_volume] returned. *)
Theorem set_volume_clamps (level : Pynum.number) :
  (Pynum.lt level (Pynum.Int 1) = false ->
   Volume.set_volume level = Pynum.Int 1) /\
  (Pynum.lt level (Pynum.Int 1) = true ->
   Pynum.lt (Pynum.Int 0) level = false ->
   Volume.set_volume level = Pynum.Int 0) /\
  (Pynum.lt level (Pynum.Int 1) = true ->
   Pynum.lt (Pynum.Int 0) level = true ->
   Volume.set_volume level = level) /\
  Volume.set_volume (Volume.set_volume level) = Volume.set_volume level /\
  forall up current,
    Volume.volume_key up current = Pynum.Int 0 \/
    Volume.volume_key up current = Pynum.Int 1 \/
    exists f, Volume.volume_key up current = Pynum.Float f /\
      Pynum.lt (Pynum.Int 0) (Pynum.Float f) = true /\
      Pynum.lt (Pynum.Float f) (Pynum.Int 1) = true.
Proof.
  split; [apply set_volume_high|].
  split; [apply set_volume_low|].
  split; [apply set_volume_inside|].
  split.
  - destruct (set_volume_cases level) as [H|[H|(H & H0 & H1)]]; rewrite H.
    + reflexivity.
    + reflexivity.
    + apply set_volume_inside; assumption.
  - intros up current. unfold Volume.volume_key.
    match goal with |- context [Volume.set_volume ?x] =>
      destruct (set_volume_cases x) as [H|[H|(H & H0 & H1)]] end.
    + left. exact H.
    + right. left. exact H.
    + right. right. eexists. split; [exact H|]. split; assumption.
Qed.

Lemma set_volume_clamps_witness :
  Volume.set_volume (Pynum.Float (S754_finite false 3 (-1))) = Pynum.Int 1.
Proof.
  apply (proj1 (set_volume_clamps (Pynum.Float (S754_finite false 3 (-1))))).
  vm_compute. reflexivity.
Defined.

(** X13. The special arguments of [set_volume]: a float that is not a number
    gives 1 (both comparisons with it are false, so [min] keeps 1), either
    zero and every negative finite float give the int 0, minus infinity
    gives 0 and plus infinity 1, and an int [z] gives the int
    [max 0 (min 1 z)]. *)
Theorem set_volume_special_values :
  Volume.set_volume (Pynum.Float S754_nan) = Pynum.Int 1 /\
  (forall s, Volume.set_volume (Pynum.Float (S754_zero s)) = Pynum.Int 0) /\
  (forall m e,
     Volume.set_volume (Pynum.Float (S754_finite true m e)) = Pynum.Int 0) /\
  Volume.set_volume (Pynum.Float (S754_infinity true)) = Pynum.Int 0 /\
  Volume.set_volume (Pynum.Float (S754_infinity false)) = Pynum.Int 1 /\
  forall z, Volume.set_volume (Pynum.Int z) = Pynum.Int (Z.max 0 (Z.min 1 z)).
Proof.
  split; [reflexivity|].
  split; [intros s; reflexivity|].
  split.
  { intros m e. apply set_volume_low;
      [apply lt_negative_one | apply lt_zero_negative]. }
  split; [reflexivity|].
  split; [reflexivity|].
  intros z. unfold Volume.set_volume, Pynum.min2, Pynum.max2.
  rewrite lt_Int.
  destruct (z <? 1)%Z eqn:H1.
  - rewrite lt_Int. destruct (0 <? z)%Z eqn:H0.
    + apply Z.ltb_lt in H1, H0. lia.
    + apply Z.ltb_lt in H1. apply Z.ltb_ge in H0. f_equal. lia.
  - rewrite lt_Int. cbn. apply Z.ltb_ge in H1. f_equal. lia.
Qed.

Section WindowFacts.
Import Window.

Lemma clear_after_set (s m : Z) :
  Z.land (Z.lor s m) (Z.lnot m) = Z.land s (Z.lnot m).
Proof.
  apply Z.bits_inj'. intros i Hi.
  rewrite !Z.land_spec, Z.lor_spec, Z.lnot_spec by assumption.
  destruct (Z.testbit s i), (Z.testbit m i); reflexivity.
Qed.

Lemma set_after_clear (s m : Z) :
  Z.lor (Z.land s (Z.lnot m)) m = Z.lor s m.
Proof.
  apply Z.bits_inj'. intros i Hi.
  rewrite !Z.lor_spec, Z.land_spec, Z.lnot_spec by assumption.
  destruct (Z.testbit s i), (Z.testbit m i); reflexivity.
Qed.

Lemma clear_twice (s m : Z) :
  Z.land (Z.land s (Z.lnot m)) (Z.lnot m) = Z.land s (Z.lnot m).
Proof. rewrite <- Z.land_assoc, Z.land_diag. reflexivity. Qed.

Lemma set_twice (s m : Z) : Z.lor (Z.lor s m) m = Z.lor s m.
Proof. rewrite <- Z.lor_assoc, Z.lor_diag. reflexivity. Qed.

End WindowFacts.

(** X14. [make_overlay_clickable] changes the extended style only in the
    bits of [WS_EX_TRANSPARENT]: such a bit is set exactly when the overlay
    is hidden, every other bit keeps its value; the alpha attribute becomes
    the opacity 0.95 when visible and the int 0 when hidden; and a second
    call changes nothing more. *)
Theorem make_overlay_clickable_bits (o : Window.overlay_window) (i : Z) :
  (0 <= i)%Z ->
  Z.testbit (Window.exstyle (Window.make_overlay_clickable o)) i =
    (if Z.testbit Window.WS_EX_TRANSPARENT i then negb (Window.visible o)
     else Z.testbit (Window.exstyle o) i) /\
  Window.alpha (Window.make_overlay_clickable o) =
    (if Window.visible o then Window.opacity else Pynum.Int 0) /\
  Window.make_overlay_clickable (Window.make_overlay_clickable o) =
    Window.make_overlay_clickable o.
Proof.
  intros Hi. destruct o as [v cv s a]. unfold Window.make_overlay_clickable.
  cbn [Window.visible Window.exstyle Window.alpha Window.config_visible].
  split; [|split].
  - destruct v.
    + rewrite Z.land_spec, Z.lnot_spec by assumption.
      destruct (Z.testbit Window.WS_EX_TRANSPARENT i);
        [apply andb_false_r | apply andb_true_r].
    + rewrite Z.lor_spec.
      destruct (Z.testbit Window.WS_EX_TRANSPARENT i);
        [apply orb_true_r | apply orb_false_r].
  - destruct v; reflexivity.
  - destruct v; f_equal; [apply clear_twice | apply set_twice].
Qed.

Lemma make_overlay_clickable_bits_witness :
  Z.testbit (Window.exstyle (Window.make_overlay_clickable
     {| Window.visible := false; Window.config_visible := false;
        Window.exstyle := 8; Window.alpha := Window.opacity |})) 5 = true.
Proof.
  destruct (make_overlay_clickable_bits
     {| Window.visible := false; Window.config_visible := false;
        Window.exstyle := 8; Window.alpha := Window.opacity |} 5
     ltac:(lia)) as [H _].
  exact H.
Defined.

(** X15. [toggle_visibility]: when [save_config] raises, the visible flag
    and the configuration entry are already flipped but the window keeps its
    style and its alpha; when it returns, the flag is flipped, the
    configuration entry equals it and the window is click-through exactly
    when hidden; two toggles that return bring back the flag and leave the
    window as [make_overlay_clickable] would have left it, no other style
    bit being lost on the way. *)
Theorem toggle_visibility_cases (o : Window.overlay_window) :
  (exists o',
     Window.toggle_visibility false o = Window.Raises o' /\
     Window.visible o' = negb (Window.visible o) /\
     Window.config_visible o' = negb (Window.visible o) /\
     Window.exstyle o' = Window.exstyle o /\
     Window.alpha o' = Window.alpha o) /\
  (exists o1,
     Window.toggle_visibility true o = Window.Returns o1 /\
     Window.visible o1 = negb (Window.visible o) /\
     Window.config_visible o1 = Window.visible o1 /\
     Window.alpha o1 = Window.alpha_of (Window.visible o1) /\
     Window.make_overlay_clickable o1 = o1 /\
     exists o2,
       Window.toggle_visibility true o1 = Window.Returns o2 /\
       Window.visible o2 = Window.visible o /\
       Window.config_visible o2 = Window.visible o /\
       Window.exstyle o2 =
         Window.exstyle (Window.make_overlay_clickable o) /\
       Window.alpha o2 = Window.alpha (Window.make_overlay_clickable o)).
Proof.
  destruct o as [v cv s a]. split.
  - eexists. split; [reflexivity|]. cbn. repeat split.
  - eexists. split; [reflexivity|].
    cbn [Window.visible Window.config_visible Window.exstyle Window.alpha
         Window.make_overlay_clickable].
    split; [reflexivity|]. split; [reflexivity|]. split; [reflexivity|].
    split.
    { unfold Window.make_overlay_clickable.
      cbn [Window.visible Window.config_visible Window.exstyle Window.alpha].
      destruct v; cbn [negb]; f_equal; [apply set_twice | apply clear_twice]. }
    eexists. split; [reflexivity|].
    cbn [Window.visible Window.config_visible Window.exstyle Window.alpha
         Window.make_overlay_clickable].
    rewrite negb_involutive.
    split; [reflexivity|]. split; [reflexivity|].
    split; [|reflexivity].
    destruct v; cbn [negb]; [apply clear_after_set | apply set_after_clear].
Qed.

(** ** The settings form *)

Lemma caller_step_config (c : cid) (p : cpc) (r : reply) (w w' : world) :
  caller_step c p r w = Some w' -> config w' = config w.
Proof.
  intros H. destruct w.
  destruct p; simpl in H; split_step H; reflexivity.
Qed.

Lemma step_config (a : action) (w w' : world) :
  step a w = Some w' -> config w' = config w.
Proof.
  destruct a as [[t|c] r|m]; cbn [step].
  - destruct (workers w !! t) as [p|]; [|discriminate].
    intros H. apply worker_step_frame in H. tauto.
  - destruct (callers w !! c) as [p|]; [|discriminate].
    apply caller_step_config.
  - intros H. injection H as <-. destruct w. reflexivity.
Qed.

Lemma exec_config (sched : list action) (w w' : world) :
  exec sched w = Some w' -> config w' = config w.
Proof.
  intros H.
  apply (exec_invariant (fun x => config x = config w)) with (3 := H);
    [|reflexivity].
  intros a w1 w2 H1 H2. rewrite <- H1. eapply step_config; eassumption.
Qed.

(** X16. [apply_settings] with a port text that [int] rejects: the host has
    already been assigned, so the shared configuration ends with the new
    host next to the old port and the old password; nothing is saved, no
    connect is started, one line is printed and the Apply button is enabled
    again.  The connector never writes the configuration, so whatever it
    does afterwards, a worker that reaches the open statement connects to
    the new host with the old port. *)
Theorem apply_settings_bad_port (f : Settings.form) (save_ok : bool)
    (a : Settings.app) :
  Settings.port_field f = None ->
  let a' := Settings.apply_settings f save_ok a in
  let cfg' := {| obs_host := Settings.host_field f;
                 obs_port := obs_port (config (Settings.obs a));
                 obs_password := obs_password (config (Settings.obs a)) |} in
  config (Settings.obs a') = cfg' /\
  Settings.saved a' = Settings.saved a /\
  callers (Settings.obs a') = callers (Settings.obs a) /\
  workers (Settings.obs a') = workers (Settings.obs a) /\
  trace (Settings.obs a') = trace (Settings.obs a) /\
  Settings.printed a' = S (Settings.printed a) /\
  Settings.apply_enabled a' = true /\
  forall sched w t,
    exec sched (Settings.obs a') = Some w ->
    workers w !! t = Some W_open ->
    exists w',
      step (Step (Worker t) ROk) w = Some w' /\
      trace w' = trace w ++ [(Worker t, EOpen (url cfg') (Some (next_sock w)))].
Proof.
  intros Hport a' cfg'. subst a'.
  unfold Settings.apply_settings, Settings.apply. rewrite Hport.
  destruct a as [w sv pr en]. destruct w.
  do 7 (split; [reflexivity|]).
  intros sched w t Hexec Hw.
  apply exec_config in Hexec. cbn in Hexec.
  rewrite (step_worker _ _ _ _ Hw). cbn [worker_step].
  eexists. split; [reflexivity|].
  destruct w. cbn in Hexec |- *. rewrite Hexec. reflexivity.
Qed.

Lemma apply_settings_bad_port_witness :
  config (Settings.obs (Settings.apply_settings
     {| Settings.host_field := "10.0.0.7"; Settings.port_field := None;
        Settings.password_field := "secret" |} true
     {| Settings.obs := w_receiving; Settings.saved := [];
        Settings.printed := 0; Settings.apply_enabled := true |})) =
  {| obs_host := "10.0.0.7"; obs_port := obs_port (config w_receiving);
     obs_password := obs_password (config w_receiving) |}.
Proof.
  destruct (apply_settings_bad_port
     {| Settings.host_field := "10.0.0.7"; Settings.port_field := None;
        Settings.password_field := "secret" |} true
     {| Settings.obs := w_receiving; Settings.saved := [];
        Settings.printed := 0; Settings.apply_enabled := true |}
     eq_refl) as [H _].
  exact H.
Defined.

(** X17. [apply_settings] with a port that [int] accepts: the shared
    configuration becomes that of the form.  When [save_config] returns,
    exactly that configuration is saved and one new activation of [connect]
    is started, at its first statement; when [save_config] raises, nothing
    is saved, no connect is started and one line is printed.  In both cases
    the Apply button is enabled again and the connector's own fields are
    untouched. *)
Theorem apply_settings_good_port (f : Settings.form) (p : Z)
    (save_ok : bool) (a : Settings.app) :
  Settings.port_field f = Some p ->
  let a' := Settings.apply_settings f save_ok a in
  config (Settings.obs a') = Settings.form_config f p /\
  Settings.apply_enabled a' = true /\
  workers (Settings.obs a') = workers (Settings.obs a) /\
  trace (Settings.obs a') = trace (Settings.obs a) /\
  should_run (Settings.obs a') = should_run (Settings.obs a) /\
  connected (Settings.obs a') = connected (Settings.obs a) /\
  (if save_ok then
     Settings.saved a' = Settings.saved a ++ [Settings.form_config f p] /\
     callers (Settings.obs a') = callers (Settings.obs a) ++ [C_check] /\
     Settings.printed a' = Settings.printed a
   else
     Settings.saved a' = Settings.saved a /\
     callers (Settings.obs a') = callers (Settings.obs a) /\
     Settings.printed a' = S (Settings.printed a)).
Proof.
  intros Hport a'. subst a'.
  unfold Settings.apply_settings, Settings.apply. rewrite Hport.
  destruct a as [w sv pr en]. destruct w.
  destruct save_ok; cbn; repeat split.
Qed.

Lemma apply_settings_good_port_witness :
  config (Settings.obs (Settings.apply_settings
     {| Settings.host_field := "10.0.0.7"; Settings.port_field := Some 4456%Z;
        Settings.password_field := "secret" |} true
     {| Settings.obs := w_receiving; Settings.saved := [];
        Settings.printed := 0; Settings.apply_enabled := true |})) =
  {| obs_host := "10.0.0.7"; obs_port := 4456; obs_password := "secret" |}.
Proof.
  destruct (apply_settings_good_port
     {| Settings.host_field := "10.0.0.7"; Settings.port_field := Some 4456%Z;
        Settings.password_field := "secret" |} 4456 true
     {| Settings.obs := w_receiving; Settings.saved := [];
        Settings.printed := 0; Settings.apply_enabled := true |}
     eq_refl) as [H _].
  exact H.
Defined.

(** * The media title *)

Section RegexFacts.
Import Media.

Lemma lang_class_inv (p : N -> bool) (s : text) :
  lang (Class p) s <-> exists c, s = [c] /\ p c = true.
Proof.
  split.
  - intros H. inversion H; subst. eexists. split; [reflexivity | assumption].
  - intros (c & -> & H). constructor. exact H.
Qed.

Lemma lang_seq_inv (r1 r2 : re) (s : text) :
  lang (Seq r1 r2) s <-> exists s1 s2, s = s1 ++ s2 /\ lang r1 s1 /\ lang r2 s2.
Proof.
  split.
  - intros H. inversion H; subst. eexists _, _.
    split; [reflexivity|]. split; assumption.
  - intros (s1 & s2 & -> & H1 & H2). constructor; assumption.
Qed.

Lemma nullable_lang (r : re) : nullable r = true <-> lang r [].
Proof.
  induction r as [| |p|r1 IH1 r2 IH2|r1 IH1 r2 IH2|r IH]; cbn [nullable].
  - split; [discriminate | intros H; inversion H].
  - split; [intros _; constructor | reflexivity].
  - split; [discriminate | intros H; inversion H].
  - rewrite andb_true_iff, IH1, IH2. split.
    + intros [H1 H2]. apply (lang_seq _ _ [] [] H1 H2).
    + intros H. apply lang_seq_inv in H as (s1 & s2 & Heq & H1 & H2).
      symmetry in Heq. apply app_eq_nil in Heq as [-> ->].
      split; assumption.
  - rewrite orb_true_iff, IH1, IH2. split.
    + intros [H|H]; [apply lang_alt_l | apply lang_alt_r]; assumption.
    + intros H. inversion H; subst; [left | right]; assumption.
  - split; [intros _; constructor | reflexivity].
Qed.

Lemma lang_star_head (r : re) (c : N) (s : text) :
  lang (Star r) (c :: s) ->
  exists s1 s2, s = s1 ++ s2 /\ lang r (c :: s1) /\ lang (Star r) s2.
Proof.
  intros H. remember (Star r) as r0 eqn:Hr. remember (c :: s) as s0 eqn:Hs.
  revert Hr Hs.
  induction H as [| | | | | |r' s1 s2 H1 _ H2 IH2]; try discriminate.
  intros Hr Hs. injection Hr as ->.
  destruct s1 as [|c1 s1].
  - apply IH2; [reflexivity | exact Hs].
  - cbn in Hs. injection Hs as -> <-. exists s1, s2. repeat split; assumption.
Qed.

Lemma deriv_lang (c : N) (r : re) (s : text) :
  lang (deriv c r) s <-> lang r (c :: s).
Proof.
  revert s.
  induction r as [| |p|r1 IH1 r2 IH2|r1 IH1 r2 IH2|r IH]; intros s;
    cbn [deriv].
  - split; intros H; inversion H.
  - split; intros H; inversion H.
  - destruct (p c) eqn:Hp; split; intros H; inversion H; subst.
    + constructor. exact Hp.
    + constructor.
    + congruence.
  - assert (Hseq : lang (Seq (deriv c r1) r2) s ->
                   lang (Seq r1 r2) (c :: s)).
    { intros H. apply lang_seq_inv in H as (s1 & s2 & -> & H1 & H2).
      apply IH1 in H1. apply (lang_seq _ _ (c :: s1) s2 H1 H2). }
    assert (Hinv : lang (Seq r1 r2) (c :: s) ->
                   lang (Seq (deriv c r1) r2) s \/
                   (lang r1 [] /\ lang r2 (c :: s))).
    { intros H. apply lang_seq_inv in H as (s1 & s2 & Heq & H1 & H2).
      destruct s1 as [|c1 s1].
      - right. cbn in Heq. subst s2. split; assumption.
      - left. cbn in Heq. injection Heq as <- ->.
        apply lang_seq; [apply IH1; assumption | assumption]. }
    destruct (nullable r1) eqn:Hn.
    + split.
      * intros H. inversion H; subst; [apply Hseq; assumption|].
        apply (lang_seq _ _ [] (c :: s)); [|apply IH2; assumption].
        apply nullable_lang. exact Hn.
      * intros H. destruct (Hinv H) as [H1|[_ H2]].
        -- apply lang_alt_l. exact H1.
        -- apply lang_alt_r. apply IH2. exact H2.
    + split; [exact Hseq|].
      intros H. destruct (Hinv H) as [H1|[H1 _]]; [exact H1|].
      apply nullable_lang in H1. congruence.
  - split; intros H; inversion H; subst.
    + apply lang_alt_l, IH1. assumption.
    + apply lang_alt_r, IH2. assumption.
    + apply lang_alt_l, IH1. assumption.
    + apply lang_alt_r, IH2. assumption.
  - split.
    + intros H. apply lang_seq_inv in H as (s1 & s2 & -> & H1 & H2).
      apply IH in H1. apply (lang_star_cons _ (c :: s1) s2 H1 H2).
    + intros H. apply lang_star_head in H as (s1 & s2 & -> & H1 & H2).
      apply lang_seq; [apply IH; assumption | assumption].
Qed.

(** [re_match] is [re.match]: it succeeds exactly when a prefix of the text
    is a word of the expression. *)
Lemma re_match_lang (r : re) (t : text) :
  re_match r t = true <-> exists p s, t = p ++ s /\ lang r p.
Proof.
  revert r. induction t as [|c t IH]; intros r; cbn [re_match].
  - rewrite orb_false_r, nullable_lang. split.
    + intros H. exists [], []. split; [reflexivity | exact H].
    + intros (p & s & Heq & H). symmetry in Heq.
      apply app_eq_nil in Heq as [-> _]. exact H.
  - rewrite orb_true_iff, nullable_lang, IH. split.
    + intros [H|(p & s & -> & H)].
      * exists [], (c :: t). split; [reflexivity | exact H].
      * exists (c :: p), s. split; [reflexivity|]. apply deriv_lang. exact H.
    + intros (p & s & Heq & H). destruct p as [|c' p].
      * left. exact H.
      * right. cbn in Heq. injection Heq as <- ->.
        exists p, s. split; [reflexivity|]. apply deriv_lang. exact H.
Qed.

Lemma lang_star_class (p : N -> bool) (s : text) :
  lang (Star (Class p)) s <-> Forall (fun c => p c = true) s.
Proof.
  split.
  - intros H. remember (Star (Class p)) as r eqn:Hr. revert Hr.
    induction H as [| | | | | |r' s1 s2 H1 _ H2 IH2]; try discriminate.
    + intros _. constructor.
    + intros Hr. injection Hr as ->. inversion H1; subst.
      constructor; [assumption | apply IH2; reflexivity].
  - induction 1 as [|c s Hc _ IH].
    + constructor.
    + apply (lang_star_cons _ [c] s); [constructor; exact Hc | exact IH].
Qed.

Lemma lang_plus_class (p : N -> bool) (s : text) :
  lang (Plus (Class p)) s <->
  exists c s', s = c :: s' /\ p c = true /\ Forall (fun c => p c = true) s'.
Proof.
  unfold Plus. rewrite lang_seq_inv. split.
  - intros (s1 & s2 & -> & H1 & H2).
    apply lang_class_inv in H1 as (c & -> & Hc).
    apply lang_star_class in H2. exists c, s2. repeat split; assumption.
  - intros (c & s' & -> & Hc & H). exists [c], s'.
    split; [reflexivity|]. split; [constructor; exact Hc|].
    apply lang_star_class. exact H.
Qed.

Lemma title_pattern_lang (s : text) :
  lang title_pattern s <->
  exists a s1 s2 b,
    s = a ++ [s1; 45%N; s2] ++ b /\
    a <> [] /\ Forall (fun c => c <> 10%N) a /\
    is_space s1 = true /\ is_space s2 = true /\
    b <> [] /\ Forall (fun c => c <> 10%N) b.
Proof.
  assert (Hdot : forall l, Forall (fun c => is_dot c = true) l <->
                           Forall (fun c => c <> 10%N) l).
  { intros l. apply Forall_iff. intros c. unfold is_dot.
    rewrite negb_true_iff, N.eqb_neq. reflexivity. }
  unfold title_pattern. split.
  - intros H.
    apply lang_seq_inv in H as (a & r1 & -> & Ha & H).
    apply lang_seq_inv in H as (x1 & r2 & -> & H1 & H).
    apply lang_seq_inv in H as (x2 & r3 & -> & H2 & H).
    apply lang_seq_inv in H as (x3 & b & -> & H3 & Hb).
    apply lang_class_inv in H1 as (s1 & -> & Hs1).
    apply lang_class_inv in H2 as (h & -> & Hh).
    apply lang_class_inv in H3 as (s2 & -> & Hs2).
    apply N.eqb_eq in Hh. subst h.
    apply lang_plus_class in Ha as (ca & a' & -> & Hca & Ha).
    apply lang_plus_class in Hb as (cb & b' & -> & Hcb & Hb).
    exists (ca :: a'), s1, s2, (cb :: b').
    split; [reflexivity|].
    split; [discriminate|].
    split; [apply Hdot; constructor; assumption|].
    split; [assumption|]. split; [assumption|].
    split; [discriminate|]. apply Hdot. constructor; assumption.
  - intros (a & s1 & s2 & b & -> & Ha & Hda & Hs1 & Hs2 & Hb & Hdb).
    apply Hdot in Hda, Hdb.
    apply lang_seq.
    { destruct a as [|ca a']; [congruence|]. inversion Hda; subst.
      apply lang_plus_class. eexists _, _. repeat split; eassumption. }
    apply (lang_seq _ _ [s1]); [constructor; exact Hs1|].
    apply (lang_seq _ _ [45%N]); [constructor; reflexivity|].
    apply (lang_seq _ _ [s2]); [constructor; exact Hs2|].
    destruct b as [|cb b']; [congruence|]. inversion Hdb; subst.
    apply lang_plus_class. eexists _, _. repeat split; eassumption.
Qed.

Lemma re_match_title_pattern (t : text) :
  re_match title_pattern t = true <->
  exists a s1 s2 c rest,
    t = a ++ [s1; 45%N; s2; c] ++ rest /\
    a <> [] /\ Forall (fun x => x <> 10%N) a /\
    is_space s1 = true /\ is_space s2 = true /\ c <> 10%N.
Proof.
  rewrite re_match_lang. split.
  - intros (p & s & -> & H).
    apply title_pattern_lang in H
      as (a & s1 & s2 & b & -> & Ha & Hda & Hs1 & Hs2 & Hb & Hdb).
    destruct b as [|c b']; [congruence|]. inversion Hdb; subst.
    exists a, s1, s2, c, (b' ++ s).
    split; [rewrite <- !app_assoc; reflexivity|].
    repeat split; assumption.
  - intros (a & s1 & s2 & c & rest & -> & Ha & Hda & Hs1 & Hs2 & Hc).
    exists (a ++ [s1; 45%N; s2] ++ [c]), rest.
    split; [rewrite <- !app_assoc; reflexivity|].
    apply title_pattern_lang. exists a, s1, s2, [c].
    split; [reflexivity|].
    repeat split; try assumption; [discriminate|].
    constructor; [assumption | constructor].
Qed.

Lemma re_match_title_length (t : text) :
  re_match title_pattern t = true -> (5 <= List.length t)%nat.
Proof.
  intros H.
  apply re_match_title_pattern in H as (a & s1 & s2 & c & rest & -> & Ha & _).
  destruct a as [|x a]; [congruence|].
  rewrite length_app. cbn. lia.
Qed.

End RegexFacts.

(** X18. What line 526 accepts: [re.match] with the pattern [.+\s-\s.+]
    succeeds on a title exactly when the title starts with one or more
    characters other than a line feed, followed by a white-space character,
    a hyphen, a white-space character and one more character other than a
    line feed; what comes after is free.  Such a title has at least five
    characters. *)
Theorem title_pattern_shape (t : Media.text) :
  (Media.re_match Media.title_pattern t = true <->
   exists a s1 s2 c rest,
     t = a ++ [s1; 45%N; s2; c] ++ rest /\
     a <> [] /\ Forall (fun x => x <> 10%N) a /\
     Media.is_space s1 = true /\ Media.is_space s2 = true /\ c <> 10%N) /\
  (Media.re_match Media.title_pattern t = true -> (5 <= List.length t)%nat).
Proof.
  split; [apply re_match_title_pattern | apply re_match_title_length].
Qed.

Lemma title_pattern_shape_witness :
  (5 <= List.length (Media.text_of "Song - Artist"))%nat.
Proof.
  apply (title_pattern_shape (Media.text_of "Song - Artist")).
  vm_compute. reflexivity.
Defined.

Section MediaFacts.
Import Media.
Variable lower : text -> text.

Lemma enum_handler_collected (w : window) (results : list text) :
  enum_handler lower w results =
  if collected lower w then results ++ [text_second w] else results.
Proof.
  unfold enum_handler, collected.
  destruct (is_visible w && negb (text_eqb (text_first w) [])); [|reflexivity].
  cbn [andb].
  destruct (exe w) as [n|]; [|reflexivity].
  destruct (mem n media_processes); [|reflexivity].
  cbn [andb].
  destruct (mem n browsers); cbn [negb orb]; reflexivity.
Qed.

Lemma EnumWindows_collected (ws : list window) (results : list text) :
  EnumWindows lower ws results =
  results ++ map text_second (List.filter (collected lower) ws).
Proof.
  unfold EnumWindows. revert results.
  induction ws as [|w ws IH]; intros results; cbn [fold_left List.filter].
  - cbn. rewrite app_nil_r. reflexivity.
  - rewrite IH, enum_handler_collected.
    destruct (collected lower w); [|reflexivity].
    cbn [map]. rewrite <- app_assoc. reflexivity.
Qed.

Lemma first_match_find (titles : list text) :
  first_match titles = List.find (re_match title_pattern) titles.
Proof.
  induction titles as [|t rest IH]; cbn [first_match List.find];
    [reflexivity|].
  destruct (re_match title_pattern t) eqn:Hm.
  - apply re_match_title_length in Hm.
    destruct (List.length t <? 5)%nat eqn:Hl; [|reflexivity].
    apply Nat.ltb_lt in Hl. lia.
  - destruct (List.length t <? 5)%nat; exact IH.
Qed.

End MediaFacts.

(** X19. The title shown by [update_media_loop]: with the titles of the
    collected windows taken in enumeration order (a window is collected when
    it is visible, its text is not empty, its executable is one of the seven
    media processes and, for the three browsers, its lower-cased title
    contains [youtube]), [get_media_title_from_window] returns the first of
    them that [re.match] accepts, else the first of them, else the text
    [No media playing].  The length test of line 524 never changes the
    result. *)
Theorem get_media_title_from_window_result (lower : Media.text -> Media.text)
    (ws : list Media.window) :
  Media.get_media_title_from_window lower ws =
  match List.find (Media.re_match Media.title_pattern)
          (map Media.text_second (List.filter (Media.collected lower) ws)) with
  | Some t => t
  | None =>
      hd Media.no_media
         (map Media.text_second (List.filter (Media.collected lower) ws))
  end.
Proof.
  unfold Media.get_media_title_from_window.
  rewrite EnumWindows_collected, first_match_find. cbn [app].
  destruct (List.find _ _); [reflexivity|].
  destruct (map _ _); reflexivity.
Qed.

(** A desktop with an editor, a browser on another site, a player whose
    title has no separator and a browser on YouTube. *)
Example get_media_title_from_window_example :
  Media.get_media_title_from_window Media.ascii_lower
    [ {| Media.is_visible := true; Media.text_first := Media.text_of "notes";
         Media.exe := Some (Media.text_of "notepad.exe");
         Media.text_second := Media.text_of "notes" |};
      {| Media.is_visible := true; Media.text_first := Media.text_of "News - Site";
         Media.exe := Some (Media.text_of "chrome.exe");
         Media.text_second := Media.text_of "News - Site" |};
      {| Media.is_visible := true; Media.text_first := Media.text_of "VLC";
         Media.exe := Some (Media.text_of "vlc.exe");
         Media.text_second := Media.text_of "VLC" |};
      {| Media.is_visible := true; Media.text_first := Media.text_of "Song - YouTube";
         Media.exe := Some (Media.text_of "firefox.exe");
         Media.text_second := Media.text_of "Song - YouTube" |} ]
  = Media.text_of "Song - YouTube" /\
  Media.get_media_title_from_window Media.ascii_lower
    [ {| Media.is_visible := true; Media.text_first := Media.text_of "VLC";
         Media.exe := Some (Media.text_of "vlc.exe");
         Media.text_second := Media.text_of "VLC" |};
      {| Media.is_visible := false; Media.text_first := Media.text_of "A - B";
         Media.exe := Some (Media.text_of "spotify.exe");
         Media.text_second := Media.text_of "A - B" |};
      {| Media.is_visible := true; Media.text_first := Media.text_of "C - D";
         Media.exe := None;
         Media.text_second := Media.text_of "C - D" |} ]
  = Media.text_of "VLC" /\
  Media.get_media_title_from_window Media.ascii_lower [] = Media.no_media.
Proof. vm_compute. repeat split. Qed.
